(** * Channel statistics, dimension lookup and tile-size helpers of viv

    A shallow embedding of [packages/loaders/src/utils.ts] and of the
    helpers of [avivator/src/utils.js], with the properties the
    specification states about them and further properties of the code.

    Conventions.
    - An integer typed array of [DTYPE_LOOKUP] (Uint8 ... Int32) is a
      [list Z]: its elements are integers that a JS number holds exactly.
      A [Float32Array] or [Float64Array] is a list of doubles; the module
      [Float64] gives [getChannelStats] on those.
    - An index is a [Z], as a JS number that holds an integer.  Reading a
      typed array outside its bounds yields [undefined] ([None]); writing
      outside its bounds is ignored; storing [undefined] stores 0 in an
      integer typed array and NaN in a buffer of doubles.
    - Arithmetic the source performs on doubles and whose rounding matters
      (the mean, the standard deviation, the percentile ranks) is carried out
      on Rocq's binary64 primitive floats.
    - An ordinary array is a list; where the source can leave holes in it
      (the arrays of the channel state), its entries say so.  A string is a
      [string] of one-byte characters. *)

From Stdlib Require Import ZArith Floats Sorting.Sorted.
From Stdlib Require Uint63 Zpower.
From stdpp Require Import gmap strings list sorting.
Open Scope Z_scope.
Set Warnings "-inexact-float".

(** ** JS numbers and typed arrays *)

Module JS.

(** A JS number that is an integer, or one of the two infinities. *)
Inductive num := NegInf | Fin (z : Z) | PosInf.

Definition num_ltb (a b : num) : bool :=
  match a, b with
  | NegInf, NegInf => false
  | NegInf, _ => true
  | Fin x, Fin y => x <? y
  | Fin _, PosInf => true
  | _, _ => false
  end.

(** [a < b] on values read from a typed array; a comparison with
    [undefined] is false. *)
Definition lt (a b : option Z) : bool :=
  match a, b with
  | Some x, Some y => x <? y
  | _, _ => false
  end.

(** [arr[i]] *)
Definition get (arr : list Z) (i : Z) : option Z :=
  if 0 <=? i then arr !! Z.to_nat i else None.

(** [arr[i] = v] *)
Definition set (arr : list Z) (i : Z) (v : option Z) : list Z :=
  if 0 <=? i then <[Z.to_nat i := default 0 v]> arr else arr.

(** [x || 0] on a value read from a typed array: [undefined] and 0 are
    falsy. *)
Definition or0 (x : option Z) : Z :=
  match x with
  | Some v => if v =? 0 then 0 else v
  | None => 0
  end.

(** The double nearest to an integer. *)
Definition of_Z (z : Z) : float :=
  SF2Prim (binary_normalize prec emax z 0 false).

(** [Math.floor] of a double, as an integer.  The arguments below are
    products of an array length with a constant below one, which are finite;
    the infinities and NaN are sent to 0. *)
Definition floor (f : float) : Z :=
  match Prim2SF f with
  | S754_finite s m e => Z.shiftl (if s then Z.neg m else Z.pos m) e
  | _ => 0
  end.

End JS.

(** ** The [quickselect] package *)

Module Quickselect.
Import JS.

(** The package is imported by [utils.ts] and is not part of the sources.
    The specification describes it as an in-place, partition-based selection
    of the k-th smallest element that leaves the elements left of the index no
    larger and those right of it no smaller.  The definitions below follow the
    package's algorithm: the loop [while (right > left)] of [quickselectStep]
    with its partition around [t = arr[k]], [swap] and [defaultCompare].  Two
    things are left out.  The package's preliminary recursive call on a
    sampled sub-range, taken when [right - left > 600], only prepares the
    pivot.  Releases of the package that default the bounds with [left || 0]
    and [right || (arr.length - 1)] read an explicit 0 as absent; at the call
    sites of [getChannelStats] a right bound of 0 is passed only for arrays of
    at most one element, where the window is empty either way.

    Loops carry a fuel argument; the lemmas [scan_up_exits],
    [scan_down_exits], [partition_loop_exits] and [quickselect_returns] show
    that the fuel supplied lets every loop run until its own test fails. *)

(** Modelled from the spec: the package's [swap(arr, i, j)], which exchanges
    two elements in place. *)
Definition swap (arr : list Z) (i j : Z) : list Z :=
  let tmp := get arr i in
  let arr := set arr i (get arr j) in
  set arr j tmp.

(** Modelled from the spec: the package's [defaultCompare(a, b)], that is
    [a < b ? -1 : a > b ? 1 : 0]. *)
Definition defaultCompare (a b : option Z) : Z :=
  if lt a b then -1 else if lt b a then 1 else 0.

(** Modelled from the spec: the scan [while (compare(arr[i], t) < 0) i++;]
    of the package's partition. *)
Fixpoint scan_up (fuel : nat) (arr : list Z) (t : option Z) (i : Z) : Z :=
  match fuel with
  | O => i
  | S fuel =>
      if defaultCompare (get arr i) t <? 0
      then scan_up fuel arr t (i + 1)
      else i
  end.

(** Modelled from the spec: the scan [while (compare(arr[j], t) > 0) j--;]
    of the package's partition. *)
Fixpoint scan_down (fuel : nat) (arr : list Z) (t : option Z) (j : Z) : Z :=
  match fuel with
  | O => j
  | S fuel =>
      if 0 <? defaultCompare (get arr j) t
      then scan_down fuel arr t (j - 1)
      else j
  end.

(** Modelled from the spec: the partition loop of the package,
    [while (i < j) { swap(arr, i, j); i++; j--; ...the two scans... }]. *)
Fixpoint partition_loop (fuel : nat) (arr : list Z) (t : option Z) (i j : Z)
  : list Z * Z * Z :=
  if i <? j then
    match fuel with
    | O => (arr, i, j)
    | S fuel =>
        let arr := swap arr i j in
        let i := i + 1 in
        let j := j - 1 in
        let i := scan_up (length arr) arr t i in
        let j := scan_down (length arr) arr t j in
        partition_loop fuel arr t i j
    end
  else (arr, i, j).

(** Modelled from the spec: one pass of the body of the package's
    [while (right > left)], that is the partition around [t = arr[k]], and the
    index [j] at which the pivot ends. *)
Definition partition (arr : list Z) (k left right : Z) : list Z * Z :=
  let t := get arr k in
  let arr := swap arr left k in
  let arr :=
    if 0 <? defaultCompare (get arr right) t then swap arr left right else arr in
  let '(arr, i, j) := partition_loop (Z.to_nat (right - left)) arr t left right in
  if defaultCompare (get arr left) t =? 0
  then (swap arr left j, j)
  else (swap arr (j + 1) right, j + 1).

(** Modelled from the spec: the selection loop of the package,
    [while (right > left) { ...partition...; if (j <= k) left = j + 1;
    if (k <= j) right = j - 1; }]; [None] when the fuel runs out. *)
Fixpoint quickselectStep (fuel : nat) (arr : list Z) (k left right : Z)
  : option (list Z) :=
  if left <? right then
    match fuel with
    | O => None
    | S fuel =>
        let '(arr, j) := partition arr k left right in
        let left' := if j <=? k then j + 1 else left in
        let right' := if k <=? j then j - 1 else right in
        quickselectStep fuel arr k left' right'
    end
  else Some arr.

(** Modelled from the spec: the package's entry point
    [quickselect(arr, k, left = 0, right = arr.length - 1)], which selects in
    place; the array it leaves is returned. *)
Definition quickselect (arr : list Z) (k : Z) (left right : option Z)
  : option (list Z) :=
  let left := default 0 left in
  let right := default (Z.of_nat (length arr) - 1) right in
  quickselectStep (Z.to_nat (right - left)) arr k left right.

End Quickselect.

(** ** [packages/loaders/src/utils.ts] *)

Module Loaders.
Import JS Quickselect.

Record ChannelStats := {
  mean : float;
  sd : float;
  q1 : option Z;
  q3 : option Z;
  median : option Z;
  domain : num * num;
  contrastLimits : Z * Z
}.

(** The first [while (len--)] loop: it visits the elements from the last to
    the first, which is the order in which [foldr] combines them. *)
Definition range_step (x : Z) (acc : num * num * float) : num * num * float :=
  let '(min, max, total) := acc in
  let min := if num_ltb (Fin x) min then Fin x else min in
  let max := if num_ltb max (Fin x) then Fin x else max in
  (min, max, (total + of_Z x)%float).

Definition range_pass (arr : list Z) : num * num * float :=
  foldr range_step (PosInf, NegInf, 0%float) arr.

(** The second [while (len--)] loop; [x ** 2] is taken as the product
    [x * x]. *)
Definition sumSquared_pass (mean : float) (arr : list Z) : float :=
  foldr (fun x acc => let d := (of_Z x - mean)%float in (acc + d * d)%float)
        0%float arr.

Definition cutoffPercentile : float := 0.0005%float.

Definition topCutoffLocation (m : Z) : Z :=
  floor (of_Z m * (1 - cutoffPercentile))%float.

Definition bottomCutoffLocation (m : Z) : Z :=
  floor (of_Z m * cutoffPercentile)%float.

(** [getChannelStats(arr)] on the buffer of an integer typed array: the
    statistics returned, and the contents of [arr] when the call returns
    (the selections reorder [arr] in place).
    [Math.floor(n / 2)] and [Math.floor(n / 4)] divide an integer by a power
    of two, which is exact on doubles, and are written with integer division;
    [x ** 0.5] is taken as the square root.  The result is [None] only if a
    selection runs out of fuel, which [getChannelStats_run] rules out. *)
Definition getChannelStats (arr : list Z) : option (ChannelStats * list Z) :=
  let n := Z.of_nat (length arr) in
  let '(min, max, total) := range_pass arr in
  let mean := (total / of_Z n)%float in
  let sumSquared := sumSquared_pass mean arr in
  let sd := PrimFloat.sqrt (sumSquared / of_Z n)%float in
  let mid := n / 2 in
  let firstQuartileLocation := n / 4 in
  let thirdQuartileLocation := 3 * (n / 4) in
  arr ← quickselect arr mid None None;
  let median := get arr mid in
  arr ← quickselect arr firstQuartileLocation (Some 0) (Some mid);
  let q1 := get arr firstQuartileLocation in
  arr ← quickselect arr thirdQuartileLocation (Some mid) (Some (n - 1));
  let q3 := get arr thirdQuartileLocation in
  let cutoffArr := filter (fun i => 0 < i) arr in
  let m := Z.of_nat (length cutoffArr) in
  let topCutoffLocation := topCutoffLocation m in
  let bottomCutoffLocation := bottomCutoffLocation m in
  cutoffArr ← quickselect cutoffArr topCutoffLocation None None;
  cutoffArr ← quickselect cutoffArr bottomCutoffLocation (Some 0)
                          (Some topCutoffLocation);
  let contrastLimits :=
    (or0 (get cutoffArr bottomCutoffLocation),
     or0 (get cutoffArr topCutoffLocation)) in
  Some ({| mean := mean; sd := sd; q1 := q1; q3 := q3; median := median;
           domain := (min, max); contrastLimits := contrastLimits |}, arr).

(** [isInterleaved(shape)] *)
Definition isInterleaved (shape : list Z) : bool :=
  let lastDimSize := get shape (Z.of_nat (length shape) - 1) in
  bool_decide (lastDimSize = Some 3) || bool_decide (lastDimSize = Some 4).

Inductive Error := MkError (message : string).

(** [new Map(entries)]: the entries are inserted in order, a later entry
    for a key replacing an earlier one. *)
Definition new_Map (entries : list (string * Z)) : gmap string Z :=
  foldl (fun m e => <[e.1 := e.2]> m) ∅ entries.

(** [getDims(labels)]: [inl] is a thrown error, [inr] the returned lookup
    function. *)
Definition getDims (labels : list string)
  : Error + (string -> Error + Z) :=
  let lookup := new_Map (imap (fun i name => (name, Z.of_nat i)) labels) in
  if bool_decide (size lookup ≠ length labels)
  then inl (MkError "Labels must be unique, found duplicated label.")
  else inr (fun name =>
         match lookup !! name with
         | None => inl (MkError "Invalid dimension.")
         | Some index => inr index
         end).

(** [prevPowerOf2(x)], that is [2 ** Math.floor(Math.log2(x))], on an
    integer [x].  For 0 the source yields [2 ** -Infinity = 0], and for a
    negative number NaN ([Some None]).  For a positive [x] the double
    [Math.log2(x)] is taken as the engines compute it: within a few units in
    the last place of the logarithm of [x], and exact at a power of two.
    Below [2 ^ 32] the logarithm of an integer that is not a power of two
    lies more than [2 ^ -32] under the next integer, far more than the double
    is off, so the floor of the double is the integer logarithm of [x].
    For a larger [x] the double can reach the next integer
    ([Math.log2(2 ** 49 - 1)] is 49), and the result is left open
    ([None]). *)
Definition prevPowerOf2 (x : Z) : option (option Z) :=
  if x <? 0 then Some None
  else if x =? 0 then Some (Some 0)
  else if x <? 2 ^ 32 then Some (Some (2 ^ Z.log2 x))
  else None.

(** The two methods of a [GeoTIFFImage] that [guessTiffTileSize] calls;
    they return the values of TIFF tags. *)
Record GeoTIFFImage := {
  getTileWidth : Z;
  getTileHeight : Z
}.

Definition guessTiffTileSize (image : GeoTIFFImage) : option (option Z) :=
  let tileWidth := getTileWidth image in
  let tileHeight := getTileHeight image in
  let size := Z.min tileWidth tileHeight in
  prevPowerOf2 size.

(** A JS number as [intToRgba] tells them apart: an integer, or a number
    for which [Number.isInteger] is false (a fraction, NaN, an infinity). *)
Inductive number := Integer (z : Z) | NonInteger.

(** [intToRgba(int)]: [view.setInt32(0, int, false)] writes the 32-bit two's
    complement of [int], most significant byte first, and the [Uint8Array]
    view reads the four bytes back. *)
Definition intToRgba (int : number) : Error + list Z :=
  match int with
  | NonInteger => inl (MkError "Not an integer.")
  | Integer z =>
      inr [Z.land (Z.shiftr z 24) 255; Z.land (Z.shiftr z 16) 255;
           Z.land (Z.shiftr z 8) 255; Z.land z 255]
  end.

(** [c.toLowerCase()] on one character; the dimension orders are ASCII, and
    only the letters A to Z change. *)
Definition toLowerCase_char (c : Ascii.ascii) : Ascii.ascii :=
  let code := Ascii.nat_of_ascii c in
  if ((65 <=? code) && (code <=? 90))%nat
  then Ascii.ascii_of_nat (code + 32)
  else c.

(** [getLabels(dimOrder)], that is
    [dimOrder.toLowerCase().split('').reverse()]. *)
Definition getLabels (dimOrder : string) : list string :=
  reverse ((fun c => String (toLowerCase_char c) EmptyString)
             <$> String.list_ascii_of_string dimOrder).

Record ImageSize := {
  height : option Z;
  width : option Z
}.

(** [getImageSize(source)], which reads [source.shape] only:
    [shape.slice(-3)] or [shape.slice(-2)] keeps the last three or two
    extents (all of them when there are fewer), and the destructuring takes
    the first two of those. *)
Definition getImageSize (shape : list Z) : ImageSize :=
  let interleaved := isInterleaved shape in
  let count := if interleaved then 3%nat else 2%nat in
  let sliced := drop (length shape - count) shape in
  {| height := sliced !! 0%nat; width := sliced !! 1%nat |}.

End Loaders.

(** ** [getChannelStats] on a [Float32Array] or [Float64Array] *)

Module Float64.
Import JS.

(** [getChannelStats] takes any typed array.  The modules [Quickselect] and
    [Loaders] give it on the integer typed arrays, whose samples are
    integers.  On a [Float32Array] or a [Float64Array] the samples are
    doubles, NaN among them, and the same code runs as below: a comparison
    with NaN is false, NaN is falsy, and storing [undefined] stores NaN.
    The loops carry fuel as in [Quickselect]; the lemmas [f64_scan_up_exits],
    [f64_scan_down_exits], [f64_partition_loop_exits] and
    [f64_quickselect_total] show that it lets every loop run until its own
    test fails. *)

(** [a < b]; a comparison with [undefined] or NaN is false. *)
Definition lt (a b : option float) : bool :=
  match a, b with
  | Some x, Some y => (x <? y)%float
  | _, _ => false
  end.

(** [arr[i]] *)
Definition get (arr : list float) (i : Z) : option float :=
  if 0 <=? i then arr !! Z.to_nat i else None.

(** [arr[i] = v] *)
Definition set (arr : list float) (i : Z) (v : option float) : list float :=
  if 0 <=? i then <[Z.to_nat i := default nan v]> arr else arr.

(** [x || 0]: [undefined], the two zeros and NaN are falsy. *)
Definition or0 (x : option float) : float :=
  match x with
  | Some v => if (v =? 0)%float || is_nan v then 0%float else v
  | None => 0%float
  end.

(** Modelled from the spec: the [quickselect] package on doubles, as in
    the module [Quickselect]: [swap(arr, i, j)]. *)
Definition swap (arr : list float) (i j : Z) : list float :=
  let tmp := get arr i in
  let arr := set arr i (get arr j) in
  set arr j tmp.

(** Modelled from the spec: [defaultCompare(a, b)], that is
    [a < b ? -1 : a > b ? 1 : 0]. *)
Definition defaultCompare (a b : option float) : Z :=
  if lt a b then -1 else if lt b a then 1 else 0.

(** Modelled from the spec: the scan [while (compare(arr[i], t) < 0) i++;]. *)
Fixpoint scan_up (fuel : nat) (arr : list float) (t : option float) (i : Z)
  : Z :=
  match fuel with
  | O => i
  | S fuel =>
      if defaultCompare (get arr i) t <? 0
      then scan_up fuel arr t (i + 1)
      else i
  end.

(** Modelled from the spec: the scan [while (compare(arr[j], t) > 0) j--;]. *)
Fixpoint scan_down (fuel : nat) (arr : list float) (t : option float) (j : Z)
  : Z :=
  match fuel with
  | O => j
  | S fuel =>
      if 0 <? defaultCompare (get arr j) t
      then scan_down fuel arr t (j - 1)
      else j
  end.

(** Modelled from the spec: the partition loop,
    [while (i < j) { swap(arr, i, j); i++; j--; ...the two scans... }]. *)
Fixpoint partition_loop (fuel : nat) (arr : list float) (t : option float)
    (i j : Z) : list float * Z * Z :=
  if i <? j then
    match fuel with
    | O => (arr, i, j)
    | S fuel =>
        let arr := swap arr i j in
        let i := i + 1 in
        let j := j - 1 in
        let i := scan_up (length arr) arr t i in
        let j := scan_down (length arr) arr t j in
        partition_loop fuel arr t i j
    end
  else (arr, i, j).

(** Modelled from the spec: the partition around [t = arr[k]] and the
    index [j] at which the pivot ends. *)
Definition partition (arr : list float) (k left right : Z)
  : list float * Z :=
  let t := get arr k in
  let arr := swap arr left k in
  let arr :=
    if 0 <? defaultCompare (get arr right) t then swap arr left right else arr in
  let '(arr, i, j) := partition_loop (Z.to_nat (right - left)) arr t left right in
  if defaultCompare (get arr left) t =? 0
  then (swap arr left j, j)
  else (swap arr (j + 1) right, j + 1).

(** Modelled from the spec: the selection loop [while (right > left)];
    [None] when the fuel runs out. *)
Fixpoint quickselectStep (fuel : nat) (arr : list float) (k left right : Z)
  : option (list float) :=
  if left <? right then
    match fuel with
    | O => None
    | S fuel =>
        let '(arr, j) := partition arr k left right in
        let left' := if j <=? k then j + 1 else left in
        let right' := if k <=? j then j - 1 else right in
        quickselectStep fuel arr k left' right'
    end
  else Some arr.

(** Modelled from the spec: the entry point
    [quickselect(arr, k, left = 0, right = arr.length - 1)]. *)
Definition quickselect (arr : list float) (k : Z) (left right : option Z)
  : option (list float) :=
  let left := default 0 left in
  let right := default (Z.of_nat (length arr) - 1) right in
  quickselectStep (Z.to_nat (right - left)) arr k left right.

Record ChannelStats := {
  mean : float;
  sd : float;
  q1 : option float;
  q3 : option float;
  median : option float;
  domain : float * float;
  contrastLimits : float * float
}.

(** The first [while (len--)] loop, from the last element to the first. *)
Definition range_step (x : float) (acc : float * float * float)
  : float * float * float :=
  let '(min, max, total) := acc in
  let min := if (x <? min)%float then x else min in
  let max := if (max <? x)%float then x else max in
  (min, max, (total + x)%float).

Definition range_pass (arr : list float) : float * float * float :=
  foldr range_step (infinity, neg_infinity, 0%float) arr.

(** The second [while (len--)] loop; [x ** 2] is taken as the product
    [x * x]. *)
Definition sumSquared_pass (mean : float) (arr : list float) : float :=
  foldr (fun x acc => let d := (x - mean)%float in (acc + d * d)%float)
        0%float arr.

(** [getChannelStats(arr)] on a buffer of doubles: the statistics returned
    and the contents of [arr] when the call returns; [None] if a selection
    runs out of fuel. *)
Definition getChannelStats (arr : list float)
  : option (ChannelStats * list float) :=
  let n := Z.of_nat (length arr) in
  let '(min, max, total) := range_pass arr in
  let mean := (total / of_Z n)%float in
  let sumSquared := sumSquared_pass mean arr in
  let sd := PrimFloat.sqrt (sumSquared / of_Z n)%float in
  let mid := n / 2 in
  let firstQuartileLocation := n / 4 in
  let thirdQuartileLocation := 3 * (n / 4) in
  arr ← quickselect arr mid None None;
  let median := get arr mid in
  arr ← quickselect arr firstQuartileLocation (Some 0) (Some mid);
  let q1 := get arr firstQuartileLocation in
  arr ← quickselect arr thirdQuartileLocation (Some mid) (Some (n - 1));
  let q3 := get arr thirdQuartileLocation in
  let cutoffArr := filter (fun i => Is_true (0 <? i)%float) arr in
  let m := Z.of_nat (length cutoffArr) in
  let topCutoffLocation := Loaders.topCutoffLocation m in
  let bottomCutoffLocation := Loaders.bottomCutoffLocation m in
  cutoffArr ← quickselect cutoffArr topCutoffLocation None None;
  cutoffArr ← quickselect cutoffArr bottomCutoffLocation (Some 0)
                          (Some topCutoffLocation);
  let contrastLimits :=
    (or0 (get cutoffArr bottomCutoffLocation),
     or0 (get cutoffArr topCutoffLocation)) in
  Some ({| mean := mean; sd := sd; q1 := q1; q3 := q3; median := median;
           domain := (min, max); contrastLimits := contrastLimits |}, arr).

End Float64.

(** ** [avivator/src/utils.js] *)

Module Avivator.
Import JS.

(** [isInterleaved(shape)] *)
Definition isInterleaved (shape : list Z) : bool :=
  let lastDimSize := get shape (Z.of_nat (length shape) - 1) in
  bool_decide (lastDimSize = Some 3) || bool_decide (lastDimSize = Some 4).

(** A pixel source as the functions below use it.  [getRaster]
    takes the selection and resolves to the raster's [data], or rejects
    ([None]). *)
Record PixelSource := {
  shape : list Z;
  labels : list string;
  getRaster : gmap string Z -> option (list Z)
}.

Inductive exn := TypeError | Rejected.

(** The outcome of a call: a value, an exception, or a run that the fuel of
    a loop does not cover. *)
Inductive outcome (A : Type) :=
  | Returns (a : A)
  | Throws (e : exn)
  | OutOfFuel.
Arguments Returns {A} a.
Arguments Throws {A} e.
Arguments OutOfFuel {A}.

#[export] Instance outcome_bind : MBind outcome := fun A B f m =>
  match m with
  | Returns a => f a
  | Throws e => Throws e
  | OutOfFuel => OutOfFuel
  end.

(** What reading a property of an object yields; an element of an array
    is a number or NaN ([None]). *)
Inductive value :=
  | Undefined
  | Number (x : num)
  | Double (f : float)
  | Array (l : list (option num)).

(** [v[i]]: reading an index of [undefined] throws a TypeError; a number
    has no indexed properties.  The element read is [None] when it is
    [undefined] or NaN, which [Math.min] and [Math.max] do not tell apart. *)
Definition index (v : value) (i : nat) : outcome (option num) :=
  match v with
  | Undefined => Throws TypeError
  | Array l => Returns (l !! i ≫= id)
  | Number _ | Double _ => Returns None
  end.

Definition num_min (a b : num) : num := if num_ltb b a then b else a.
Definition num_max (a b : num) : num := if num_ltb a b then b else a.

(** [Math.min(a, b, c)] and [Math.max(a, b, c)]; an [undefined] argument
    makes the result NaN ([None]). *)
Definition Math_min (a b c : option num) : option num :=
  match a, b, c with
  | Some x, Some y, Some z => Some (num_min (num_min x y) z)
  | _, _, _ => None
  end.

Definition Math_max (a b c : option num) : option num :=
  match a, b, c with
  | Some x, Some y, Some z => Some (num_max (num_max x y) z)
  | _, _, _ => None
  end.

(** [labels.indexOf(x)] *)
Definition indexOf (l : list string) (x : string) : Z :=
  match list_find (fun y => y = x) l with
  | Some (i, _) => Z.of_nat i
  | None => -1
  end.

(** [a >> b] on 32-bit integers; [undefined] converts to 0. *)
Definition ToInt32 (x : option Z) : Z :=
  (default 0 x + 2 ^ 31) mod 2 ^ 32 - 2 ^ 31.

Definition shr (a : option Z) (b : Z) : Z :=
  Z.shiftr (ToInt32 a) (b mod 32).

Record SelectionStats := {
  domain : option num * option num;
  slider : option num * option num
}.

Definition await (r : option (list Z)) : outcome (list Z) :=
  match r with
  | Some data => Returns data
  | None => Throws Rejected
  end.

Section imported.

(** Modelled from the spec: [utils.js] imports [getChannelStats] from the
    build under [dist/], which is not among the sources.  The specification
    (4.5) has it compute the statistics of a buffer of samples, and its two
    callers below read the properties [domain] and [autoSliders] of the
    object it returns.  It is a variable here: a function from the data of a
    raster to the object returned, given by what reading each of its
    properties yields, or to the exception thrown. *)
Variable getChannelStats : list Z -> outcome (string -> value).

(** [getSingleSelectionStats3D({ loader, selection })] *)
Definition getSingleSelectionStats3D (loader : list PixelSource)
    (selection : gmap string Z) : outcome SelectionStats :=
  match last loader with
  | None => Throws TypeError
  | Some lowResSource =>
      let shape := shape lowResSource in
      let labels := labels lowResSource in
      let sizeZ :=
        shr (get shape (indexOf labels "z")) (Z.of_nat (length loader) - 1) in
      raster0 ← await (getRaster lowResSource (<["z" := 0]> selection));
      rasterMid ← await (getRaster lowResSource (<["z" := sizeZ / 2]> selection));
      rasterTop ← await (getRaster lowResSource (<["z" := sizeZ - 1]> selection));
      stats0 ← getChannelStats raster0;
      statsMid ← getChannelStats rasterMid;
      statsTop ← getChannelStats rasterTop;
      d0 ← index (stats0 "domain") 0;
      dMid ← index (statsMid "domain") 0;
      dTop ← index (statsTop "domain") 0;
      let domainMin := Math_min d0 dMid dTop in
      d0 ← index (stats0 "domain") 1;
      dMid ← index (statsMid "domain") 1;
      dTop ← index (statsTop "domain") 1;
      let domainMax := Math_max d0 dMid dTop in
      s0 ← index (stats0 "autoSliders") 0;
      sMid ← index (statsMid "autoSliders") 0;
      sTop ← index (statsTop "autoSliders") 0;
      let sliderMin := Math_min s0 sMid sTop in
      s0 ← index (stats0 "autoSliders") 1;
      sMid ← index (statsMid "autoSliders") 1;
      sTop ← index (statsTop "autoSliders") 1;
      let sliderMax := Math_max s0 sMid sTop in
      Returns {| domain := (domainMin, domainMax);
                 slider := (sliderMin, sliderMax) |}
  end.

(** [getSingleSelectionStats({ loader, selection })]: [loader] is an array
    of pixel sources ([inl]) or a single one ([inr]).  The object returned
    is given by its properties in order. *)
Definition getSingleSelectionStats (loader : list PixelSource + PixelSource)
    (selection : gmap string Z) : outcome (list (string * value)) :=
  let data :=
    match loader with
    | inl sources => last sources
    | inr source => Some source
    end in
  match data with
  | None => Throws TypeError
  | Some data =>
      raster ← await (getRaster data selection);
      selectionStats ← getChannelStats raster;
      let domain := selectionStats "domain" in
      let slider := selectionStats "autoSliders" in
      Returns [("domain", domain); ("slider", slider)]
  end.

End imported.

Import Stdlib.Strings.Ascii.

(** [s.split(sep)] for a separator of one character: the pieces between
    the occurrences of [sep], of which there is always at least one. *)
Fixpoint split (sep : Ascii.ascii) (s : string) : list string :=
  match s with
  | EmptyString => [EmptyString]
  | String c s' =>
      if Ascii.eqb c sep then EmptyString :: split sep s'
      else match split sep s' with
           | piece :: pieces => String c piece :: pieces
           | [] => [String c EmptyString]
           end
  end.

(** [getNameFromUrl(url)], that is
    [url.split('?')[0].split('/').slice(-1)[0]]; the value is [None] when it
    is [undefined]. *)
Definition getNameFromUrl (url : string) : outcome (option string) :=
  match split "?"%char url !! 0%nat with
  | None => Throws TypeError
  | Some path =>
      let pieces := split "/"%char path in
      Returns (drop (length pieces - 1) pieces !! 0%nat)
  end.

(** [getDefaultGlobalSelection({ labels, shape })].  The constant
    [GLOBAL_SLIDER_DIMENSION_FIELDS] is imported from another file and is an
    argument here. *)
Definition getDefaultGlobalSelection
    (GLOBAL_SLIDER_DIMENSION_FIELDS : list string)
    (pixelSource : PixelSource) : gmap string Z :=
  let dims :=
    filter (fun d => d.1 ∈ GLOBAL_SLIDER_DIMENSION_FIELDS)
           (imap (fun i name => (name, i)) (labels pixelSource)) in
  foldl (fun selection d =>
           <[d.1 := (or0 (shape pixelSource !! d.2) / 2)]> selection)
        ∅ dims.

(** [buildDefaultSelection(pixelSource)]: reading [size] on the result of a
    [find] that found nothing throws a TypeError. *)
Definition buildDefaultSelection
    (GLOBAL_SLIDER_DIMENSION_FIELDS : list string)
    (pixelSource : PixelSource) : outcome (list (gmap string Z)) :=
  let globalSelection :=
    getDefaultGlobalSelection GLOBAL_SLIDER_DIMENSION_FIELDS pixelSource in
  let firstNonGlobalDimension :=
    list_find (fun d => (d.1 ∉ GLOBAL_SLIDER_DIMENSION_FIELDS) /\ or0 d.2 ≠ 0)
              (imap (fun i name => (name, shape pixelSource !! i))
                    (labels pixelSource)) in
  match firstNonGlobalDimension with
  | None => Throws TypeError
  | Some (_, (name, size)) =>
      let selection :=
        (fun i => globalSelection ∪ {[ name := i ]})
          <$> seqZ 0 (Z.min 4 (or0 size)) in
      Returns (if isInterleaved (shape pixelSource)
               then [<["c" := 0]> (default ∅ (selection !! 0%nat))]
               else selection)
  end.

(** The value of a character matched by [[a-f\d]] under the flag [i]. *)
Definition hexDigit (c : Ascii.ascii) : option Z :=
  let code := Z.of_nat (Ascii.nat_of_ascii c) in
  if (48 <=? code) && (code <=? 57) then Some (code - 48)
  else if (97 <=? code) && (code <=? 102) then Some (code - 87)
  else if (65 <=? code) && (code <=? 70) then Some (code - 55)
  else None.

(** [parseInt(d, 16)] on a group of two characters matched by
    [[a-f\d]{2}]. *)
Definition parseInt16 (hi lo : Ascii.ascii) : option Z :=
  h ← hexDigit hi; l ← hexDigit lo; Some (16 * h + l).

(** [hexToRgb(hex)]: the expression
    [/^#?([a-f\d]{2})([a-f\d]{2})([a-f\d]{2})$/i] matches an optional [#]
    followed by exactly six hexadecimal digits; when it does not match,
    [exec] gives [null] and [result.map] throws a TypeError. *)
Definition hexToRgb (hex : string) : outcome (list Z) :=
  let digits :=
    match hex with
    | String "#"%char rest => rest
    | _ => hex
    end in
  match String.list_ascii_of_string digits with
  | [r1; r2; g1; g2; b1; b2] =>
      match parseInt16 r1 r2, parseInt16 g1 g2, parseInt16 b1 b2 with
      | Some r, Some g, Some b => Returns [r; g; b]
      | _, _, _ => Throws TypeError
      end
  | _ => Throws TypeError
  end.

(** [s.includes(t)] *)
Fixpoint includes (s t : string) : bool :=
  String.prefix t s ||
  match s with
  | EmptyString => false
  | String _ s' => includes s' t
  end.

(** The argument of [isOMETIFF]: an array of files, a URL, or a file with
    its name. *)
Inductive UrlOrFile :=
  | Files (names : list string)
  | Url (url : string)
  | File (name : string).

(** [isOMETIFF(urlOrFile)] *)
Definition isOMETIFF (urlOrFile : UrlOrFile) : bool :=
  match urlOrFile with
  | Files _ => false
  | Url name | File name => includes name "ome.tiff" || includes name "ome.tif"
  end.

(** An element of a JS array: a hole, or a value, which is [None] when it
    is [undefined]. *)
Inductive slot (A : Type) :=
  | Hole
  | Item (v : option A).
Arguments Hole {A}.
Arguments Item {A} v.

(** [[...arr]]: the iterator of an array yields [undefined] at a hole. *)
Definition spread {A} (arr : list (slot A)) : list (slot A) :=
  (fun s => match s with
            | Hole => Item None
            | Item v => Item v
            end) <$> arr.

(** [arr[index]] *)
Definition at_index {A} (arr : list (slot A)) (index : nat) : option A :=
  match arr !! index with
  | Some (Item v) => v
  | _ => None
  end.

(** [arr[index] = v]: an index past the end extends the array and leaves
    holes in between. *)
Definition assign {A} (arr : list (slot A)) (index : nat) (v : option A)
  : list (slot A) :=
  if decide (index < length arr)%nat then <[index := Item v]> arr
  else arr ++ replicate (index - length arr) Hole ++ [Item v].

(** [arr.filter((_, i) => i !== index)]: [filter] does not visit a hole,
    and its result has none. *)
Definition filter_index {A} (arr : list (slot A)) (index : nat)
  : list (slot A) :=
  omap (fun d => match d.2 with
                 | Hole => None
                 | Item v =>
                     if decide (d.1 = index) then None else Some (Item v)
                 end)
       (imap (fun i s => (i, s)) arr).

(** [!x] on a boolean that may be [undefined]. *)
Definition not_ (x : option bool) : bool :=
  match x with
  | Some b => negb b
  | None => true
  end.

Section channels.
Context {Selection Domain Slider : Type}.

(** The constant [COLOR_PALLETE] is imported from another file and is a
    variable here, as is the string that the call number [k] of
    [String(Math.random())] yields. *)
Variable COLOR_PALLETE : list (list Z).
Variable Math_random : nat -> string.

(** The state of the channels: six arrays, one entry for each channel. *)
Record State := {
  selections : list (slot Selection);
  domains : list (slot Domain);
  colors : list (slot (list Z));
  isOn : list (slot bool);
  sliders : list (slot Slider);
  ids : list (slot string)
}.

(** An action [{ index, value, type }], with the parts of [index] and
    [value] that the case for its [type] reads; [index] is an array index.
    [Other] is a [type] that no case names. *)
Inductive action :=
  | CHANGE_CHANNEL (index : nat) (selection : option Selection)
      (domain : option Domain) (slider : option Slider)
  | CHANGE_COLOR (index : nat) (value : option (list Z))
  | CHANGE_SLIDER (index : nat) (value : option Slider)
  | CHANGE_DOMAIN (index : nat) (value : option Domain)
  | TOGGLE_ON (index : nat)
  | ADD_CHANNEL (selection : option Selection) (domain : option Domain)
      (slider : option Slider)
  | REMOVE_CHANNEL (index : nat)
  | RESET_CHANNELS (selections : list (slot Selection))
      (sliders : list (slot Slider)) (domains : list (slot Domain))
      (colors : option (list (slot (list Z))))
      (isOn : option (list (slot bool)))
  | Other.

(** [channelsReducer(state, { index, value, type })]; [inl] is the error
    thrown for a [type] that no case names. *)
Definition channelsReducer (state : State) (a : action)
  : Loaders.Error + State :=
  match a with
  | CHANGE_CHANNEL index selection domain slider =>
      let selections := assign (spread (selections state)) index selection in
      let domains := assign (spread (domains state)) index domain in
      let sliders := assign (spread (sliders state)) index slider in
      inr {| selections := selections; domains := domains;
             colors := colors state; isOn := isOn state;
             sliders := sliders; ids := ids state |}
  | CHANGE_COLOR index value =>
      let colors := assign (spread (colors state)) index value in
      inr {| selections := selections state; domains := domains state;
             colors := colors; isOn := isOn state;
             sliders := sliders state; ids := ids state |}
  | CHANGE_SLIDER index value =>
      let sliders := assign (spread (sliders state)) index value in
      inr {| selections := selections state; domains := domains state;
             colors := colors state; isOn := isOn state;
             sliders := sliders; ids := ids state |}
  | CHANGE_DOMAIN index value =>
      let domains := assign (spread (domains state)) index value in
      inr {| selections := selections state; domains := domains;
             colors := colors state; isOn := isOn state;
             sliders := sliders state; ids := ids state |}
  | TOGGLE_ON index =>
      let isOn := spread (isOn state) in
      let isOn := assign isOn index (Some (not_ (at_index isOn index))) in
      inr {| selections := selections state; domains := domains state;
             colors := colors state; isOn := isOn;
             sliders := sliders state; ids := ids state |}
  | ADD_CHANNEL selection domain slider =>
      let selections := spread (selections state) ++ [Item selection] in
      let colors := spread (colors state) ++ [Item (Some [255; 255; 255])] in
      let isOn := spread (isOn state) ++ [Item (Some true)] in
      let sliders := spread (sliders state) ++ [Item slider] in
      let ids := spread (ids state) ++ [Item (Some (Math_random 0%nat))] in
      let domains := spread (domains state) ++ [Item domain] in
      inr {| selections := selections; domains := domains; colors := colors;
             isOn := isOn; sliders := sliders; ids := ids |}
  | REMOVE_CHANNEL index =>
      let sliders := filter_index (sliders state) index in
      let colors := filter_index (colors state) index in
      let isOn := filter_index (isOn state) index in
      let ids := filter_index (ids state) index in
      let selections := filter_index (selections state) index in
      let domains := filter_index (domains state) index in
      inr {| selections := selections; domains := domains; colors := colors;
             isOn := isOn; sliders := sliders; ids := ids |}
  | RESET_CHANNELS selections sliders domains colors isOn =>
      let n := length selections in
      inr {| selections := selections;
             sliders := sliders;
             domains := domains;
             colors :=
               match colors with
               | Some colors => colors
               | None =>
                   imap (fun i sel =>
                           match sel with
                           | Hole => Hole
                           | Item _ => Item (COLOR_PALLETE !! i)
                           end) selections
               end;
             isOn :=
               match isOn with
               | Some isOn => isOn
               | None => replicate n (Item (Some true))
               end;
             ids := (fun k => Item (Some (Math_random k))) <$> seq 0 n |}
  | Other => inl (Loaders.MkError "")
  end.

End channels.
Arguments State : clear implicits.
Arguments action : clear implicits.

End Avivator.

(** * Specification vocabulary *)

Import JS Quickselect Loaders.

(** [arr'] is [arr] with the elements at the indices [lo..hi] rearranged
    among themselves. *)
Definition permuted_within (lo hi : Z) (arr arr' : list Z) : Prop :=
  length arr' = length arr /\
  arr' ≡ₚ arr /\
  (forall p, ~ (lo <= p <= hi) -> get arr' p = get arr p) /\
  (forall p v, lo <= p <= hi -> get arr' p = Some v ->
     exists p', lo <= p' <= hi /\ get arr p' = Some v).

(** The state of the partition at the test of [while (i < j)]: the elements
    left of [i] are no larger than the pivot, those right of [j] no smaller,
    and the elements at [i] and [j] are on the wrong sides. *)
Definition loop_head (left right tv : Z) (arr : list Z) (i j : Z) : Prop :=
  left <= i /\ j <= right /\ left <= j /\ i <= right /\
  (forall p v, left <= p < i -> get arr p = Some v -> v <= tv) /\
  (forall p v, j < p <= right -> get arr p = Some v -> tv <= v) /\
  (forall v, get arr i = Some v -> tv <= v) /\
  (forall v, get arr j = Some v -> v <= tv).

(** The pivot [tv] sits at [j] and splits the window [left..right]. *)
Definition partitioned (left right : Z) (arr : list Z) (j tv : Z) : Prop :=
  left <= j <= right /\
  get arr j = Some tv /\
  (forall p v, left <= p < j -> get arr p = Some v -> v <= tv) /\
  (forall p v, j < p <= right -> get arr p = Some v -> tv <= v).

(** [M] is at the right end of the window and bounds the window. *)
Definition max_at_right (left right : Z) (arr : list Z) (M : Z) : Prop :=
  get arr right = Some M /\
  forall p v, left <= p <= right -> get arr p = Some v -> v <= M.

(** The element at [k] is no smaller than those of the window left of it and
    no larger than those right of it. *)
Definition selected (left right : Z) (arr : list Z) (k : Z) : Prop :=
  exists x, get arr k = Some x /\
    (forall p v, left <= p <= k -> get arr p = Some v -> v <= x) /\
    (forall p v, k <= p <= right -> get arr p = Some v -> x <= v).

(** The strictly positive samples, in the order of the buffer. *)
Definition positives (arr : list Z) : list Z := filter (fun i => 0 < i) arr.

(** The order of the JS numbers that are integers or infinities. *)
Definition num_le (a b : num) : Prop :=
  match a, b with
  | NegInf, _ => True
  | _, PosInf => True
  | Fin x, Fin y => x <= y
  | _, _ => False
  end.

(** [x] is the least, or the greatest, of the numbers [l]. *)
Definition least (x : num) (l : list num) : Prop :=
  (x ∈ l) /\ Forall (num_le x) l.

Definition greatest (x : num) (l : list num) : Prop :=
  (x ∈ l) /\ Forall (fun y => num_le y x) l.

(** The rank, among the [n] sorted samples, of the sample that
    [getChannelStats] returns as [q3]: [3 * floor(n / 4)], except for two and
    three samples, where that index lies left of the range of the third
    selection. *)
Definition thirdQuartileRank (n : Z) : Z :=
  if n =? 2 then 0 else if n =? 3 then 1 else 3 * (n / 4).

(** The hexadecimal digit of value [d], in upper or in lower case. *)
Definition hexChar (upper : bool) (d : Z) : Ascii.ascii :=
  Ascii.ascii_of_nat
    (Z.to_nat (if d <? 10 then 48 + d else if upper then 55 + d else 87 + d)).

(** The two hexadecimal digits of a colour component. *)
Definition toHex (upper : bool) (n : Z) : string :=
  String (hexChar upper (n / 16))
         (String (hexChar upper (n mod 16)) EmptyString).

(** An array of [n] entries, none of them a hole. *)
Definition full {A} (n : nat) (arr : list (Avivator.slot A)) : Prop :=
  length arr = n /\ Avivator.Hole ∉ arr.

(** A state of [n] channels: each of its six arrays has [n] entries and no
    hole. *)
Definition has_channels {Selection Domain Slider} (n : nat)
    (state : Avivator.State Selection Domain Slider) : Prop :=
  full n (Avivator.selections state) /\ full n (Avivator.domains state) /\
  full n (Avivator.colors state) /\ full n (Avivator.isOn state) /\
  full n (Avivator.sliders state) /\ full n (Avivator.ids state).

(** What the six arrays of a state hold for one channel. *)
Record Channel (Selection Domain Slider : Type) := {
  channel_selection : option Selection;
  channel_domain : option Domain;
  channel_color : option (list Z);
  channel_isOn : option bool;
  channel_slider : option Slider;
  channel_id : option string
}.
Arguments channel_selection {Selection Domain Slider} c.
Arguments channel_domain {Selection Domain Slider} c.
Arguments channel_color {Selection Domain Slider} c.
Arguments channel_isOn {Selection Domain Slider} c.
Arguments channel_slider {Selection Domain Slider} c.
Arguments channel_id {Selection Domain Slider} c.

(** The channel at position [j] of a state. *)
Definition channel {Selection Domain Slider}
    (state : Avivator.State Selection Domain Slider) (j : nat)
  : Channel Selection Domain Slider :=
  {| channel_selection := Avivator.at_index (Avivator.selections state) j;
     channel_domain := Avivator.at_index (Avivator.domains state) j;
     channel_color := Avivator.at_index (Avivator.colors state) j;
     channel_isOn := Avivator.at_index (Avivator.isOn state) j;
     channel_slider := Avivator.at_index (Avivator.sliders state) j;
     channel_id := Avivator.at_index (Avivator.ids state) j |}.

(** The index of an action that changes one channel in place. *)
Definition action_index {Selection Domain Slider}
    (a : Avivator.action Selection Domain Slider) : option nat :=
  match a with
  | Avivator.CHANGE_CHANNEL index _ _ _
  | Avivator.CHANGE_COLOR index _
  | Avivator.CHANGE_SLIDER index _
  | Avivator.CHANGE_DOMAIN index _
  | Avivator.TOGGLE_ON index => Some index
  | _ => None
  end.

(** What such an action does to the channel it names. *)
Definition update_channel {Selection Domain Slider}
    (a : Avivator.action Selection Domain Slider)
    (c : Channel Selection Domain Slider) : Channel Selection Domain Slider :=
  match a with
  | Avivator.CHANGE_CHANNEL _ selection domain slider =>
      {| channel_selection := selection; channel_domain := domain;
         channel_color := channel_color c; channel_isOn := channel_isOn c;
         channel_slider := slider; channel_id := channel_id c |}
  | Avivator.CHANGE_COLOR _ value =>
      {| channel_selection := channel_selection c;
         channel_domain := channel_domain c;
         channel_color := value; channel_isOn := channel_isOn c;
         channel_slider := channel_slider c; channel_id := channel_id c |}
  | Avivator.CHANGE_SLIDER _ value =>
      {| channel_selection := channel_selection c;
         channel_domain := channel_domain c;
         channel_color := channel_color c; channel_isOn := channel_isOn c;
         channel_slider := value; channel_id := channel_id c |}
  | Avivator.CHANGE_DOMAIN _ value =>
      {| channel_selection := channel_selection c;
         channel_domain := value;
         channel_color := channel_color c; channel_isOn := channel_isOn c;
         channel_slider := channel_slider c; channel_id := channel_id c |}
  | Avivator.TOGGLE_ON _ =>
      {| channel_selection := channel_selection c;
         channel_domain := channel_domain c;
         channel_color := channel_color c;
         channel_isOn := Some (Avivator.not_ (channel_isOn c));
         channel_slider := channel_slider c; channel_id := channel_id c |}
  | _ => c
  end.

(** An integer that orders the doubles other than NaN as [<] does: the two
    zeros have the key 0, and a finite double [(-1)^s * m * 2^e], whose
    mantissa [m] is below [2 ^ 53], has the key [(e + 1075) * 2 ^ 53 + m]
    with the sign of the double. *)
Definition key (x : float) : Z :=
  match Prim2SF x with
  | S754_zero _ | S754_nan => 0
  | S754_infinity s => if s then - 2 ^ 64 else 2 ^ 64
  | S754_finite s m e =>
      let v := (e + 1075) * 2 ^ 53 + Z.pos m in
      if s then - v else v
  end.

(** No sample of the buffer is NaN. *)
Definition no_NaN (arr : list float) : Prop :=
  Forall (fun x => is_nan x = false) arr.

(** [x] is a sample of the buffer and no sample is below it; and the same
    for above. *)
Definition least_sample (x : float) (arr : list float) : Prop :=
  (x ∈ arr) /\ Forall (fun y => (y <? x)%float = false) arr.

Definition greatest_sample (x : float) (arr : list float) : Prop :=
  (x ∈ arr) /\ Forall (fun y => (x <? y)%float = false) arr.

(** The raster of the plane [z] of a source is fetched, and the statistics
    of its data hold the pairs of numbers [d] and [s], none of them NaN, as
    [domain] and [autoSliders]. *)
Definition plane_stats
    (getChannelStats : list Z -> Avivator.outcome (string -> Avivator.value))
    (source : Avivator.PixelSource) (selection : gmap string Z) (z : Z)
    (d s : num * num) : Prop :=
  exists raster stats,
    Avivator.getRaster source (<["z" := z]> selection) = Some raster /\
    getChannelStats raster = Avivator.Returns stats /\
    stats "domain" = Avivator.Array [Some d.1; Some d.2] /\
    stats "autoSliders" = Avivator.Array [Some s.1; Some s.2].

(** The entries handed to [new Map] by [getDims]. *)
Local Abbreviation entries_of labels :=
  (imap (fun (i : nat) (name : string) => (name, Z.of_nat i)) labels).

(** * Properties *)

(** ** [isInterleaved] *)

Lemma get_last (shape : list Z) :
  get shape (Z.of_nat (length shape) - 1) = last shape.
Proof.
  unfold get. destruct shape as [|x shape _] using rev_ind; [done|].
  rewrite length_app, last_snoc. simpl.
  case_match eqn:Hle; [|apply Z.leb_gt in Hle; lia].
  replace (Z.to_nat _) with (length shape) by lia.
  by rewrite lookup_app_r, Nat.sub_diag by lia.
Qed.

(** C8: [isInterleaved(shape)] is true exactly when the last element of the
    shape is 3 or 4, in both copies of the function; [1,24,24] is not
    interleaved, [1,24,24,3] and [1,24,24,4] are. *)
Theorem isInterleaved_iff_last (shape : list Z) :
  (Loaders.isInterleaved shape = true <->
     last shape = Some 3 \/ last shape = Some 4) /\
  Avivator.isInterleaved shape = Loaders.isInterleaved shape /\
  Loaders.isInterleaved [1; 24; 24] = false /\
  Loaders.isInterleaved [1; 24; 24; 3] = true /\
  Loaders.isInterleaved [1; 24; 24; 4] = true.
Proof.
  split; [|done].
  unfold Loaders.isInterleaved. rewrite get_last, orb_true_iff.
  by rewrite !bool_decide_eq_true.
Qed.

(** ** [prevPowerOf2] and [guessTiffTileSize] *)

Lemma prevPowerOf2_spec (x : Z) :
  0 < x < 2 ^ 32 ->
  exists e, 0 <= e /\ prevPowerOf2 x = Some (Some (2 ^ e)) /\
            2 ^ e <= x < 2 ^ (e + 1).
Proof.
  intros Hx. exists (Z.log2 x). unfold prevPowerOf2.
  destruct (Z.ltb_spec x 0); [lia|]. destruct (Z.eqb_spec x 0); [lia|].
  destruct (Z.ltb_spec x (2 ^ 32)); [|lia].
  split; [apply Z.log2_nonneg|]. split; [done|].
  replace (Z.log2 x + 1) with (Z.succ (Z.log2 x)) by lia.
  apply Z.log2_spec. lia.
Qed.

(** C7: for positive tile width and height, the smaller of which is below
    [2 ^ 32] as the value of a TIFF tag is, the derived tile size is a power
    of two that does not exceed the smaller of the two, and no power of two
    between it and that minimum exists; [prevPowerOf2(300)] and
    [prevPowerOf2(256)] are 256. *)
Theorem guessTiffTileSize_largest_power_of_two :
  (forall image : GeoTIFFImage,
     0 < getTileWidth image -> 0 < getTileHeight image ->
     Z.min (getTileWidth image) (getTileHeight image) < 2 ^ 32 ->
     exists e, 0 <= e /\
       guessTiffTileSize image = Some (Some (2 ^ e)) /\
       2 ^ e <= Z.min (getTileWidth image) (getTileHeight image) /\
       forall e', 0 <= e' ->
         2 ^ e' <= Z.min (getTileWidth image) (getTileHeight image) ->
         2 ^ e' <= 2 ^ e) /\
  prevPowerOf2 300 = Some (Some 256) /\
  prevPowerOf2 256 = Some (Some 256).
Proof.
  split; [|done].
  intros image Hw Hh Hmin. unfold guessTiffTileSize.
  destruct (prevPowerOf2_spec (Z.min (getTileWidth image) (getTileHeight image)))
    as (e & He & Heq & Hlo & Hhi); [lia|].
  exists e. split; [done|]. split; [done|]. split; [done|].
  intros e' He' Hle. apply Z.pow_le_mono_r; [lia|].
  assert (2 ^ e' < 2 ^ (e + 1)) as Hlt by lia.
  apply Z.pow_lt_mono_r_iff in Hlt; lia.
Qed.

Lemma guessTiffTileSize_largest_power_of_two_witness :
  exists e, 0 <= e /\
    guessTiffTileSize {| getTileWidth := 300; getTileHeight := 512 |}
      = Some (Some (2 ^ e)) /\
    2 ^ e <= 300.
Proof.
  destruct guessTiffTileSize_largest_power_of_two as [H _].
  destruct (H {| getTileWidth := 300; getTileHeight := 512 |})
    as (e & He & Heq & Hle & _); [simpl; lia | simpl; lia | simpl; lia |].
  exists e. repeat split; [exact He | exact Heq | exact Hle].
Defined.

(** ** [getDims] *)

Lemma new_Map_list_to_map (entries : list (string * Z)) :
  new_Map entries = list_to_map (reverse entries).
Proof.
  unfold new_Map.
  enough (forall m : gmap string Z,
            foldl (fun m e => <[e.1 := e.2]> m) m entries
            = list_to_map (reverse entries) ∪ m) as H.
  { rewrite H. by rewrite (right_id_L ∅ (∪)). }
  induction entries as [|[k v] entries IH]; intros m; simpl.
  - by rewrite (left_id_L ∅ (∪)).
  - rewrite IH, reverse_cons, list_to_map_app. simpl.
    rewrite <-(assoc_L (∪)). f_equal.
    by rewrite insert_empty, <-insert_union_singleton_l.
Qed.

Lemma size_list_to_map_le (l : list (string * Z)) :
  (size (list_to_map l : gmap string Z) <= length l)%nat.
Proof.
  induction l as [|[k v] l IH]; simpl; [by rewrite map_size_empty|].
  destruct ((list_to_map l : gmap string Z) !! k) as [w|] eqn:Hk.
  - rewrite map_size_insert_Some by eauto. lia.
  - rewrite map_size_insert_None by done. lia.
Qed.

Lemma size_list_to_map_NoDup (l : list (string * Z)) :
  size (list_to_map l : gmap string Z) = length l <-> NoDup l.*1.
Proof.
  induction l as [|[k v] l IH]; simpl.
  - rewrite map_size_empty. split; [constructor|done].
  - rewrite NoDup_cons. pose proof (size_list_to_map_le l) as Hle.
    destruct ((list_to_map l : gmap string Z) !! k) as [w|] eqn:Hk.
    + rewrite map_size_insert_Some by eauto.
      split; [lia|]. intros [Hnin _].
      apply not_elem_of_list_to_map in Hnin. congruence.
    + rewrite map_size_insert_None by done.
      apply not_elem_of_list_to_map in Hk.
      split; [intros; split; [done|apply IH; lia]|].
      intros [_ Hnd]. apply IH in Hnd. lia.
Qed.

Lemma NoDup_reverse_iff {A} (l : list A) : NoDup (reverse l) <-> NoDup l.
Proof. by rewrite reverse_Permutation. Qed.

Lemma entries_of_keys (labels : list string) :
  (reverse (entries_of labels)).*1 = reverse labels.
Proof.
  rewrite fmap_reverse. f_equal.
  rewrite fmap_imap. unfold compose. simpl.
  induction labels as [|x l IH] using rev_ind; [done|].
  rewrite imap_app. simpl. by rewrite IH.
Qed.

Lemma getDims_unique_iff (labels : list string) :
  size (new_Map (entries_of labels)) = length labels <-> NoDup labels.
Proof.
  rewrite new_Map_list_to_map.
  rewrite <-(NoDup_reverse_iff labels), <-entries_of_keys.
  rewrite <-size_list_to_map_NoDup.
  by rewrite length_reverse, length_imap.
Qed.

(** C6: [getDims] throws when a label repeats; on a list without repeats it
    returns a lookup that sends each label to its position in the list,
    whatever was looked up before, and throws on a name that is not in the
    list. *)
Theorem getDims_spec (labels : list string) :
  (~ NoDup labels ->
     getDims labels
     = inl (MkError "Labels must be unique, found duplicated label.")) /\
  (NoDup labels ->
     exists dims, getDims labels = inr dims /\
       (forall (i : nat) name,
          labels !! i = Some name -> dims name = inr (Z.of_nat i)) /\
       (forall name,
          name ∉ labels -> dims name = inl (MkError "Invalid dimension.")) /\
       (forall names : list string,
          Forall (fun name => name ∈ labels) names ->
          Forall2 (fun name r =>
                     exists i : nat,
                       r = inr (Z.of_nat i) /\ labels !! i = Some name)
                  names (dims <$> names))).
Proof.
  unfold getDims.
  pose proof (getDims_unique_iff labels) as Huniq.
  split.
  - intros Hdup. rewrite bool_decide_eq_true_2; [done|]. by rewrite Huniq.
  - intros Hnd. rewrite bool_decide_eq_false_2 by (rewrite Huniq; auto).
    eexists; split; [done|].
    assert (NoDup (reverse (entries_of labels)).*1) as Hnd'.
    { rewrite entries_of_keys. by apply NoDup_reverse_iff. }
    assert (forall (i : nat) name, labels !! i = Some name ->
              new_Map (entries_of labels) !! name = Some (Z.of_nat i)) as Hin.
    { intros i name Hi. rewrite new_Map_list_to_map.
      apply elem_of_list_to_map; [done|].
      rewrite elem_of_reverse.
      apply elem_of_lookup_imap. by exists i, name. }
    split; [|split].
    + intros i name Hi. by rewrite (Hin i name Hi).
    + intros name Hnin.
      assert (new_Map (entries_of labels) !! name = None) as ->; [|done].
      rewrite new_Map_list_to_map. apply not_elem_of_list_to_map.
      rewrite entries_of_keys. by rewrite elem_of_reverse.
    + intros names Hall. apply Forall2_fmap_r, Forall_Forall2_diag.
      eapply Forall_impl; [exact Hall|]. intros name Hname. simpl in *.
      apply list_elem_of_lookup in Hname as [i Hi].
      exists i. by rewrite (Hin i name Hi).
Qed.

Lemma getDims_spec_witness :
  getDims ["t"; "z"; "c"; "t"]
  = inl (MkError "Labels must be unique, found duplicated label.") /\
  exists dims, getDims ["a"; "b"; "c"; "d"] = inr dims /\
    dims "c" = inr 2 /\ dims "hi!" = inl (MkError "Invalid dimension.").
Proof.
  split.
  - apply (proj1 (getDims_spec ["t"; "z"; "c"; "t"])).
    intros Hnd. apply NoDup_cons in Hnd as [Hnin _].
    apply Hnin. do 2 right. left.
  - destruct (proj2 (getDims_spec ["a"; "b"; "c"; "d"]))
      as (dims & Heq & Hin & Hout & _).
    { apply (bool_decide_unpack _). vm_compute. exact I. }
    exists dims. split; [exact Heq|]. split.
    + apply (Hin 2%nat "c"). reflexivity.
    + apply Hout. apply (bool_decide_unpack _). vm_compute. exact I.
Defined.

(** ** Typed-array reads and writes *)

Lemma get_nat (arr : list Z) (n : nat) : get arr (Z.of_nat n) = arr !! n.
Proof.
  unfold get. rewrite Nat2Z.id.
  by destruct (Z.leb_spec 0 (Z.of_nat n)); [|lia].
Qed.

Lemma get_Some_bounds (arr : list Z) i v :
  get arr i = Some v -> 0 <= i < Z.of_nat (length arr).
Proof.
  unfold get. destruct (Z.leb_spec 0 i); [|done].
  intros Hv%lookup_lt_Some. lia.
Qed.

Lemma get_in_bounds (arr : list Z) i :
  0 <= i < Z.of_nat (length arr) -> exists v, get arr i = Some v.
Proof.
  intros Hi. unfold get. destruct (Z.leb_spec 0 i); [|lia].
  apply lookup_lt_is_Some. lia.
Qed.

Lemma get_out_of_bounds (arr : list Z) i :
  ~ (0 <= i < Z.of_nat (length arr)) -> get arr i = None.
Proof.
  intros Hi. destruct (get arr i) as [v|] eqn:Hv; [|done].
  by apply get_Some_bounds in Hv.
Qed.

Lemma length_set (arr : list Z) i v : length (set arr i v) = length arr.
Proof. unfold set. case_match; [apply length_insert|done]. Qed.

Lemma get_set_eq (arr : list Z) i v :
  0 <= i < Z.of_nat (length arr) -> get (set arr i (Some v)) i = Some v.
Proof.
  intros Hi. unfold get, set. destruct (Z.leb_spec 0 i); [|lia].
  apply list_lookup_insert_eq. lia.
Qed.

Lemma get_set_ne (arr : list Z) i j v :
  i <> j -> get (set arr i v) j = get arr j.
Proof.
  intros Hij. unfold get, set.
  destruct (Z.leb_spec 0 j); [|done].
  destruct (Z.leb_spec 0 i); [|done].
  apply list_lookup_insert_ne. lia.
Qed.

Lemma length_swap (arr : list Z) i j : length (swap arr i j) = length arr.
Proof. unfold swap. by rewrite !length_set. Qed.

(** Inside the bounds [swap] exchanges the two elements and leaves the
    others. *)
Lemma get_swap (arr : list Z) i j p :
  0 <= i < Z.of_nat (length arr) -> 0 <= j < Z.of_nat (length arr) ->
  get (swap arr i j) p =
    if decide (p = j) then get arr i
    else if decide (p = i) then get arr j
    else get arr p.
Proof.
  intros Hi Hj. unfold swap.
  destruct (get_in_bounds arr i Hi) as [vi Hvi].
  destruct (get_in_bounds arr j Hj) as [vj Hvj].
  rewrite Hvi, Hvj.
  destruct (decide (p = j)) as [->|Hpj].
  - apply get_set_eq. by rewrite length_set.
  - rewrite get_set_ne by done.
    destruct (decide (p = i)) as [->|Hpi].
    + by apply get_set_eq.
    + by rewrite get_set_ne.
Qed.

Lemma swap_Permutation (arr : list Z) i j :
  0 <= i < Z.of_nat (length arr) -> 0 <= j < Z.of_nat (length arr) ->
  swap arr i j ≡ₚ arr.
Proof.
  intros Hi Hj. apply Permutation_inj. split; [apply length_swap|].
  set (f := fun n : nat =>
              if decide (n = Z.to_nat j) then Z.to_nat i
              else if decide (n = Z.to_nat i) then Z.to_nat j else n).
  exists f. split.
  - intros n m. unfold f. repeat case_decide; lia.
  - intros n. rewrite <-!get_nat, get_swap by done. unfold f.
    repeat case_decide; try lia; f_equal; lia.
Qed.

(** ** Rearrangements within a window *)

Lemma permuted_within_refl lo hi arr : permuted_within lo hi arr arr.
Proof. repeat split; eauto. Qed.

Lemma permuted_within_trans lo hi arr1 arr2 arr3 :
  permuted_within lo hi arr1 arr2 -> permuted_within lo hi arr2 arr3 ->
  permuted_within lo hi arr1 arr3.
Proof.
  intros (Hl1 & Hp1 & Ho1 & Hw1) (Hl2 & Hp2 & Ho2 & Hw2).
  split; [congruence|]. split; [by rewrite Hp2|]. split.
  - intros p Hp. by rewrite Ho2, Ho1.
  - intros p v Hp Hv. destruct (Hw2 p v Hp Hv) as (p' & Hp' & Hv'). eauto.
Qed.

Lemma permuted_within_mono lo hi lo' hi' arr arr' :
  lo' <= lo -> hi <= hi' ->
  permuted_within lo hi arr arr' -> permuted_within lo' hi' arr arr'.
Proof.
  intros Hlo Hhi (Hl & Hp & Ho & Hw). repeat split; try done.
  - intros p Hp'. apply Ho. lia.
  - intros p v Hp' Hv. destruct (decide (lo <= p <= hi)) as [Hin|Hout].
    + destruct (Hw p v Hin Hv) as (p' & ? & ?). exists p'. split; [lia|done].
    + rewrite Ho in Hv by done. eauto.
Qed.

Lemma permuted_within_swap lo hi arr i j :
  0 <= lo -> hi < Z.of_nat (length arr) ->
  lo <= i <= hi -> lo <= j <= hi ->
  permuted_within lo hi arr (swap arr i j).
Proof.
  intros Hlo Hhi Hi Hj.
  split; [apply length_swap|]. split; [apply swap_Permutation; lia|]. split.
  - intros p Hp. rewrite get_swap by lia. repeat case_decide; try lia. done.
  - intros p v Hp. rewrite get_swap by lia. repeat case_decide; eauto.
Qed.

(** A bound on the elements of the window survives a rearrangement. *)
Lemma permuted_within_bound lo hi arr arr' (P : Z -> Prop) :
  permuted_within lo hi arr arr' ->
  (forall p v, lo <= p <= hi -> get arr p = Some v -> P v) ->
  forall p v, lo <= p <= hi -> get arr' p = Some v -> P v.
Proof.
  intros (_ & _ & _ & Hw) HP p v Hp Hv.
  destruct (Hw p v Hp Hv) as (p' & Hp' & Hv'). eauto.
Qed.

(** ** The comparisons of [defaultCompare] *)

Lemma compare_lt_iff (a : option Z) (tv : Z) :
  (defaultCompare a (Some tv) <? 0) = true <-> exists v, a = Some v /\ v < tv.
Proof.
  unfold defaultCompare, lt. destruct a as [v|]; simpl.
  - destruct (Z.ltb_spec v tv); [|destruct (Z.ltb_spec tv v)]; simpl;
      split; try done; try (intros (? & [= <-] & ?); lia); eauto.
  - split; [done|]. by intros (? & ? & ?).
Qed.

Lemma compare_gt_iff (a : option Z) (tv : Z) :
  (0 <? defaultCompare a (Some tv)) = true <-> exists v, a = Some v /\ tv < v.
Proof.
  unfold defaultCompare, lt. destruct a as [v|]; simpl.
  - destruct (Z.ltb_spec v tv); [|destruct (Z.ltb_spec tv v)]; simpl;
      split; try done; try (intros (? & [= <-] & ?); lia); eauto.
  - split; [done|]. by intros (? & ? & ?).
Qed.

Lemma compare_eq_iff (v tv : Z) :
  (defaultCompare (Some v) (Some tv) =? 0) = true <-> v = tv.
Proof.
  unfold defaultCompare, lt.
  destruct (Z.ltb_spec v tv); [|destruct (Z.ltb_spec tv v)]; simpl;
    split; try done; lia.
Qed.

Lemma compare_undefined (a : option Z) : defaultCompare a None = 0.
Proof. unfold defaultCompare, lt. by destruct a. Qed.

(** ** The two inner scans *)

(** With the array length as fuel each scan runs until its test fails. *)
Lemma scan_up_exits_fuel (n : nat) arr t i :
  (0 <= i -> Z.of_nat (length arr) - i <= Z.of_nat n) ->
  (defaultCompare (get arr (scan_up n arr t i)) t <? 0) = false.
Proof.
  revert i. induction n as [|n IH]; intros i Hn; simpl.
  - destruct t as [tv|]; [|by rewrite compare_undefined].
    apply not_true_is_false. intros (v & Hv & _)%compare_lt_iff.
    apply get_Some_bounds in Hv. specialize (Hn ltac:(lia)). lia.
  - destruct (defaultCompare (get arr i) t <? 0) eqn:Hc; [|done].
    apply IH. intros Hi.
    destruct t as [tv|]; [|by rewrite compare_undefined in Hc].
    apply compare_lt_iff in Hc as (v & Hv%get_Some_bounds & _).
    specialize (Hn ltac:(lia)). lia.
Qed.

Lemma scan_up_exits arr t i :
  (defaultCompare (get arr (scan_up (length arr) arr t i)) t <? 0) = false.
Proof.
  destruct (decide (0 <= i)) as [Hi|Hi].
  - apply scan_up_exits_fuel. lia.
  - destruct arr as [|x arr]; simpl.
    + rewrite get_out_of_bounds by (simpl; lia).
      unfold defaultCompare, lt; by destruct t.
    + rewrite (get_out_of_bounds _ i) by lia.
      replace (defaultCompare None t <? 0) with false
        by (unfold defaultCompare, lt; by destruct t).
      rewrite get_out_of_bounds by lia.
      unfold defaultCompare, lt; by destruct t.
Qed.

Lemma scan_down_exits_fuel (n : nat) arr t j :
  (j < Z.of_nat (length arr) -> j + 1 <= Z.of_nat n) ->
  (0 <? defaultCompare (get arr (scan_down n arr t j)) t) = false.
Proof.
  revert j. induction n as [|n IH]; intros j Hn; simpl.
  - destruct t as [tv|]; [|by rewrite compare_undefined].
    apply not_true_is_false. intros (v & Hv & _)%compare_gt_iff.
    apply get_Some_bounds in Hv. specialize (Hn ltac:(lia)). lia.
  - destruct (0 <? defaultCompare (get arr j) t) eqn:Hc; [|done].
    apply IH. intros Hj.
    destruct t as [tv|]; [|by rewrite compare_undefined in Hc].
    apply compare_gt_iff in Hc as (v & Hv%get_Some_bounds & _).
    specialize (Hn ltac:(lia)). lia.
Qed.

Lemma scan_down_exits arr t j :
  (0 <? defaultCompare (get arr (scan_down (length arr) arr t j)) t) = false.
Proof.
  destruct (decide (j < Z.of_nat (length arr))) as [Hj|Hj].
  - apply scan_down_exits_fuel. lia.
  - destruct arr as [|x arr]; simpl.
    + rewrite get_out_of_bounds by (simpl; lia).
      unfold defaultCompare, lt; by destruct t.
    + rewrite (get_out_of_bounds _ j) by lia.
      replace (0 <? defaultCompare None t) with false
        by (unfold defaultCompare, lt; by destruct t).
      rewrite get_out_of_bounds by lia.
      unfold defaultCompare, lt; by destruct t.
Qed.

(** The upward scan started at [i] stops at or before an index [stop] whose
    element is not below the pivot. *)
Lemma scan_up_spec (n : nat) arr tv i stop :
  i <= stop -> stop - i <= Z.of_nat n ->
  (forall v, get arr stop = Some v -> tv <= v) ->
  let i' := scan_up n arr (Some tv) i in
  i <= i' <= stop /\
  (forall p v, i <= p < i' -> get arr p = Some v -> v < tv) /\
  (forall v, get arr i' = Some v -> tv <= v).
Proof.
  revert i. induction n as [|n IH]; intros i Hi Hn Hstop; simpl.
  - replace i with stop by lia. repeat split; try lia. done.
  - destruct (defaultCompare (get arr i) (Some tv) <? 0) eqn:Hc.
    + apply compare_lt_iff in Hc as (v & Hv & Hlt).
      assert (i <> stop) by (intros ->; apply Hstop in Hv; lia).
      destruct (IH (i + 1)) as (Hb & Hbelow & Hat); [lia|lia|done|].
      repeat split; try lia; [|done].
      intros p w Hp Hw. destruct (decide (p = i)) as [->|]; [congruence|].
      apply (Hbelow p); [lia|done].
    + repeat split; try lia.
      intros v Hv. destruct (Z.lt_ge_cases v tv); [|done].
      assert ((defaultCompare (get arr i) (Some tv) <? 0) = true); [|congruence].
      apply compare_lt_iff. eauto.
Qed.

Lemma scan_down_spec (n : nat) arr tv j stop :
  stop <= j -> j - stop <= Z.of_nat n ->
  (forall v, get arr stop = Some v -> v <= tv) ->
  let j' := scan_down n arr (Some tv) j in
  stop <= j' <= j /\
  (forall p v, j' < p <= j -> get arr p = Some v -> tv < v) /\
  (forall v, get arr j' = Some v -> v <= tv).
Proof.
  revert j. induction n as [|n IH]; intros j Hj Hn Hstop; simpl.
  - replace j with stop by lia. repeat split; try lia. done.
  - destruct (0 <? defaultCompare (get arr j) (Some tv)) eqn:Hc.
    + apply compare_gt_iff in Hc as (v & Hv & Hlt).
      assert (j <> stop) by (intros ->; apply Hstop in Hv; lia).
      destruct (IH (j - 1)) as (Hb & Habove & Hat); [lia|lia|done|].
      repeat split; try lia; [|done].
      intros p w Hp Hw. destruct (decide (p = j)) as [->|]; [congruence|].
      apply (Habove p); [lia|done].
    + repeat split; try lia.
      intros v Hv. destruct (Z.lt_ge_cases tv v); [|lia].
      assert ((0 <? defaultCompare (get arr j) (Some tv)) = true); [|congruence].
      apply compare_gt_iff. eauto.
Qed.

(** ** The partition loop *)

Lemma partition_loop_spec (n : nat) left right tv arr i j :
  0 <= left -> right < Z.of_nat (length arr) ->
  loop_head left right tv arr i j ->
  j - i <= Z.of_nat n ->
  exists arr' i' j',
    partition_loop n arr (Some tv) i j = (arr', i', j') /\
    j' <= i' /\
    loop_head left right tv arr' i' j' /\
    permuted_within i j arr arr' /\
    i <= i' /\ j' <= j /\
    (i < j ->
       i < i' /\ j' < j /\
       get arr' i = get arr j /\ get arr' j = get arr i).
Proof.
  revert arr i j. induction n as [|n IH]; intros arr i j Hleft Hright Hhead Hn.
  { exists arr, i, j. simpl. destruct (Z.ltb_spec i j); [lia|].
    split; [done|]. split; [lia|]. split; [done|].
    split; [apply permuted_within_refl|lia]. }
  simpl. destruct (Z.ltb_spec i j) as [Hij|Hij]; cycle 1.
  { exists arr, i, j. split; [done|]. split; [lia|]. split; [done|].
    split; [apply permuted_within_refl|lia]. }
  destruct Hhead as (Hli & Hjr & Hlj & Hir & Hlow & Hhigh & Hati & Hatj).
  set (arr1 := swap arr i j).
  assert (Hlen1 : length arr1 = length arr) by apply length_swap.
  assert (Hget1 : forall p, get arr1 p =
            if decide (p = j) then get arr i
            else if decide (p = i) then get arr j else get arr p).
  { intros p. apply get_swap; lia. }
  rewrite Hlen1.
  destruct (scan_up_spec (length arr) arr1 tv (i + 1) j)
    as (Hi1 & Hbelow & Hati1); [lia|lia| |].
  { intros v. rewrite Hget1, decide_True by done. apply Hati. }
  destruct (scan_down_spec (length arr) arr1 tv (j - 1) i)
    as (Hj1 & Habove & Hatj1); [lia|lia| |].
  { intros v. rewrite Hget1, decide_False, decide_True by lia. apply Hatj. }
  set (i1 := scan_up (length arr) arr1 (Some tv) (i + 1)) in *.
  set (j1 := scan_down (length arr) arr1 (Some tv) (j - 1)) in *.
  destruct (IH arr1 i1 j1)
    as (arr' & i' & j' & Heq & Hexit & Hhead' & Hperm & Hi' & Hj' & _).
  { done. }
  { lia. }
  { repeat split; try lia; try done.
    - intros p v Hp. destruct (decide (p < i)) as [Hpi|Hpi].
      + rewrite Hget1, !decide_False by lia. apply Hlow. lia.
      + destruct (decide (p = i)) as [->|Hne].
        * rewrite Hget1, decide_False, decide_True by lia. apply Hatj.
        * intros Hv. apply Z.lt_le_incl, (Hbelow p v); [lia|done].
    - intros p v Hp. destruct (decide (j < p)) as [Hpj|Hpj].
      + rewrite Hget1, !decide_False by lia. apply Hhigh. lia.
      + destruct (decide (p = j)) as [->|Hne].
        * rewrite Hget1, decide_True by lia. apply Hati.
        * intros Hv. apply Z.lt_le_incl, (Habove p v); [lia|done]. }
  { lia. }
  exists arr', i', j'. split; [done|]. split; [done|]. split; [done|].
  assert (Hperm' : permuted_within i j arr arr').
  { eapply permuted_within_trans.
    - apply permuted_within_swap with (i := i) (j := j); lia.
    - eapply permuted_within_mono; [| |exact Hperm]; lia. }
  split; [done|]. split; [lia|]. split; [lia|]. intros _.
  destruct Hperm as (_ & _ & Hout & _).
  split; [lia|]. split; [lia|].
  rewrite !Hout, !Hget1 by lia.
  rewrite decide_False, decide_True, decide_True by lia. done.
Qed.

Lemma scan_up_ge (n : nat) arr t i : i <= scan_up n arr t i.
Proof.
  revert i. induction n as [|n IH]; intros i; simpl; [lia|].
  case_match; [|lia]. specialize (IH (i + 1)). lia.
Qed.

Lemma scan_down_le (n : nat) arr t j : scan_down n arr t j <= j.
Proof.
  revert j. induction n as [|n IH]; intros j; simpl; [lia|].
  case_match; [|lia]. specialize (IH (j - 1)). lia.
Qed.

(** With [j - i] as fuel the partition loop runs until [i < j] fails,
    whatever the array and the indices. *)
Lemma partition_loop_exits (n : nat) arr t i j :
  j - i <= Z.of_nat n ->
  (partition_loop n arr t i j).2 <= (partition_loop n arr t i j).1.2.
Proof.
  revert arr i j. induction n as [|n IH]; intros arr i j Hn; simpl.
  { destruct (Z.ltb_spec i j); simpl; lia. }
  destruct (Z.ltb_spec i j); simpl; [|lia].
  apply IH.
  pose proof (scan_up_ge (length (swap arr i j)) (swap arr i j) t (i + 1)).
  pose proof (scan_down_le (length (swap arr i j)) (swap arr i j) t (j - 1)).
  lia.
Qed.

(** ** One partition *)

(** The two swaps before the loop put the pivot at one end of the window and
    an element on the proper side of it at the other end. *)
Lemma partition_setup arr k left right tv :
  0 <= left -> left < right -> right < Z.of_nat (length arr) ->
  get arr k = Some tv ->
  let arrA := swap arr left k in
  let arrB :=
    if 0 <? defaultCompare (get arrA right) (Some tv)
    then swap arrA left right else arrA in
  exists x y,
    get arrB left = Some x /\ get arrB right = Some y /\
    tv <= x /\ y <= tv /\ (x = tv \/ y = tv) /\
    length arrB = length arr /\
    permuted_within left right arrA arrB /\
    (left <= k <= right -> forall M, max_at_right left right arr M -> x = M).
Proof.
  intros Hleft Hlr Hright Hk arrA arrB.
  pose proof (get_Some_bounds _ _ _ Hk) as Hkb.
  assert (HlenA : length arrA = length arr) by apply length_swap.
  assert (HgetA : forall p, get arrA p =
            if decide (p = k) then get arr left
            else if decide (p = left) then Some tv else get arr p).
  { intros p. unfold arrA. rewrite get_swap by lia. by rewrite Hk. }
  assert (HAl : get arrA left = Some tv).
  { rewrite HgetA. destruct (decide (left = k)) as [->|]; [done|].
    by rewrite decide_True. }
  destruct (get_in_bounds arrA right) as [r Hr]; [lia|].
  assert (Hmax : left <= k <= right -> forall M,
            max_at_right left right arr M ->
            tv <= M /\ r <= M /\ (k <> right -> r = M) /\ (k = right -> tv = M)).
  { intros Hkw M [HM Hbound]. split; [by apply (Hbound k)|].
    rewrite HgetA in Hr. destruct (decide (right = k)) as [<-|Hne].
    - split; [apply (Hbound left); [lia|done]|]. split; [done|]. congruence.
    - rewrite decide_False in Hr by lia. split; [|split]; [| |done];
        intros; congruence || (assert (r = M) by congruence; lia). }
  subst arrB. rewrite Hr.
  destruct (0 <? defaultCompare (Some r) (Some tv)) eqn:Hc.
  - apply compare_gt_iff in Hc as (? & [= <-] & Hgt).
    exists r, tv. rewrite !get_swap by lia.
    rewrite decide_False, decide_True, decide_True by lia.
    do 5 (split; [done || lia|]).
    split; [by rewrite length_swap|].
    split; [apply permuted_within_swap; lia|].
    intros Hkw M HM. destruct (Hmax Hkw M HM) as (? & ? & Hne & Heq).
    destruct (decide (k = right)) as [e|n]; [|auto]. apply Heq in e. lia.
  - assert (r <= tv).
    { destruct (Z.lt_ge_cases tv r); [|lia].
      assert ((0 <? defaultCompare (Some r) (Some tv)) = true); [|congruence].
      apply compare_gt_iff. eauto. }
    exists tv, r.
    do 4 (split; [done || lia|]). split; [by left|].
    split; [done|]. split; [apply permuted_within_refl|].
    intros Hkw M HM. destruct (Hmax Hkw M HM) as (? & ? & Hne & Heq).
    destruct (decide (k = right)) as [e|n]; [auto|]. apply Hne in n. lia.
Qed.

Lemma partition_spec arr k left right tv :
  0 <= left -> left < right -> right < Z.of_nat (length arr) ->
  get arr k = Some tv ->
  exists arr' j,
    partition arr k left right = (arr', j) /\
    partitioned left right arr' j tv /\
    permuted_within left right (swap arr left k) arr' /\
    (left <= k <= right -> forall M,
       max_at_right left right arr M -> get arr' right = Some M).
Proof.
  intros Hleft Hlr Hright Hk.
  pose proof (get_Some_bounds _ _ _ Hk) as Hkb.
  unfold partition. rewrite Hk.
  destruct (partition_setup arr k left right tv)
    as (x & y & HBl & HBr & Hx & Hy & Hxy & HlenB & HpermB & HmaxB); try done.
  set (arrA := swap arr left k) in *.
  set (arrB := if 0 <? defaultCompare (get arrA right) (Some tv)
               then swap arrA left right else arrA) in *.
  destruct (partition_loop_spec (Z.to_nat (right - left)) left right tv
              arrB left right)
    as (arr' & i' & j' & -> & Hexit & Hhead & Hperm & _ & _ & Hstep);
    [lia|lia| |lia|].
  { repeat split; try lia.
    - intros v Hv. congruence.
    - intros v Hv. congruence. }
  destruct Hstep as (Hi' & Hj' & Hl' & Hr'); [done|].
  rewrite HBr in Hl'. rewrite HBl in Hr'.
  destruct Hhead as (_ & _ & Hlj' & Hi'r & Hlow & Hhigh & Hati & Hatj).
  assert (Hlen' : length arr' = length arr).
  { destruct Hperm as (-> & _). done. }
  assert (Hbound : forall M, left <= k <= right ->
            max_at_right left right arr M ->
            forall p v, left <= p <= right -> get arr' p = Some v -> v <= M).
  { intros M Hkw [_ HM].
    eapply permuted_within_bound; [exact Hperm|].
    eapply permuted_within_bound; [exact HpermB|].
    eapply permuted_within_bound; [|exact HM].
    apply permuted_within_swap; lia. }
  rewrite Hl'.
  destruct (defaultCompare (Some y) (Some tv) =? 0) eqn:Hc.
  - apply compare_eq_iff in Hc as ->.
    assert (Hget : forall p, get (swap arr' left j') p =
              if decide (p = j') then Some tv
              else if decide (p = left) then get arr' j' else get arr' p).
    { intros p. rewrite get_swap by lia. by rewrite Hl'. }
    eexists _, _. split; [done|]. split; [|split].
    + split; [lia|]. split; [by rewrite Hget, decide_True|]. split.
      * intros p v Hp. rewrite Hget, decide_False by lia. case_decide.
        -- apply Hatj.
        -- apply Hlow. lia.
      * intros p v Hp. rewrite Hget, !decide_False by lia. apply Hhigh. lia.
    + eapply permuted_within_trans; [exact HpermB|].
      eapply permuted_within_trans; [exact Hperm|].
      apply permuted_within_swap; lia.
    + intros Hkw M HM. rewrite Hget, !decide_False by lia.
      rewrite Hr'. f_equal. by apply HmaxB.
  - assert (x = tv) as ->.
    { destruct Hxy as [->| ->]; [done|].
      assert ((defaultCompare (Some tv) (Some tv) =? 0) = true); [|congruence].
      by apply compare_eq_iff. }
    assert (Hget : forall p, get (swap arr' (j' + 1) right) p =
              if decide (p = right) then get arr' (j' + 1)
              else if decide (p = j' + 1) then Some tv else get arr' p).
    { intros p. rewrite get_swap by lia. by rewrite Hr'. }
    eexists _, _. split; [done|]. split; [|split].
    + split; [lia|]. split.
      { rewrite Hget. case_decide as Hjr; [by rewrite Hjr|].
        by rewrite decide_True. }
      split.
      * intros p v Hp. rewrite Hget, !decide_False by lia.
        destruct (decide (p < i')); [apply Hlow; lia|].
        replace p with j' by lia. apply Hatj.
      * intros p v Hp. rewrite Hget, (decide_False (P := p = j' + 1)) by lia.
        case_decide; apply Hhigh; lia.
    + eapply permuted_within_trans; [exact HpermB|].
      eapply permuted_within_trans; [exact Hperm|].
      apply permuted_within_swap; lia.
    + intros Hkw M HM. rewrite Hget, decide_True by done.
      specialize (HmaxB Hkw M HM) as <-.
      destruct (get_in_bounds arr' (j' + 1)) as [w Hw]; [lia|].
      rewrite Hw. f_equal. apply Z.le_antisymm.
      * apply (Hbound tv Hkw HM (j' + 1)); [lia|done].
      * destruct (decide (j' + 1 = right)) as [Heq|Hne].
        -- rewrite Heq, Hr' in Hw. injection Hw as <-. lia.
        -- apply (Hhigh (j' + 1)); [lia|done].
Qed.

(** ** The selection loop *)

(** Whenever the window and [k] lie inside the array the loop ends within
    the fuel and has only exchanged elements. *)
Lemma quickselectStep_returns (n : nat) arr k left right :
  (left < right ->
     0 <= left /\ right < Z.of_nat (length arr) /\
     0 <= k < Z.of_nat (length arr)) ->
  right - left <= Z.of_nat n ->
  exists arr', quickselectStep n arr k left right = Some arr' /\ arr' ≡ₚ arr.
Proof.
  revert arr left right. induction n as [|n IH]; intros arr left right Hb Hn.
  { simpl. destruct (Z.ltb_spec left right); [lia|]. eauto. }
  simpl. destruct (Z.ltb_spec left right) as [Hlr|Hlr]; [|eauto].
  destruct (Hb Hlr) as (Hleft & Hright & Hk).
  destruct (get_in_bounds arr k Hk) as [tv Htv].
  destruct (partition_spec arr k left right tv)
    as (arr1 & j & -> & (Hj & _) & Hperm & _); try done.
  assert (Hperm1 : arr1 ≡ₚ arr).
  { destruct Hperm as (_ & -> & _). apply swap_Permutation; lia. }
  assert (Hlen1 : length arr1 = length arr) by by rewrite Hperm1.
  destruct (IH arr1 (if j <=? k then j + 1 else left)
                    (if k <=? j then j - 1 else right))
    as (arr' & Heq & Hperm'); [| |].
  - intros _. rewrite Hlen1.
    destruct (Z.leb_spec j k), (Z.leb_spec k j); lia.
  - destruct (Z.leb_spec j k), (Z.leb_spec k j); lia.
  - exists arr'. split; [done|]. by rewrite Hperm'.
Qed.

(** With [k] inside the window the loop rearranges the window only, leaves
    the element at [k] in its sorted position within the window, and keeps a
    largest element at the right end if one was there. *)
Lemma quickselectStep_select (n : nat) arr k left right :
  0 <= left -> right < Z.of_nat (length arr) -> left <= k <= right ->
  right - left <= Z.of_nat n ->
  exists arr',
    quickselectStep n arr k left right = Some arr' /\
    permuted_within left right arr arr' /\
    selected left right arr' k /\
    (forall M, max_at_right left right arr M -> get arr' right = Some M).
Proof.
  revert arr left right.
  induction n as [|n IH]; intros arr left right Hleft Hright Hk Hn.
  { simpl. destruct (Z.ltb_spec left right); [lia|].
    assert (left = k /\ right = k) as [-> ->] by lia.
    exists arr. split; [done|]. split; [apply permuted_within_refl|].
    destruct (get_in_bounds arr k) as [x Hx]; [lia|].
    split; [|by intros M [? _]].
    exists x. split; [done|].
    split; intros p v Hp Hv; replace p with k in Hv by lia;
      assert (v = x) by congruence; lia. }
  simpl. destruct (Z.ltb_spec left right) as [Hlr|Hlr]; cycle 1.
  { assert (left = k /\ right = k) as [-> ->] by lia.
    exists arr. split; [done|]. split; [apply permuted_within_refl|].
    destruct (get_in_bounds arr k) as [x Hx]; [lia|].
    split; [|by intros M [? _]].
    exists x. split; [done|].
    split; intros p v Hp Hv; replace p with k in Hv by lia;
      assert (v = x) by congruence; lia. }
  destruct (get_in_bounds arr k) as [tv Htv]; [lia|].
  destruct (partition_spec arr k left right tv)
    as (arr1 & j & -> & (Hj & Hatj & Hlow & Hhigh) & Hperm & Hmax); try done.
  assert (Hperm1 : permuted_within left right arr arr1).
  { eapply permuted_within_trans; [|exact Hperm].
    apply permuted_within_swap; lia. }
  assert (Hlen1 : length arr1 = length arr) by by destruct Hperm1.
  destruct (Z.leb_spec j k) as [Hjk|Hjk], (Z.leb_spec k j) as [Hkj|Hkj];
    try lia.
  - (* the pivot has landed at k *)
    assert (j = k) as -> by lia.
    exists arr1. split.
    { destruct n; simpl; by destruct (Z.ltb_spec (k + 1) (k - 1)); try lia. }
    split; [done|]. split; [|by auto].
    exists tv. split; [done|]. split; intros p v Hp Hv.
    + destruct (decide (p = k)) as [->|]; [|apply (Hlow p); [lia|done]].
      assert (v = tv) by congruence; lia.
    + destruct (decide (p = k)) as [->|]; [|apply (Hhigh p); [lia|done]].
      assert (v = tv) by congruence; lia.
  - (* continue right of the pivot *)
    destruct (IH arr1 (j + 1) right)
      as (arr' & -> & Hperm' & (x & Hx & Hxlow & Hxhigh) & Hmax');
      [lia|lia|lia|lia|].
    exists arr'. split; [done|].
    split.
    { eapply permuted_within_trans; [exact Hperm1|].
      eapply permuted_within_mono; [| |exact Hperm']; lia. }
    assert (Htvx : tv <= x).
    { eapply (permuted_within_bound _ _ _ _ (fun v => tv <= v) Hperm');
        [|split; [|exact (proj2 Hk)]|exact Hx]; [|lia].
      intros p v Hp. apply Hhigh. lia. }
    split.
    + exists x. split; [done|]. split; [|intros p v Hp; apply Hxhigh; lia].
      intros p v Hp Hv. destruct (decide (j < p)); [apply (Hxlow p); [lia|done]|].
      destruct Hperm' as (_ & _ & Hout & _). rewrite Hout in Hv by lia.
      destruct (decide (p = j)) as [->|].
      * assert (v = tv) by congruence. lia.
      * assert (v <= tv); [apply (Hlow p); [lia|done]|lia].
    + intros M HM. apply Hmax'. split; [by apply Hmax|].
      intros p v Hp. destruct HM as [_ HM].
      eapply (permuted_within_bound _ _ _ _ (fun v => v <= M) Hperm1); [done|lia].
  - (* continue left of the pivot *)
    destruct (IH arr1 left (j - 1))
      as (arr' & -> & Hperm' & (x & Hx & Hxlow & Hxhigh) & Hmax');
      [lia|lia|lia|lia|].
    exists arr'. split; [done|].
    split.
    { eapply permuted_within_trans; [exact Hperm1|].
      eapply permuted_within_mono; [| |exact Hperm']; lia. }
    assert (Hxtv : x <= tv).
    { eapply (permuted_within_bound _ _ _ _ (fun v => v <= tv) Hperm');
        [|split; [exact (proj1 Hk)|]|exact Hx]; [|lia].
      intros p v Hp. apply Hlow. lia. }
    destruct Hperm' as (_ & _ & Hout & _).
    split.
    + exists x. split; [done|]. split; [intros p v Hp; apply Hxlow; lia|].
      intros p v Hp Hv. destruct (decide (p < j)); [apply (Hxhigh p); [lia|done]|].
      rewrite Hout in Hv by lia.
      destruct (decide (p = j)) as [->|].
      * assert (v = tv) by congruence. lia.
      * assert (tv <= v); [apply (Hhigh p); [lia|done]|lia].
    + intros M HM. rewrite Hout by lia. by apply Hmax.
Qed.

(** ** [quickselect] *)

Lemma quickselect_returns arr k left right :
  (default 0 left < default (Z.of_nat (length arr) - 1) right ->
     0 <= default 0 left /\
     default (Z.of_nat (length arr) - 1) right < Z.of_nat (length arr) /\
     0 <= k < Z.of_nat (length arr)) ->
  exists arr', quickselect arr k left right = Some arr' /\ arr' ≡ₚ arr.
Proof. intros Hb. apply quickselectStep_returns; [done|lia]. Qed.

Lemma quickselect_select arr k left right :
  let l := default 0 left in
  let r := default (Z.of_nat (length arr) - 1) right in
  0 <= l -> r < Z.of_nat (length arr) -> l <= k <= r ->
  exists arr',
    quickselect arr k left right = Some arr' /\
    permuted_within l r arr arr' /\
    selected l r arr' k /\
    (forall M, max_at_right l r arr M -> get arr' r = Some M).
Proof. intros l r Hl Hr Hk. apply quickselectStep_select; [done..|lia]. Qed.

(** ** Selection on an array without negative elements

    The second selection on the positive samples takes its right bound from
    a product of doubles.  Whatever that bound and whatever [k], the loop ends
    within the fuel: an index read outside the array is [undefined], which
    stops both scans, and the 0 stored for [undefined] is not above a pivot
    taken from the array. *)

Lemma get_set_same (arr : list Z) i v :
  get (set arr i v) i =
    if decide (0 <= i < Z.of_nat (length arr)) then Some (default 0 v) else None.
Proof.
  case_decide as Hi.
  - unfold get, set. destruct (Z.leb_spec 0 i); [|lia].
    apply list_lookup_insert_eq. lia.
  - apply get_out_of_bounds. by rewrite length_set.
Qed.

Lemma get_swap_any (arr : list Z) i j p :
  get (swap arr i j) p =
    if decide (p = j) then
      if decide (0 <= j < Z.of_nat (length arr))
      then Some (default 0 (get arr i)) else None
    else if decide (p = i) then
      if decide (0 <= i < Z.of_nat (length arr))
      then Some (default 0 (get arr j)) else None
    else get arr p.
Proof.
  unfold swap. destruct (decide (p = j)) as [->|Hpj].
  - rewrite get_set_same, length_set. done.
  - rewrite get_set_ne by done. destruct (decide (p = i)) as [->|Hpi].
    + apply get_set_same.
    + by rewrite get_set_ne.
Qed.

Lemma get_nonneg (arr : list Z) i v :
  Forall (fun x => 0 <= x) arr -> get arr i = Some v -> 0 <= v.
Proof.
  intros Hall Hv. apply get_Some_bounds in Hv as Hb.
  rewrite <-(Z2Nat.id i), get_nat in Hv by lia.
  by apply (Forall_lookup_1 _ _ _ _ Hall Hv).
Qed.

Lemma set_nonneg (arr : list Z) i v :
  Forall (fun x => 0 <= x) arr -> (forall x, v = Some x -> 0 <= x) ->
  Forall (fun x => 0 <= x) (set arr i v).
Proof.
  intros Hall Hv. unfold set. case_match; [|done].
  apply Forall_insert; [done|]. destruct v; simpl; [auto|lia].
Qed.

Lemma swap_nonneg (arr : list Z) i j :
  Forall (fun x => 0 <= x) arr -> Forall (fun x => 0 <= x) (swap arr i j).
Proof.
  intros Hall. unfold swap.
  apply set_nonneg; [apply set_nonneg; [done|]|]; intros x Hx;
    by eapply get_nonneg.
Qed.

Lemma scan_down_stop (n : nat) arr t j stop :
  stop <= j -> (0 <? defaultCompare (get arr stop) t) = false ->
  stop <= scan_down n arr t j.
Proof.
  revert j. induction n as [|n IH]; intros j Hj Hstop; simpl; [done|].
  destruct (0 <? defaultCompare (get arr j) t) eqn:Hc; [|done].
  apply IH; [|done]. destruct (decide (j = stop)) as [->|]; [congruence|lia].
Qed.

Lemma partition_loop_le (n : nat) arr t i j :
  (partition_loop n arr t i j).2 <= j.
Proof.
  revert arr i j. induction n as [|n IH]; intros arr i j; simpl.
  { by destruct (i <? j). }
  destruct (i <? j); [|done]. etrans; [apply IH|].
  pose proof (scan_down_le (length (swap arr i j)) (swap arr i j) t (j - 1)).
  lia.
Qed.

(** Once an element that is not above the pivot sits at [left], strictly
    left of [i], the loop never takes [j] below [left]. *)
Lemma partition_loop_lower (n : nat) arr t i j left :
  Forall (fun x => 0 <= x) arr ->
  left < i -> left <= j ->
  (0 <? defaultCompare (get arr left) t) = false ->
  left <= (partition_loop n arr t i j).2 /\
  Forall (fun x => 0 <= x) (partition_loop n arr t i j).1.1.
Proof.
  revert arr i j. induction n as [|n IH]; intros arr i j Hall Hi Hj Hs; simpl.
  { by destruct (i <? j). }
  destruct (Z.ltb_spec i j); [|done].
  apply IH.
  - by apply swap_nonneg.
  - pose proof (scan_up_ge (length (swap arr i j)) (swap arr i j) t (i + 1)).
    lia.
  - apply scan_down_stop; [lia|].
    by rewrite get_swap_any, !decide_False by lia.
  - by rewrite get_swap_any, !decide_False by lia.
Qed.

Lemma compare_undefined_l (t : option Z) : defaultCompare None t = 0.
Proof. unfold defaultCompare, lt. by destruct t. Qed.

Lemma compare_refl (a : option Z) : (0 <? defaultCompare a a) = false.
Proof.
  unfold defaultCompare, lt. destruct a as [v|]; [|done].
  by rewrite Z.ltb_irrefl.
Qed.

(** One pass on an array without negative elements leaves the pivot index
    inside the window. *)
Lemma partition_shrinks arr k left right :
  Forall (fun x => 0 <= x) arr -> 0 <= left -> left < right ->
  left <= (partition arr k left right).2 <= right /\
  Forall (fun x => 0 <= x) (partition arr k left right).1.
Proof.
  intros Hall Hleft Hlr. unfold partition.
  remember (get arr k) as t eqn:Htk.
  set (arrA := swap arr left k).
  set (arrB := if 0 <? defaultCompare (get arrA right) t
               then swap arrA left right else arrA).
  assert (HallB : Forall (fun x => 0 <= x) arrB).
  { unfold arrB. case_match; repeat apply swap_nonneg; done. }
  assert (HlenB : length arrB = length arr).
  { unfold arrB, arrA. case_match; by rewrite ?length_swap. }
  assert (Ht : forall tv, t = Some tv -> 0 <= tv).
  { intros tv Htv. apply (get_nonneg arr k); [done|congruence]. }
  destruct (Z.to_nat (right - left)) as [|n] eqn:Hn; [lia|].
  simpl. destruct (Z.ltb_spec left right); [|lia].
  set (arr1 := swap arrB left right).
  assert (Hs : (0 <? defaultCompare (get arr1 left) t) = false).
  { unfold arr1. rewrite get_swap_any, decide_False, decide_True by lia.
    case_decide as Hlb; [|by rewrite compare_undefined_l].
    rewrite HlenB in Hlb.
    destruct (get arrB right) as [r|] eqn:Hr; simpl.
    - unfold arrB in Hr.
      destruct (0 <? defaultCompare (get arrA right) t) eqn:Hc; [|congruence].
      rewrite get_swap_any, decide_True in Hr by done.
      case_decide; [|done]. unfold arrA in Hlb.
      assert (get arrA left = t) as Hl.
      { unfold arrA. rewrite get_swap_any.
        destruct t as [tv|] eqn:Htv; [|by rewrite compare_undefined in Hc].
        destruct (decide (left = k)) as [Heq|].
        - rewrite decide_True by lia. by rewrite Heq, <-Htk.
        - rewrite decide_True, decide_True by (done || lia).
          by rewrite <-Htk. }
      rewrite Hl in Hr. destruct t as [tv|]; simpl in Hr.
      + injection Hr as <-. apply compare_refl.
      + by rewrite compare_undefined.
    - destruct t as [tv|]; [|done].
      apply not_true_is_false. intros (v & [= <-] & Hlt)%compare_gt_iff.
      specialize (Ht tv eq_refl). lia. }
  set (i1 := scan_up (length arr1) arr1 t (left + 1)).
  set (j1 := scan_down (length arr1) arr1 t (right - 1)).
  assert (Hi1 : left < i1).
  { pose proof (scan_up_ge (length arr1) arr1 t (left + 1)). unfold i1. lia. }
  assert (Hj1 : left <= j1 <= right - 1).
  { split; [apply scan_down_stop; [lia|done]|apply scan_down_le]. }
  destruct (partition_loop_lower n arr1 t i1 j1 left) as [Hlow Hall'];
    [by apply swap_nonneg|done|lia|done|].
  pose proof (partition_loop_le n arr1 t i1 j1) as Hup.
  destruct (partition_loop n arr1 t i1 j1) as [[arr' i'] j'].
  simpl in Hlow, Hall', Hup.
  case_match; simpl; (split; [lia|by apply swap_nonneg]).
Qed.

Lemma quickselectStep_total (n : nat) arr k left right :
  Forall (fun x => 0 <= x) arr -> 0 <= left ->
  right - left <= Z.of_nat n ->
  exists arr',
    quickselectStep n arr k left right = Some arr' /\
    Forall (fun x => 0 <= x) arr'.
Proof.
  revert arr left right. induction n as [|n IH]; intros arr left right Hall Hl Hn.
  { simpl. destruct (Z.ltb_spec left right); [lia|]. eauto. }
  simpl. destruct (Z.ltb_spec left right) as [Hlr|Hlr]; [|eauto].
  destruct (partition_shrinks arr k left right) as [Hj Hall']; [done..|].
  destruct (partition arr k left right) as [arr1 j]. simpl in Hj, Hall'.
  apply IH; [done| |]; destruct (Z.leb_spec j k), (Z.leb_spec k j); lia.
Qed.

(** A selection on an array without negative elements returns, for every
    [k] and every right bound. *)
Lemma quickselect_total arr k left right :
  Forall (fun x => 0 <= x) arr -> 0 <= default 0 left ->
  exists arr',
    quickselect arr k left right = Some arr' /\
    Forall (fun x => 0 <= x) arr'.
Proof. intros Hall Hl. apply quickselectStep_total; [done|done|lia]. Qed.

(** ** Ranks *)

(** An element that splits the whole array is the element of the same index
    in the sorted array. *)
Lemma selected_rank (arr : list Z) k :
  selected 0 (Z.of_nat (length arr) - 1) arr k ->
  get (merge_sort Z.le arr) k = get arr k.
Proof.
  intros (x & Hx & Hlow & Hhigh). rewrite Hx.
  pose proof (get_Some_bounds _ _ _ Hx) as Hk.
  assert (Hxn : arr !! Z.to_nat k = Some x).
  { by rewrite <-get_nat, Z2Nat.id by lia. }
  pose proof (take_drop_middle arr _ x Hxn) as Hsplit.
  set (A := take (Z.to_nat k) arr) in *.
  set (B := drop (S (Z.to_nat k)) arr) in *.
  assert (HA : forall a, a ∈ A -> a <= x).
  { intros a [i Hi]%list_elem_of_lookup.
    apply lookup_take_Some in Hi as [Hi Hlt].
    apply (Hlow (Z.of_nat i)); [lia|by rewrite get_nat]. }
  assert (HB : forall b, b ∈ B -> x <= b).
  { intros b [i Hi]%list_elem_of_lookup. unfold B in Hi.
    rewrite lookup_drop in Hi.
    apply (Hhigh (Z.of_nat (S (Z.to_nat k) + i))); [|by rewrite get_nat].
    apply lookup_lt_Some in Hi. lia. }
  assert (Hsorted : merge_sort Z.le arr
                    = merge_sort Z.le A ++ x :: merge_sort Z.le B).
  { apply (Sorted_unique Z.le).
    - apply (Sorted_merge_sort Z.le).
    - apply StronglySorted_Sorted, StronglySorted_app. split; [|split].
      + intros a b Ha Hb. rewrite merge_sort_Permutation in Ha.
        apply HA in Ha. apply elem_of_cons in Hb as [->|Hb]; [done|].
        rewrite merge_sort_Permutation in Hb. apply HB in Hb. lia.
      + apply (StronglySorted_merge_sort Z.le).
      + constructor; [apply (StronglySorted_merge_sort Z.le)|].
        apply Forall_forall. intros b Hb. apply HB.
        by rewrite <-(merge_sort_Permutation Z.le B).
    - rewrite !merge_sort_Permutation. by rewrite <-Hsplit at 1. }
  rewrite Hsorted. unfold get. destruct (Z.leb_spec 0 k); [|lia].
  rewrite lookup_app_r; rewrite (Permutation_length (merge_sort_Permutation _ A));
    unfold A; rewrite length_take; [|lia].
  replace (Z.to_nat k - _)%nat with 0%nat by lia. done.
Qed.

Lemma merge_sort_Permutation_eq (l1 l2 : list Z) :
  l1 ≡ₚ l2 -> merge_sort Z.le l1 = merge_sort Z.le l2.
Proof.
  intros Hp. apply (Sorted_unique Z.le).
  - apply (Sorted_merge_sort Z.le).
  - apply (Sorted_merge_sort Z.le).
  - by rewrite !merge_sort_Permutation.
Qed.

(** ** The range pass *)

Lemma range_pass_spec (arr : list Z) :
  arr <> [] ->
  exists lo hi total,
    range_pass arr = (Fin lo, Fin hi, total) /\
    lo ∈ arr /\ hi ∈ arr /\ Forall (fun x => lo <= x <= hi) arr.
Proof.
  induction arr as [|x arr IH]; [done|]. intros _.
  unfold range_pass. simpl. fold (range_pass arr).
  destruct arr as [|y arr].
  { simpl. exists x, x. eexists. split; [done|].
    repeat split; [left..|]. repeat constructor; lia. }
  destruct IH as (lo & hi & total & -> & Hlo & Hhi & Hall); [done|].
  simpl.
  exists (if x <? lo then x else lo), (if hi <? x then x else hi).
  eexists. split.
  { by destruct (x <? lo), (hi <? x). }
  destruct (Z.ltb_spec x lo), (Z.ltb_spec hi x);
    (split; [by left || by right|]); (split; [by left || by right|]);
    (constructor; [lia|]); (eapply Forall_impl; [exact Hall|]);
    intros z Hz; simpl in Hz; lia.
Qed.

(** ** The order of the doubles *)

Lemma digits2_pos_bound (m : positive) :
  Z.pos m < 2 ^ Z.pos (digits2_pos m).
Proof.
  induction m as [m IH|m IH|]; simpl; [| |done];
    rewrite Pos2Z.inj_succ, Z.pow_succ_r by lia; lia.
Qed.

Lemma valid_finite (s : bool) (m : positive) (e : Z) :
  valid_binary (S754_finite s m e) = true ->
  -1074 <= e <= 971 /\ Z.pos m < 2 ^ 53.
Proof.
  unfold SpecFloat.valid_binary, bounded, canonical_mantissa, fexp, emin.
  intros [Hc He]%andb_true_iff.
  apply Z.eqb_eq in Hc. apply Z.leb_le in He.
  change prec with 53 in *. change emax with 1024 in *.
  pose proof (digits2_pos_bound m) as Hm.
  assert (Z.pos (digits2_pos m) <= 53) as Hd by lia.
  split; [lia|].
  eapply Z.lt_le_trans; [done|]. by apply Z.pow_le_mono_r.
Qed.

Lemma is_nan_Prim2SF (x : float) :
  is_nan x = false <-> Prim2SF x <> S754_nan.
Proof.
  unfold is_nan. rewrite FloatAxioms.eqb_spec. unfold SFeqb, SFcompare.
  destruct (Prim2SF x) as [s|s| |s m e]; simpl; try done.
  - by destruct s.
  - rewrite Z.compare_refl.
    change (Pos.compare_cont Eq m m) with (Pos.compare m m).
    rewrite Pos.compare_refl. by destruct s.
Qed.

(** On doubles other than NaN, [<] is the order of the keys. *)
Lemma key_ltb (x y : float) :
  is_nan x = false -> is_nan y = false ->
  (x <? y)%float = (key x <? key y).
Proof.
  intros Hx%is_nan_Prim2SF Hy%is_nan_Prim2SF.
  rewrite FloatAxioms.ltb_spec. unfold key, SFltb, SFcompare.
  pose proof (Prim2SF_valid x) as Vx. pose proof (Prim2SF_valid y) as Vy.
  destruct (Prim2SF x) as [s1|s1| |s1 m1 e1]; [| |done|];
    (destruct (Prim2SF y) as [s2|s2| |s2 m2 e2]; [| |done|]);
    try apply valid_finite in Vx as [He1 Hm1];
    try apply valid_finite in Vy as [He2 Hm2];
    remember (2 ^ 53) as P eqn:HP;
    assert (0 < P) as HP0 by (subst P; lia);
    assert (2048 * P <= 2 ^ 64) as HP1 by (subst P; lia);
    remember (2 ^ 64) as Q eqn:HQ; clear HP HQ;
    try change (Pos.compare_cont Eq m1 m2) with (Pos.compare m1 m2);
    repeat match goal with
           | s : bool |- _ => destruct s
           end; cbv zeta;
    try destruct (Z.compare_spec e1 e2);
    try destruct (Pos.compare_spec m1 m2);
    simpl; symmetry;
    first [ apply Z.ltb_lt | apply Z.ltb_ge ]; nia.
Qed.

(** No double other than NaN is above [Infinity] or below [-Infinity], and
    only these two reach their keys. *)
Lemma key_bounds (x : float) :
  is_nan x = false ->
  - 2 ^ 64 <= key x <= 2 ^ 64 /\
  (key x = 2 ^ 64 -> x = infinity) /\
  (key x = - 2 ^ 64 -> x = neg_infinity).
Proof.
  intros Hx%is_nan_Prim2SF. unfold key.
  pose proof (Prim2SF_valid x) as Vx.
  destruct (Prim2SF x) as [s|s| |s m e] eqn:Hsf; [| |done|].
  - split; [lia|]. split; intros; lia.
  - destruct s; (split; [lia|]); (split; [|]); intros; try lia;
      by apply Prim2SF_inj; rewrite Hsf.
  - apply valid_finite in Vx as [He Hm].
    remember (2 ^ 53) as P eqn:HP.
    assert (0 < P) as HP0 by (subst P; lia).
    assert (2048 * P <= 2 ^ 64) as HP1 by (subst P; lia).
    remember (2 ^ 64) as Q eqn:HQ. clear HP HQ.
    destruct s; cbv zeta; (split; [nia|]); split; intros; nia.
Qed.

Lemma ltb_irrefl (x : float) : (x <? x)%float = false.
Proof.
  rewrite FloatAxioms.ltb_spec. unfold SFltb, SFcompare.
  destruct (Prim2SF x) as [s|s| |s m e]; try done.
  - by destruct s.
  - rewrite Z.compare_refl.
    change (Pos.compare_cont Eq m m) with (Pos.compare m m).
    rewrite Pos.compare_refl. by destruct s.
Qed.

Lemma ltb_nan_l (y : float) : (nan <? y)%float = false.
Proof. by rewrite FloatAxioms.ltb_spec. Qed.

Lemma ltb_nan_r (x : float) : (x <? nan)%float = false.
Proof.
  rewrite FloatAxioms.ltb_spec. change (Prim2SF nan) with S754_nan.
  unfold SFltb, SFcompare. by destruct (Prim2SF x).
Qed.

(** ** The percentile ranks *)

(** The double nearest to an integer below [2 ^ 63] is the one the
    primitive conversion gives. *)
Lemma of_Z_of_uint63 (i : PrimInt63.int) : of_Z (Uint63.to_Z i) = of_uint63 i.
Proof. unfold of_Z. by rewrite <-of_uint63_spec, SF2Prim_Prim2SF. Qed.

(** *** Rounding of a product of doubles *)

Lemma digits2_pos_lower (m : positive) :
  2 ^ (Z.pos (digits2_pos m) - 1) <= Z.pos m.
Proof.
  induction m as [m IH|m IH|]; simpl; [| |done];
    rewrite Pos2Z.inj_succ;
    replace (Z.succ (Z.pos (digits2_pos m)) - 1)
      with (Z.succ (Z.pos (digits2_pos m) - 1)) by lia;
    rewrite Z.pow_succ_r by lia; lia.
Qed.

Lemma digits2_pos_unique (m : positive) (d : Z) :
  2 ^ (d - 1) <= Z.pos m < 2 ^ d -> Z.pos (digits2_pos m) = d.
Proof.
  intros [Hlo Hhi].
  pose proof (digits2_pos_lower m) as Hl.
  pose proof (digits2_pos_bound m) as Hu.
  set (d' := Z.pos (digits2_pos m)) in *.
  assert (0 < d) as Hd.
  { destruct d as [|d|d]; [simpl in Hhi; lia|lia|].
    rewrite Z.pow_neg_r in Hhi by lia. lia. }
  destruct (Z.lt_trichotomy d' d) as [Hlt|[->|Hgt]]; [|done|].
  - assert (2 ^ d' <= 2 ^ (d - 1)) by (apply Z.pow_le_mono_r; lia). lia.
  - assert (2 ^ d <= 2 ^ (d' - 1)) by (apply Z.pow_le_mono_r; lia). lia.
Qed.

Lemma shr_1_m (mrs : shr_record) :
  0 <= shr_m mrs -> shr_m (shr_1 mrs) = shr_m mrs / 2.
Proof.
  destruct mrs as [[|[p|p|]|p] r s]; simpl; intros H; try lia;
    by rewrite <-Z.div2_div.
Qed.

Lemma iter_pos_shr_1_m (p : positive) (mrs : shr_record) :
  0 <= shr_m mrs ->
  0 <= shr_m (SpecFloat.iter_pos shr_1 p mrs) /\
  shr_m (SpecFloat.iter_pos shr_1 p mrs) = shr_m mrs / 2 ^ Z.pos p.
Proof.
  revert mrs. induction p as [p IH|p IH|]; intros mrs Hm; simpl.
  - assert (0 <= shr_m (shr_1 mrs)) as H1.
    { rewrite shr_1_m by done. apply Z.div_pos; lia. }
    destruct (IH _ H1) as [H2 E2]. destruct (IH _ H2) as [H3 E3].
    split; [done|]. rewrite E3, E2, shr_1_m by done.
    assert (0 < 2 ^ Z.pos p) by (apply Z.pow_pos_nonneg; lia).
    rewrite !Z.div_div by lia. f_equal.
    rewrite (Pos2Z.inj_xI p).
    replace (2 * Z.pos p + 1) with (1 + Z.pos p + Z.pos p) by lia.
    rewrite !Z.pow_add_r, Z.pow_1_r by lia. lia.
  - destruct (IH _ Hm) as [H2 E2]. destruct (IH _ H2) as [H3 E3].
    split; [done|]. rewrite E3, E2.
    assert (0 < 2 ^ Z.pos p) by (apply Z.pow_pos_nonneg; lia).
    rewrite !Z.div_div by lia. f_equal.
    rewrite (Pos2Z.inj_xO p).
    replace (2 * Z.pos p) with (Z.pos p + Z.pos p) by lia.
    rewrite Z.pow_add_r by lia. lia.
  - rewrite shr_1_m by done. split; [apply Z.div_pos; lia|done].
Qed.

(** Rounding leaves a mantissa of 53 bits as it is. *)
Lemma binary_round_aux_canonical (m : positive) (e : Z) :
  2 ^ 52 <= Z.pos m < 2 ^ 53 -> -1074 <= e <= 971 ->
  binary_round_aux prec emax false (Z.pos m) e loc_Exact
  = S754_finite false m e.
Proof.
  intros Hm He.
  assert (shr_fexp prec emax (Z.pos m) e loc_Exact
          = ({| shr_m := Z.pos m; shr_r := false; shr_s := false |}, e)) as Hs.
  { unfold shr_fexp, fexp, emin, Zdigits2.
    rewrite (digits2_pos_unique m 53) by done.
    change prec with 53. change emax with 1024.
    replace (Z.max (53 + e - 53) (3 - 1024 - 53) - e) with 0 by lia. done. }
  unfold binary_round_aux. rewrite Hs. simpl. rewrite Hs. simpl.
  change prec with 53. change emax with 1024.
  by destruct (Z.leb_spec e (1024 - 53)); [|lia].
Qed.

(** Rounding a mantissa [M] of [D > 53] bits drops its [D - 53] low bits
    and adds at most one to what is left. *)
Lemma binary_round_aux_spec (M : positive) (E : Z) :
  let D := Z.pos (digits2_pos M) in
  53 < D -> -1074 <= D + E - 53 -> D + E - 53 < 971 ->
  exists (M' : positive) (e' : Z),
    binary_round_aux prec emax false (Z.pos M) E loc_Exact
    = S754_finite false M' e' /\
    (e' = D + E - 53 /\
       (Z.pos M' = Z.pos M / 2 ^ (D - 53) \/
        Z.pos M' = Z.pos M / 2 ^ (D - 53) + 1) \/
     e' = D + E - 53 + 1 /\ 2 * Z.pos M' = Z.pos M / 2 ^ (D - 53) + 1).
Proof.
  intros D HD Hlo Hhi.
  pose proof (digits2_pos_lower M) as Hl.
  pose proof (digits2_pos_bound M) as Hu. fold D in Hl, Hu.
  destruct (D - 53) as [|p|p] eqn:Hp; [lia| |lia].
  set (mrs := SpecFloat.iter_pos shr_1 p
                {| shr_m := Z.pos M; shr_r := false; shr_s := false |}).
  assert (shr_fexp prec emax (Z.pos M) E loc_Exact = (mrs, D + E - 53)) as Hs.
  { unfold shr_fexp, fexp, emin, Zdigits2. fold D.
    change prec with 53. change emax with 1024.
    replace (Z.max (D + E - 53) (3 - 1024 - 53) - E) with (Z.pos p) by lia.
    unfold shr. f_equal. lia. }
  destruct (iter_pos_shr_1_m p
              {| shr_m := Z.pos M; shr_r := false; shr_s := false |})
    as [_ Hq]; [simpl; lia|].
  fold mrs in Hq. simpl in Hq.
  set (q := Z.pos M / 2 ^ Z.pos p) in *.
  assert (0 < 2 ^ Z.pos p) as Hpp by (apply Z.pow_pos_nonneg; lia).
  assert (2 ^ 52 <= q < 2 ^ 53) as Hqb.
  { assert (2 ^ (D - 1) = 2 ^ Z.pos p * 2 ^ 52) as E1.
    { rewrite <-Z.pow_add_r by lia. f_equal. lia. }
    assert (2 ^ D = 2 ^ Z.pos p * 2 ^ 53) as E2.
    { rewrite <-Z.pow_add_r by lia. f_equal. lia. }
    split.
    - apply Z.div_le_lower_bound; [done|]. lia.
    - apply Z.div_lt_upper_bound; [done|]. lia. }
  set (r := round_nearest_even (shr_m mrs) (loc_of_shr_record mrs)).
  assert (r = q \/ r = q + 1) as Hr.
  { unfold r. rewrite Hq. unfold round_nearest_even, loc_of_shr_record.
    destruct mrs as [m0 [|] [|]]; simpl; try tauto.
    destruct (Z.even q); tauto. }
  unfold binary_round_aux. rewrite Hs. fold r.
  destruct (decide (r < 2 ^ 53)) as [Hr53|Hr53].
  - destruct r as [|r'|r'] eqn:Hr'; [lia| |lia].
    pose proof (binary_round_aux_canonical r' (D + E - 53)
                  ltac:(lia) ltac:(lia)) as Hc.
    unfold binary_round_aux in Hc.
    assert (shr_fexp prec emax (Z.pos r') (D + E - 53) loc_Exact
            = ({| shr_m := Z.pos r'; shr_r := false; shr_s := false |},
               D + E - 53)) as Hs2.
    { unfold shr_fexp, fexp, emin, Zdigits2.
      rewrite (digits2_pos_unique r' 53) by lia.
      change prec with 53. change emax with 1024.
      replace (Z.max (53 + (D + E - 53) - 53) (3 - 1024 - 53) - (D + E - 53))
        with 0 by lia.
      done. }
    rewrite Hs2. simpl.
    change prec with 53. change emax with 1024.
    destruct (Z.leb_spec (D + E - 53) (1024 - 53)); [|lia].
    exists r', (D + E - 53). split; [done|]. left. split; [done|].
    destruct Hr as [Hr|Hr]; [left|right]; lia.
  - assert (r = 2 ^ 53) as Hr2 by lia.
    assert (q + 1 = 2 ^ 53) as Hq2 by lia.
    rewrite Hr2.
    change (2 ^ 53) with (Z.pos (2 ^ 53)).
    assert (shr_fexp prec emax (Z.pos (2 ^ 53)) (D + E - 53) loc_Exact
            = ({| shr_m := Z.pos (2 ^ 52); shr_r := false; shr_s := false |},
               D + E - 53 + 1)) as Hs2.
    { unfold shr_fexp, fexp, emin, Zdigits2.
      change (Z.pos (digits2_pos (2 ^ 53))) with 54.
      change prec with 53. change emax with 1024.
      replace (Z.max (54 + (D + E - 53) - 53) (3 - 1024 - 53) - (D + E - 53))
        with 1 by lia.
      done. }
    rewrite Hs2. simpl.
    change prec with 53. change emax with 1024.
    destruct (Z.leb_spec (D + E - 53 + 1) (1024 - 53)); [|lia].
    exists (2 ^ 52)%positive, (D + E - 53 + 1). split; [done|]. right.
    split; [done|]. rewrite Hq2. done.
Qed.

(** Adding one to a quotient does not reach the next multiple when the
    remainder leaves room for it. *)
Lemma div_succ_div (M K p : Z) :
  0 <= M -> 0 <= p <= K -> M mod 2 ^ K + 2 ^ p < 2 ^ K ->
  (M / 2 ^ p + 1) / 2 ^ (K - p) = M / 2 ^ K /\
  M / 2 ^ p / 2 ^ (K - p) = M / 2 ^ K.
Proof.
  intros HM Hp Hroom.
  assert (0 < 2 ^ p) as Ha by (apply Z.pow_pos_nonneg; lia).
  assert (0 < 2 ^ (K - p)) as Hb by (apply Z.pow_pos_nonneg; lia).
  assert (2 ^ K = 2 ^ p * 2 ^ (K - p)) as HK.
  { rewrite <-Z.pow_add_r by lia. f_equal. lia. }
  assert (M / 2 ^ p / 2 ^ (K - p) = M / 2 ^ K) as Hdd.
  { rewrite Z.div_div by lia. by rewrite HK. }
  split; [|done].
  pose proof (Z.div_mod M (2 ^ K) ltac:(lia)) as HMK.
  pose proof (Z.div_mod M (2 ^ p) ltac:(lia)) as HMp.
  pose proof (Z.mod_pos_bound M (2 ^ p) ltac:(lia)) as Hrp.
  pose proof (Z.mod_pos_bound M (2 ^ K) ltac:(lia)) as HrK.
  set (n := M / 2 ^ K) in *. set (R := M mod 2 ^ K) in *.
  set (q := M / 2 ^ p) in *. set (rp := M mod 2 ^ p) in *.
  set (a := 2 ^ p) in *. set (b := 2 ^ (K - p)) in *.
  symmetry. apply (Z.div_unique _ _ _ (q + 1 - b * n)); [|lia].
  left. rewrite HK in HMK, Hroom, HrK. nia.
Qed.

(** [Math.floor] of a rounded product: the integer part of the exact
    product, or the next integer; the former when the fractional part of
    the exact product stays one unit in the last place under 1. *)
Lemma floor_binary_round_aux (M : positive) (K : Z) :
  let D := Z.pos (digits2_pos M) in
  let fl :=
    match binary_round_aux prec emax false (Z.pos M) (- K) loc_Exact with
    | S754_finite s m e => Z.shiftl (if s then Z.neg m else Z.pos m) e
    | _ => 0
    end in
  53 < D -> D - 53 <= K -> K <= 1000 ->
  Z.pos M / 2 ^ K <= fl <= Z.pos M / 2 ^ K + 1 /\
  (Z.pos M mod 2 ^ K + 2 ^ (D - 53) < 2 ^ K -> fl = Z.pos M / 2 ^ K).
Proof.
  intros D fl HD HK HK'.
  assert (exists b, 0 <= b <= 1 /\
            fl = (Z.pos M / 2 ^ (D - 53) + b) / 2 ^ (K - (D - 53))) as Hfl.
  { unfold fl.
    destruct (binary_round_aux_spec M (- K)) as (M' & e' & -> & Hcase);
      [done|fold D; lia|fold D; lia|].
    fold D in Hcase.
    destruct Hcase as [[-> [HM'|HM']]|[-> HM']].
    - exists 0. split; [lia|]. rewrite Z.shiftl_div_pow2 by lia. rewrite HM'.
      replace (- (D + - K - 53)) with (K - (D - 53)) by lia.
      by rewrite Z.add_0_r.
    - exists 1. split; [lia|]. rewrite Z.shiftl_div_pow2 by lia. rewrite HM'.
      replace (- (D + - K - 53)) with (K - (D - 53)) by lia. done.
    - exists 1. split; [lia|]. rewrite <-HM'.
      destruct (decide (D - 53 = K)) as [Heq|Hne].
      + replace (D + - K - 53 + 1) with 1 by lia.
        rewrite Heq, Z.sub_diag, Z.shiftl_mul_pow2 by lia.
        change (2 ^ 0) with 1. rewrite Z.div_1_r. lia.
      + rewrite Z.shiftl_div_pow2 by lia.
        replace (K - (D - 53)) with (1 + - (D + - K - 53 + 1)) by lia.
        rewrite Z.pow_add_r, Z.pow_1_r by lia.
        rewrite Z.div_mul_cancel_l; [done| |lia].
        apply Z.pow_nonzero; lia. }
  destruct Hfl as (b & Hb & ->).
  assert (0 < 2 ^ (D - 53)) as Ha by (apply Z.pow_pos_nonneg; lia).
  assert (0 < 2 ^ (K - (D - 53))) as HB by (apply Z.pow_pos_nonneg; lia).
  assert (Z.pos M / 2 ^ (D - 53) / 2 ^ (K - (D - 53)) = Z.pos M / 2 ^ K)
    as Hdd.
  { rewrite Z.div_div by lia. f_equal.
    rewrite <-Z.pow_add_r by lia. f_equal. lia. }
  set (q := Z.pos M / 2 ^ (D - 53)) in *.
  split.
  - rewrite <-Hdd. split.
    + apply Z.div_le_mono; lia.
    + etrans; [apply (Z.div_le_mono _ (q + 1 * 2 ^ (K - (D - 53)))); lia|].
      rewrite Z.div_add by lia. lia.
  - intros Hroom.
    destruct (div_succ_div (Z.pos M) K (D - 53)) as [Hsucc _];
      [lia|lia|done|].
    fold q in Hsucc.
    destruct (decide (b = 0)) as [->|]; [by rewrite Z.add_0_r|].
    by replace b with 1 by lia.
Qed.

(** The double nearest to a positive integer below [2 ^ 53] is that
    integer, with its mantissa brought to 53 bits. *)
Lemma Prim2SF_of_Z (m : positive) :
  Z.pos m < 2 ^ 53 ->
  exists (mz : positive) (s : Z),
    0 <= s <= 52 /\ Z.pos mz = Z.pos m * 2 ^ s /\
    2 ^ 52 <= Z.pos mz < 2 ^ 53 /\
    Prim2SF (of_Z (Z.pos m)) = S754_finite false mz (- s).
Proof.
  intros Hm.
  assert (Uint63.to_Z (Uint63.of_Z (Z.pos m)) = Z.pos m) as Hi.
  { rewrite Uint63.of_Z_spec. apply Z.mod_small.
    change Uint63.wB with (2 ^ 63). lia. }
  assert (Prim2SF (of_Z (Z.pos m))
          = binary_normalize prec emax (Z.pos m) 0 false) as ->.
  { rewrite <-Hi at 1. rewrite of_Z_of_uint63, of_uint63_spec. by rewrite Hi. }
  pose proof (digits2_pos_lower m) as Hl.
  pose proof (digits2_pos_bound m) as Hu.
  set (d := Z.pos (digits2_pos m)) in *.
  assert (1 <= d <= 53) as Hd.
  { split; [unfold d; lia|].
    destruct (Z.le_gt_cases d 53); [done|].
    assert (2 ^ 53 <= 2 ^ (d - 1)) by (apply Z.pow_le_mono_r; lia). lia. }
  unfold binary_normalize, binary_round, shl_align, fexp, emin. fold d.
  change prec with 53. change emax with 1024.
  replace (Z.max (d + 0 - 53) (3 - 1024 - 53) - 0) with (d - 53) by lia.
  replace (Z.max (d + 0 - 53) (3 - 1024 - 53)) with (d - 53) by lia.
  destruct (d - 53) as [|s|s] eqn:Hs; [|lia|].
  - assert (d = 53) as Hd53 by lia. rewrite Hd53 in Hl.
    exists m, 0. split; [lia|]. split; [lia|]. split; [lia|].
    apply binary_round_aux_canonical; lia.
  - change (Pos.iter xO m s) with (shift_pos s m).
    pose proof (shift_pos_correct s m) as Hsh.
    rewrite Z.pow_pos_fold in Hsh.
    assert (2 ^ (d - 1) * 2 ^ Z.pos s = 2 ^ 52) as E1.
    { rewrite <-Z.pow_add_r by lia. f_equal. lia. }
    assert (2 ^ d * 2 ^ Z.pos s = 2 ^ 53) as E2.
    { rewrite <-Z.pow_add_r by lia. f_equal. lia. }
    assert (0 < 2 ^ Z.pos s) by (apply Z.pow_pos_nonneg; lia).
    exists (shift_pos s m), (Z.pos s).
    split; [lia|]. split; [lia|].
    assert (2 ^ 52 <= Z.pos (shift_pos s m) < 2 ^ 53) as Hb by nia.
    split; [done|].
    apply binary_round_aux_canonical; [done|lia].
Qed.

(** [Math.floor] of the product of a positive integer [m] and a double
    [c = Mc * 2 ^ (- K0)]: the integer part of the exact product, or the
    next integer; the former when the fractional part of the exact product
    stays one unit in the last place under 1. *)
Lemma floor_of_Z_mul (m : positive) (c : float) (Mc : positive) (K0 : Z) :
  Prim2SF c = S754_finite false Mc (- K0) ->
  2 ^ 52 <= Z.pos Mc < 2 ^ 53 -> 53 <= K0 <= 900 ->
  Z.pos m < 2 ^ 53 ->
  Z.pos m * Z.pos Mc / 2 ^ K0 <= floor (of_Z (Z.pos m) * c)
    <= Z.pos m * Z.pos Mc / 2 ^ K0 + 1 /\
  ((Z.pos m * Z.pos Mc) mod 2 ^ K0 * 2 ^ 52 + Z.pos m * Z.pos Mc
     < 2 ^ K0 * 2 ^ 52 ->
   floor (of_Z (Z.pos m) * c) = Z.pos m * Z.pos Mc / 2 ^ K0).
Proof.
  intros Hc HMc HK0 Hm.
  destruct (Prim2SF_of_Z m Hm) as (mz & s & Hs & Hmz & Hmzb & Hsf).
  unfold floor. rewrite mul_spec, Hsf, Hc. unfold SF64mul, SFmul.
  change (xorb false false) with false.
  replace (- s + - K0) with (- (s + K0)) by lia.
  pose proof (digits2_pos_lower (mz * Mc)) as Hl.
  pose proof (digits2_pos_bound (mz * Mc)) as Hu.
  pose proof (floor_binary_round_aux (mz * Mc) (s + K0)) as Hfl.
  cbv zeta in Hfl.
  set (D := Z.pos (digits2_pos (mz * Mc))) in *.
  rewrite Pos2Z.inj_mul in Hl, Hu.
  assert (2 ^ 104 <= Z.pos mz * Z.pos Mc < 2 ^ 106) as HM.
  { change (2 ^ 104) with (2 ^ 52 * 2 ^ 52).
    change (2 ^ 106) with (2 ^ 53 * 2 ^ 53). nia. }
  assert (105 <= D <= 106) as HD.
  { split.
    - destruct (Z.le_gt_cases 105 D); [done|].
      assert (2 ^ D <= 2 ^ 104) by (apply Z.pow_le_mono_r; lia). lia.
    - destruct (Z.le_gt_cases D 106); [done|].
      assert (2 ^ 106 <= 2 ^ (D - 1)) by (apply Z.pow_le_mono_r; lia). lia. }
  assert (0 < 2 ^ s) as Hps by (apply Z.pow_pos_nonneg; lia).
  assert (0 < 2 ^ K0) as HpK by (apply Z.pow_pos_nonneg; lia).
  assert (2 ^ (s + K0) = 2 ^ K0 * 2 ^ s) as HsK.
  { rewrite <-Z.pow_add_r by lia. f_equal. lia. }
  assert (Z.pos (mz * Mc) = Z.pos m * Z.pos Mc * 2 ^ s) as HX.
  { rewrite Pos2Z.inj_mul, Hmz. lia. }
  assert (Z.pos (mz * Mc) / 2 ^ (s + K0) = Z.pos m * Z.pos Mc / 2 ^ K0)
    as Hdiv.
  { rewrite HX, HsK. apply Z.div_mul_cancel_r; lia. }
  destruct Hfl as [Hnear Hexact]; [lia..|].
  rewrite Hdiv in Hnear, Hexact.
  split; [done|]. intros Hroom. apply Hexact.
  rewrite HX, HsK.
  rewrite Z.mul_mod_distr_r by lia.
  assert (2 ^ (D - 53) * 2 ^ 52 = 2 ^ (D - 1)) as HP.
  { rewrite <-Z.pow_add_r by lia. f_equal. lia. }
  rewrite <-Pos2Z.inj_mul, HX in Hl.
  set (X := Z.pos m * Z.pos Mc) in *.
  set (R0 := X mod 2 ^ K0) in *.
  set (P := 2 ^ (D - 53)) in *.
  set (S := 2 ^ s) in *. set (C := 2 ^ K0) in *.
  assert (R0 * 2 ^ 52 * S + X * S < C * 2 ^ 52 * S) as H1 by nia.
  assert ((R0 * S + P) * 2 ^ 52 < C * S * 2 ^ 52) as H2 by nia.
  apply Z.mul_lt_mono_pos_r in H2; lia.
Qed.

(** For every count of positive samples up to [2 ^ 40] the two ranks
    computed on doubles, [floor(m * 0.0005)] and [floor(m * (1 - 0.0005))],
    are [floor(m / 2000)] and [floor(1999 * m / 2000)]: the doubles [0.0005]
    and [1 - 0.0005] are [4611686018427388 * 2 ^ -63] and
    [9002695655113622 * 2 ^ -53], a little above [1 / 2000] and
    [1999 / 2000]. *)
Lemma cutoffLocations_exact (m : Z) :
  0 <= m <= 2 ^ 40 ->
  floor (of_Z m * 0.0005)%float = m / 2000 /\
  floor (of_Z m * (1 - 0.0005))%float = 1999 * m / 2000.
Proof.
  intros Hm. destruct m as [|m|m]; [by vm_compute| |lia].
  change (2 ^ 40) with 1099511627776 in Hm.
  split.
  - destruct (floor_of_Z_mul m 0.0005 4611686018427388 63) as [_ ->];
      [reflexivity|done|done|lia| |].
    + change (2 ^ 63) with 9223372036854775808.
      change (2 ^ 52) with 4503599627370496.
      Z.div_mod_to_equations. lia.
    + change (2 ^ 63) with 9223372036854775808.
      Z.div_mod_to_equations. lia.
  - destruct (floor_of_Z_mul m (1 - 0.0005) 9002695655113622 53) as [_ ->];
      [reflexivity|done|done|lia| |].
    + change (2 ^ 53) with 9007199254740992.
      change (2 ^ 52) with 4503599627370496.
      Z.div_mod_to_equations. lia.
    + change (2 ^ 53) with 9007199254740992.
      Z.div_mod_to_equations. lia.
Qed.

(** For every count of positive samples that a typed array can hold, the
    two ranks computed on doubles are ranks of the positive samples. *)
Lemma cutoffLocations_small (m : Z) :
  0 < m < 2 ^ 53 ->
  0 <= bottomCutoffLocation m <= topCutoffLocation m /\
  topCutoffLocation m < m.
Proof.
  intros Hm. unfold bottomCutoffLocation, topCutoffLocation, cutoffPercentile.
  destruct (decide (m <= 2 ^ 40)) as [Hsmall|Hlarge].
  { destruct (cutoffLocations_exact m) as [-> ->]; [lia|].
    pose proof (Z.div_mod m 2000 ltac:(lia)).
    pose proof (Z.mod_pos_bound m 2000 ltac:(lia)).
    pose proof (Z.div_mod (1999 * m) 2000 ltac:(lia)).
    pose proof (Z.mod_pos_bound (1999 * m) 2000 ltac:(lia)).
    lia. }
  destruct m as [|m|m]; [lia| |lia].
  destruct (floor_of_Z_mul m 0.0005 4611686018427388 63) as [Hb _];
    [reflexivity|done|done|lia|].
  destruct (floor_of_Z_mul m (1 - 0.0005) 9002695655113622 53) as [Ht _];
    [reflexivity|done|done|lia|].
  revert Hb Ht Hm Hlarge.
  generalize (floor (of_Z (Z.pos m) * 0.0005)).
  generalize (floor (of_Z (Z.pos m) * (1 - 0.0005))).
  intros top bottom.
  change (2 ^ 63) with 9223372036854775808.
  change (2 ^ 53) with 9007199254740992.
  change (2 ^ 40) with 1099511627776.
  intros Hb Ht Hm Hlarge.
  Z.div_mod_to_equations. lia.
Qed.

(** Far beyond that, the rounding of the product shows: for
    [m = 8796093022001], a little above [2 ^ 43], the rank
    [floor(m * (1 - 0.0005))] computed on doubles is one more than
    [floor(1999 * m / 2000)]. *)
Lemma cutoffLocations_inexact :
  floor (of_Z 8796093022001 * (1 - 0.0005))%float
  = 1999 * 8796093022001 / 2000 + 1.
Proof. vm_compute. reflexivity. Qed.

Lemma topCutoffLocation_0 : topCutoffLocation 0 = 0.
Proof. vm_compute. reflexivity. Qed.

(** ** The run of [getChannelStats] *)

Lemma positives_nonneg (arr : list Z) : Forall (fun x => 0 <= x) (positives arr).
Proof.
  apply Forall_forall. intros x Hx%list_elem_of_filter. lia.
Qed.

(** The five selections of a call return, whatever the buffer, and the
    statistics are read off the arrays they leave. *)
Lemma getChannelStats_run (arr : list Z) :
  let n := Z.of_nat (length arr) in
  let m := Z.of_nat (length (positives arr)) in
  exists stats arr1 arr2 arr3 cut1 cut2,
    getChannelStats arr = Some (stats, arr3) /\
    quickselect arr (n / 2) None None = Some arr1 /\
    quickselect arr1 (n / 4) (Some 0) (Some (n / 2)) = Some arr2 /\
    quickselect arr2 (3 * (n / 4)) (Some (n / 2)) (Some (n - 1)) = Some arr3 /\
    quickselect (positives arr3) (topCutoffLocation m) None None = Some cut1 /\
    quickselect cut1 (bottomCutoffLocation m) (Some 0)
                (Some (topCutoffLocation m)) = Some cut2 /\
    arr1 ≡ₚ arr /\ arr2 ≡ₚ arr /\ arr3 ≡ₚ arr /\
    median stats = get arr1 (n / 2) /\
    q1 stats = get arr2 (n / 4) /\
    q3 stats = get arr3 (3 * (n / 4)) /\
    domain stats = (range_pass arr).1 /\
    contrastLimits stats =
      (or0 (get cut2 (bottomCutoffLocation m)),
       or0 (get cut2 (topCutoffLocation m))).
Proof.
  intros n m.
  assert (Hn : Z.of_nat (length arr) = n) by done.
  assert (Hm : Z.of_nat (length (positives arr)) = m) by done.
  assert (0 <= n) by lia. assert (0 <= m) by lia.
  clearbody n m.
  assert (Hdiv : 0 <= n / 4 /\ n / 4 <= n / 2 /\ 0 <= 3 * (n / 4) /\
                 (0 < n -> n / 2 < n /\ 3 * (n / 4) < n) /\
                 (n = 0 -> n / 2 = 0)).
  { pose proof (Z.div_mod n 4 ltac:(lia)).
    pose proof (Z.mod_pos_bound n 4 ltac:(lia)).
    pose proof (Z.div_mod n 2 ltac:(lia)).
    pose proof (Z.mod_pos_bound n 2 ltac:(lia)).
    lia. }
  destruct (quickselect_returns arr (n / 2) None None) as (arr1 & Hq1 & Hp1).
  { simpl. rewrite Hn. lia. }
  assert (Hn1 : Z.of_nat (length arr1) = n) by (by rewrite Hp1).
  destruct (quickselect_returns arr1 (n / 4) (Some 0) (Some (n / 2)))
    as (arr2 & Hq2 & Hp2).
  { simpl. rewrite Hn1. lia. }
  assert (Hn2 : Z.of_nat (length arr2) = n) by (by rewrite Hp2).
  destruct (quickselect_returns arr2 (3 * (n / 4)) (Some (n / 2)) (Some (n - 1)))
    as (arr3 & Hq3 & Hp3).
  { simpl. rewrite Hn2. lia. }
  assert (Hpos : positives arr3 ≡ₚ positives arr).
  { unfold positives. by rewrite Hp3, Hp2, Hp1. }
  assert (Hm3 : Z.of_nat (length (positives arr3)) = m).
  { by rewrite Hpos. }
  unfold getChannelStats. rewrite Hn.
  destruct (range_pass arr) as [[mn mx] total] eqn:Hrp.
  rewrite Hq1. simpl. rewrite Hq2. simpl. rewrite Hq3. simpl.
  fold (positives arr3). rewrite Hm3.
  remember (topCutoffLocation m) as top eqn:Htop.
  remember (bottomCutoffLocation m) as bottom eqn:Hbottom.
  destruct (quickselect_total (positives arr3) top None None)
    as (cut1 & Hq4 & Hall1); [apply positives_nonneg|done|].
  destruct (quickselect_total cut1 bottom (Some 0) (Some top))
    as (cut2 & Hq5 & _); [done|done|].
  rewrite Hq4. simpl. rewrite Hq5. simpl.
  eexists _, arr1, arr2, arr3, cut1, cut2.
  split; [done|]. do 5 (split; [done|]).
  split; [done|]. split; [by rewrite Hp2|]. split; [by rewrite Hp3, Hp2|].
  done.
Qed.

(** ** [getChannelStats] on buffers of fewer than three samples *)

Lemma getChannelStats_empty_returns :
  exists stats arr,
    getChannelStats [] = Some (stats, arr) /\ mean stats = nan.
Proof. eexists _, _. vm_compute. split; reflexivity. Qed.

(** C2, as the code has it: on an empty buffer [getChannelStats] does not
    fail; it returns NaN for the mean and the standard deviation, [undefined]
    for the median and the quartiles, the domain [[Infinity, -Infinity]] and
    the contrast limits [[0, 0]]. *)
Theorem getChannelStats_empty :
  getChannelStats []
  = Some ({| mean := nan; sd := nan; q1 := None; q3 := None; median := None;
             domain := (PosInf, NegInf); contrastLimits := (0, 0) |}, []).
Proof. vm_compute. reflexivity. Qed.

(** C1: on the two-sample buffer [[1, 2]] the median returned is 2 and the
    third quartile returned is 1: the rank [3 * floor(2 / 4) = 0] lies left of
    the range [[1, 1]] handed to the third selection, which therefore does
    nothing, and [q3] is read from index 0. *)
Theorem getChannelStats_two_samples :
  exists stats arr,
    getChannelStats [1; 2] = Some (stats, arr) /\
    q1 stats = Some 1 /\ median stats = Some 2 /\ q3 stats = Some 1.
Proof. eexists _, _. vm_compute. repeat split; reflexivity. Qed.

(** ** [getChannelStats] on every buffer *)


(** On a non-empty buffer of an integer typed array the domain returned is
    the pair of the least and the greatest sample. *)
Lemma getChannelStats_domain_int (arr : list Z) :
  arr <> [] ->
  exists stats arr' lo hi,
    getChannelStats arr = Some (stats, arr') /\
    domain stats = (Fin lo, Fin hi) /\
    lo ∈ arr /\ hi ∈ arr /\ Forall (fun x => lo <= x <= hi) arr.
Proof.
  intros Hne.
  destruct (getChannelStats_run arr)
    as (stats & _ & _ & arr3 & _ & _ & Heq & _ & _ & _ & _ & _ & _ & _ & _ &
        _ & _ & _ & Hdom & _).
  destruct (range_pass_spec arr Hne) as (lo & hi & total & Hrp & Hlo & Hhi & Hall).
  exists stats, arr3, lo, hi. rewrite Hdom, Hrp. done.
Qed.

(** ** Buffers of doubles *)

(** *** The first loop of [getChannelStats] on doubles *)

Lemma f64_range_pass_spec (arr : list float) :
  no_NaN arr ->
  exists lo hi total,
    Float64.range_pass arr = (lo, hi, total) /\
    is_nan lo = false /\ is_nan hi = false /\
    (arr = [] /\ lo = infinity /\ hi = neg_infinity \/
     least_sample lo arr /\ greatest_sample hi arr).
Proof.
  induction 1 as [|x arr Hx Harr IH].
  { eexists _, _, _. split; [done|]. split; [done|]. split; [done|]. by left. }
  destruct IH as (lo & hi & total & Heq & Hlo & Hhi & IH).
  unfold Float64.range_pass in *. simpl. rewrite Heq. simpl.
  eexists _, _, _. split; [done|].
  split; [by destruct (x <? lo)%float|].
  split; [by destruct (hi <? x)%float|].
  right.
  pose proof (key_bounds x Hx) as (Hkx & Hxinf & Hxninf).
  destruct IH as [(-> & -> & ->)|[[Hlom Hlob] [Him Hhib]]].
  - assert ((if (x <? infinity)%float then x else infinity) = x) as ->.
    { rewrite (key_ltb x infinity) by done.
      destruct (Z.ltb_spec (key x) (key infinity)) as [|Hge]; [done|].
      symmetry. apply Hxinf. change (key infinity) with (2 ^ 64) in Hge. lia. }
    assert ((if (neg_infinity <? x)%float then x else neg_infinity) = x) as ->.
    { rewrite (key_ltb neg_infinity x) by done.
      destruct (Z.ltb_spec (key neg_infinity) (key x)) as [|Hge]; [done|].
      symmetry. apply Hxninf.
      change (key neg_infinity) with (- 2 ^ 64) in Hge. lia. }
    split; (split; [left|]); repeat constructor; apply ltb_irrefl.
  - split.
    + destruct (x <? lo)%float eqn:Hlt.
      * split; [left|]. constructor; [apply ltb_irrefl|].
        rewrite key_ltb in Hlt by done. apply Z.ltb_lt in Hlt.
        apply Forall_forall. intros y Hyin.
        pose proof (proj1 (Forall_forall _ _) Harr y Hyin) as Hy.
        pose proof (proj1 (Forall_forall _ _) Hlob y Hyin) as Hyl.
        simpl in Hy, Hyl. rewrite key_ltb in Hyl |- * by done.
        apply Z.ltb_ge in Hyl. apply Z.ltb_ge. lia.
      * split; [by right|]. by constructor.
    + destruct (hi <? x)%float eqn:Hlt.
      * split; [left|]. constructor; [apply ltb_irrefl|].
        rewrite key_ltb in Hlt by done. apply Z.ltb_lt in Hlt.
        apply Forall_forall. intros y Hyin.
        pose proof (proj1 (Forall_forall _ _) Harr y Hyin) as Hy.
        pose proof (proj1 (Forall_forall _ _) Hhib y Hyin) as Hyl.
        simpl in Hy, Hyl. rewrite key_ltb in Hyl |- * by done.
        apply Z.ltb_ge in Hyl. apply Z.ltb_ge. lia.
      * split; [by right|]. by constructor.
Qed.

(** *** The selections on doubles *)

Lemma f64_get_Some_bounds (arr : list float) i v :
  Float64.get arr i = Some v -> 0 <= i < Z.of_nat (length arr).
Proof.
  unfold Float64.get. destruct (Z.leb_spec 0 i); [|done].
  intros Hv%lookup_lt_Some. lia.
Qed.

Lemma f64_get_out_of_bounds (arr : list float) i :
  ~ (0 <= i < Z.of_nat (length arr)) -> Float64.get arr i = None.
Proof.
  intros Hi. destruct (Float64.get arr i) as [v|] eqn:Hv; [|done].
  by apply f64_get_Some_bounds in Hv.
Qed.

Lemma f64_length_set (arr : list float) i v :
  length (Float64.set arr i v) = length arr.
Proof. unfold Float64.set. case_match; [apply length_insert|done]. Qed.

Lemma f64_length_swap (arr : list float) i j :
  length (Float64.swap arr i j) = length arr.
Proof. unfold Float64.swap. by rewrite !f64_length_set. Qed.

Lemma f64_get_set_ne (arr : list float) i j v :
  i <> j -> Float64.get (Float64.set arr i v) j = Float64.get arr j.
Proof.
  intros Hij. unfold Float64.get, Float64.set.
  destruct (Z.leb_spec 0 j); [|done].
  destruct (Z.leb_spec 0 i); [|done].
  apply list_lookup_insert_ne. lia.
Qed.

Lemma f64_get_set_same (arr : list float) i v :
  Float64.get (Float64.set arr i v) i =
    if decide (0 <= i < Z.of_nat (length arr))
    then Some (default nan v) else None.
Proof.
  case_decide as Hi.
  - unfold Float64.get, Float64.set. destruct (Z.leb_spec 0 i); [|lia].
    apply list_lookup_insert_eq. lia.
  - apply f64_get_out_of_bounds. by rewrite f64_length_set.
Qed.

Lemma f64_get_swap (arr : list float) i j p :
  Float64.get (Float64.swap arr i j) p =
    if decide (p = j) then
      if decide (0 <= j < Z.of_nat (length arr))
      then Some (default nan (Float64.get arr i)) else None
    else if decide (p = i) then
      if decide (0 <= i < Z.of_nat (length arr))
      then Some (default nan (Float64.get arr j)) else None
    else Float64.get arr p.
Proof.
  unfold Float64.swap. destruct (decide (p = j)) as [->|Hpj].
  - rewrite f64_get_set_same, f64_length_set. done.
  - rewrite f64_get_set_ne by done. destruct (decide (p = i)) as [->|Hpi].
    + apply f64_get_set_same.
    + by rewrite f64_get_set_ne.
Qed.

Lemma f64_compare_undefined (a : option float) :
  Float64.defaultCompare a None = 0.
Proof. unfold Float64.defaultCompare, Float64.lt. by destruct a. Qed.

Lemma f64_compare_undefined_l (t : option float) :
  Float64.defaultCompare None t = 0.
Proof. unfold Float64.defaultCompare, Float64.lt. by destruct t. Qed.

Lemma f64_compare_NaN_l (t : option float) :
  Float64.defaultCompare (Some nan) t = 0.
Proof.
  unfold Float64.defaultCompare, Float64.lt. destruct t as [y|]; [|done].
  by rewrite ltb_nan_l, ltb_nan_r.
Qed.

Lemma f64_compare_refl (a : option float) :
  (0 <? Float64.defaultCompare a a) = false.
Proof.
  unfold Float64.defaultCompare, Float64.lt. destruct a as [v|]; [|done].
  by rewrite ltb_irrefl.
Qed.

Lemma f64_scan_up_ge (n : nat) arr t i : i <= Float64.scan_up n arr t i.
Proof.
  revert i. induction n as [|n IH]; intros i; simpl; [lia|].
  case_match; [|lia]. specialize (IH (i + 1)). lia.
Qed.

Lemma f64_scan_down_le (n : nat) arr t j : Float64.scan_down n arr t j <= j.
Proof.
  revert j. induction n as [|n IH]; intros j; simpl; [lia|].
  case_match; [|lia]. specialize (IH (j - 1)). lia.
Qed.

Lemma f64_scan_down_stop (n : nat) arr t j stop :
  stop <= j -> (0 <? Float64.defaultCompare (Float64.get arr stop) t) = false ->
  stop <= Float64.scan_down n arr t j.
Proof.
  revert j. induction n as [|n IH]; intros j Hj Hstop; simpl; [done|].
  destruct (0 <? Float64.defaultCompare (Float64.get arr j) t) eqn:Hc; [|done].
  apply IH; [|done]. destruct (decide (j = stop)) as [->|]; [congruence|lia].
Qed.

Lemma f64_partition_loop_le (n : nat) arr t i j :
  (Float64.partition_loop n arr t i j).2 <= j.
Proof.
  revert arr i j. induction n as [|n IH]; intros arr i j; simpl.
  { by destruct (i <? j). }
  destruct (i <? j); [|done]. etrans; [apply IH|].
  pose proof (f64_scan_down_le (length (Float64.swap arr i j))
                (Float64.swap arr i j) t (j - 1)).
  lia.
Qed.

Lemma f64_compare_defined (a t : option float) :
  Float64.defaultCompare a t <> 0 -> exists v, a = Some v.
Proof. destruct a; [eauto|]. by rewrite f64_compare_undefined_l. Qed.

(** The fuel of the two scans and of the partition loop lets each of them
    run until its own test fails. *)
Lemma f64_scan_up_exits_fuel (n : nat) arr t i :
  (0 <= i -> Z.of_nat (length arr) - i <= Z.of_nat n) ->
  (Float64.defaultCompare
     (Float64.get arr (Float64.scan_up n arr t i)) t <? 0) = false.
Proof.
  revert i. induction n as [|n IH]; intros i Hn; simpl.
  - apply not_true_is_false. intros Hc%Z.ltb_lt.
    destruct (f64_compare_defined (Float64.get arr i) t) as [v Hv]; [lia|].
    apply f64_get_Some_bounds in Hv. specialize (Hn ltac:(lia)). lia.
  - destruct (Float64.defaultCompare (Float64.get arr i) t <? 0) eqn:Hc;
      [|done].
    apply IH. intros Hi. apply Z.ltb_lt in Hc.
    destruct (f64_compare_defined (Float64.get arr i) t)
      as [v Hv%f64_get_Some_bounds]; [lia|].
    specialize (Hn ltac:(lia)). lia.
Qed.

Lemma f64_scan_up_exits arr t i :
  (Float64.defaultCompare
     (Float64.get arr (Float64.scan_up (length arr) arr t i)) t <? 0) = false.
Proof.
  destruct (decide (0 <= i)) as [Hi|Hi].
  - apply f64_scan_up_exits_fuel. lia.
  - destruct arr as [|x arr]; simpl.
    + rewrite f64_get_out_of_bounds by (simpl; lia).
      by rewrite f64_compare_undefined_l.
    + rewrite (f64_get_out_of_bounds _ i) by lia.
      rewrite f64_compare_undefined_l. simpl.
      rewrite f64_get_out_of_bounds by lia.
      by rewrite f64_compare_undefined_l.
Qed.

Lemma f64_scan_down_exits_fuel (n : nat) arr t j :
  (j < Z.of_nat (length arr) -> j + 1 <= Z.of_nat n) ->
  (0 <? Float64.defaultCompare
          (Float64.get arr (Float64.scan_down n arr t j)) t) = false.
Proof.
  revert j. induction n as [|n IH]; intros j Hn; simpl.
  - apply not_true_is_false. intros Hc%Z.ltb_lt.
    destruct (f64_compare_defined (Float64.get arr j) t) as [v Hv]; [lia|].
    apply f64_get_Some_bounds in Hv. specialize (Hn ltac:(lia)). lia.
  - destruct (0 <? Float64.defaultCompare (Float64.get arr j) t) eqn:Hc;
      [|done].
    apply IH. intros Hj. apply Z.ltb_lt in Hc.
    destruct (f64_compare_defined (Float64.get arr j) t)
      as [v Hv%f64_get_Some_bounds]; [lia|].
    specialize (Hn ltac:(lia)). lia.
Qed.

Lemma f64_scan_down_exits arr t j :
  (0 <? Float64.defaultCompare
          (Float64.get arr (Float64.scan_down (length arr) arr t j)) t)
  = false.
Proof.
  destruct (decide (j < Z.of_nat (length arr))) as [Hj|Hj].
  - apply f64_scan_down_exits_fuel. lia.
  - destruct arr as [|x arr]; simpl.
    + rewrite f64_get_out_of_bounds by (simpl; lia).
      by rewrite f64_compare_undefined_l.
    + rewrite (f64_get_out_of_bounds _ j) by lia.
      rewrite f64_compare_undefined_l. simpl.
      rewrite f64_get_out_of_bounds by lia.
      by rewrite f64_compare_undefined_l.
Qed.

Lemma f64_partition_loop_exits (n : nat) arr t i j :
  j - i <= Z.of_nat n ->
  (Float64.partition_loop n arr t i j).2
  <= (Float64.partition_loop n arr t i j).1.2.
Proof.
  revert arr i j. induction n as [|n IH]; intros arr i j Hn; simpl.
  { destruct (Z.ltb_spec i j); simpl; lia. }
  destruct (Z.ltb_spec i j); simpl; [|lia].
  apply IH.
  pose proof (f64_scan_up_ge (length (Float64.swap arr i j))
                (Float64.swap arr i j) t (i + 1)).
  pose proof (f64_scan_down_le (length (Float64.swap arr i j))
                (Float64.swap arr i j) t (j - 1)).
  lia.
Qed.

(** Once an element that is not above the pivot sits at [left], strictly
    left of [i], the loop never takes [j] below [left]. *)
Lemma f64_partition_loop_lower (n : nat) arr t i j left :
  left < i -> left <= j ->
  (0 <? Float64.defaultCompare (Float64.get arr left) t) = false ->
  left <= (Float64.partition_loop n arr t i j).2.
Proof.
  revert arr i j. induction n as [|n IH]; intros arr i j Hi Hj Hs; simpl.
  { by destruct (i <? j). }
  destruct (Z.ltb_spec i j); [|done].
  apply IH.
  - pose proof (f64_scan_up_ge (length (Float64.swap arr i j))
                  (Float64.swap arr i j) t (i + 1)).
    lia.
  - apply f64_scan_down_stop; [lia|].
    by rewrite f64_get_swap, !decide_False by lia.
  - by rewrite f64_get_swap, !decide_False by lia.
Qed.

(** One pass leaves the pivot index inside the window, whatever the buffer
    holds: a NaN, like [undefined], compares as equal to everything. *)
Lemma f64_partition_shrinks arr k left right :
  0 <= left -> left < right ->
  left <= (Float64.partition arr k left right).2 <= right.
Proof.
  intros Hleft Hlr. unfold Float64.partition.
  remember (Float64.get arr k) as t eqn:Htk.
  set (arrA := Float64.swap arr left k).
  set (arrB := if 0 <? Float64.defaultCompare (Float64.get arrA right) t
               then Float64.swap arrA left right else arrA).
  assert (HlenB : length arrB = length arr).
  { unfold arrB, arrA. case_match; by rewrite ?f64_length_swap. }
  destruct (Z.to_nat (right - left)) as [|n] eqn:Hn; [lia|].
  simpl. destruct (Z.ltb_spec left right); [|lia].
  set (arr1 := Float64.swap arrB left right).
  assert (Hs : (0 <? Float64.defaultCompare (Float64.get arr1 left) t) = false).
  { unfold arr1. rewrite f64_get_swap, decide_False, decide_True by lia.
    case_decide as Hlb; [|by rewrite f64_compare_undefined_l].
    rewrite HlenB in Hlb.
    destruct (Float64.get arrB right) as [r|] eqn:Hr; simpl;
      [|by rewrite f64_compare_NaN_l].
    unfold arrB in Hr.
    destruct (0 <? Float64.defaultCompare (Float64.get arrA right) t) eqn:Hc;
      [|congruence].
    rewrite f64_get_swap, decide_True in Hr by done.
    case_decide; [|done]. unfold arrA in Hlb.
    destruct t as [tv|] eqn:Htv; [|by rewrite f64_compare_undefined in Hc].
    assert (Float64.get arrA left = Some tv) as Hl.
    { unfold arrA. rewrite f64_get_swap.
      destruct (decide (left = k)) as [Heq|].
      - rewrite decide_True by lia. by rewrite Heq, <-Htk.
      - rewrite decide_True, decide_True by (done || lia).
        by rewrite <-Htk. }
    rewrite Hl in Hr. simpl in Hr. injection Hr as <-.
    apply f64_compare_refl. }
  set (i1 := Float64.scan_up (length arr1) arr1 t (left + 1)).
  set (j1 := Float64.scan_down (length arr1) arr1 t (right - 1)).
  assert (Hi1 : left < i1).
  { pose proof (f64_scan_up_ge (length arr1) arr1 t (left + 1)).
    unfold i1. lia. }
  assert (Hj1 : left <= j1 <= right - 1).
  { split; [apply f64_scan_down_stop; [lia|done]|apply f64_scan_down_le]. }
  pose proof (f64_partition_loop_lower n arr1 t i1 j1 left Hi1
                ltac:(lia) Hs) as Hlow.
  pose proof (f64_partition_loop_le n arr1 t i1 j1) as Hup.
  destruct (Float64.partition_loop n arr1 t i1 j1) as [[arr' i'] j'].
  simpl in Hlow, Hup.
  case_match; simpl; lia.
Qed.

Lemma f64_quickselectStep_total (n : nat) arr k left right :
  0 <= left -> right - left <= Z.of_nat n ->
  is_Some (Float64.quickselectStep n arr k left right).
Proof.
  revert arr left right. induction n as [|n IH]; intros arr left right Hl Hn.
  { simpl. destruct (Z.ltb_spec left right); [lia|]. eauto. }
  simpl. destruct (Z.ltb_spec left right) as [Hlr|Hlr]; [|eauto].
  pose proof (f64_partition_shrinks arr k left right Hl Hlr) as Hj.
  destruct (Float64.partition arr k left right) as [arr1 j]. simpl in Hj.
  apply IH; destruct (Z.leb_spec j k), (Z.leb_spec k j); lia.
Qed.

(** A selection on doubles returns, for every buffer, every [k] and every
    right bound. *)
Lemma f64_quickselect_total arr k left right :
  0 <= default 0 left ->
  is_Some (Float64.quickselect arr k left right).
Proof. intros Hl. apply f64_quickselectStep_total; [done|lia]. Qed.

(** [getChannelStats] returns on every buffer of doubles, with the
    [domain] that the first loop leaves. *)
Lemma f64_getChannelStats_run (arr : list float) :
  exists stats arr',
    Float64.getChannelStats arr = Some (stats, arr') /\
    Float64.domain stats = (Float64.range_pass arr).1.
Proof.
  unfold Float64.getChannelStats.
  destruct (Float64.range_pass arr) as [[mn mx] total].
  destruct (f64_quickselect_total arr (Z.of_nat (length arr) / 2) None None)
    as [arr1 ->]; [done|]. simpl.
  destruct (f64_quickselect_total arr1 (Z.of_nat (length arr) / 4) (Some 0)
              (Some (Z.of_nat (length arr) / 2))) as [arr2 ->]; [done|]. simpl.
  destruct (f64_quickselect_total arr2 (3 * (Z.of_nat (length arr) / 4))
              (Some (Z.of_nat (length arr) / 2))
              (Some (Z.of_nat (length arr) - 1))) as [arr3 ->].
  { simpl. apply Z.div_pos; lia. }
  simpl.
  set (cutoffArr := filter _ arr3).
  destruct (f64_quickselect_total cutoffArr
              (topCutoffLocation (Z.of_nat (length cutoffArr))) None None)
    as [cut1 ->]; [done|]. simpl.
  destruct (f64_quickselect_total cut1
              (bottomCutoffLocation (Z.of_nat (length cutoffArr))) (Some 0)
              (Some (topCutoffLocation (Z.of_nat (length cutoffArr)))))
    as [cut2 ->]; [done|]. simpl.
  by eexists _, _.
Qed.

(** C3: on a non-empty buffer that holds no NaN the domain returned is the
    pair of the least and the greatest sample, both on the buffer of an
    integer typed array and on a buffer of doubles. *)
Theorem getChannelStats_domain :
  (forall arr : list Z,
     arr <> [] ->
     exists stats arr' lo hi,
       getChannelStats arr = Some (stats, arr') /\
       domain stats = (Fin lo, Fin hi) /\
       lo ∈ arr /\ hi ∈ arr /\ Forall (fun x => lo <= x <= hi) arr) /\
  (forall arr : list float,
     arr <> [] -> no_NaN arr ->
     exists stats arr',
       Float64.getChannelStats arr = Some (stats, arr') /\
       least_sample (Float64.domain stats).1 arr /\
       greatest_sample (Float64.domain stats).2 arr).
Proof.
  split; [exact getChannelStats_domain_int|].
  intros arr Hne Hnan.
  destruct (f64_getChannelStats_run arr) as (stats & arr' & Heq & Hdom).
  destruct (f64_range_pass_spec arr Hnan)
    as (lo & hi & total & Hrp & _ & _ & [(-> & _)|[Hlo Hhi]]); [done|].
  exists stats, arr'. by rewrite Hdom, Hrp.
Qed.

Lemma getChannelStats_domain_witness :
  (exists stats arr' lo hi,
     getChannelStats [5; 0; 3; 9; 1; 7] = Some (stats, arr') /\
     domain stats = (Fin lo, Fin hi) /\
     lo ∈ [5; 0; 3; 9; 1; 7] /\ hi ∈ [5; 0; 3; 9; 1; 7] /\
     Forall (fun x => lo <= x <= hi) [5; 0; 3; 9; 1; 7]) /\
  (exists stats arr',
     Float64.getChannelStats [0.5; -2; 3.25; 0]%float = Some (stats, arr') /\
     least_sample (Float64.domain stats).1 [0.5; -2; 3.25; 0]%float /\
     greatest_sample (Float64.domain stats).2 [0.5; -2; 3.25; 0]%float).
Proof.
  split.
  - apply (proj1 getChannelStats_domain [5; 0; 3; 9; 1; 7]). discriminate.
  - apply (proj2 getChannelStats_domain [0.5; -2; 3.25; 0]%float);
      [discriminate|]. repeat constructor.
Defined.

(** C3 does not hold of a buffer that holds NaN.  On a [Float64Array] that
    holds NaN alone both comparisons of the first loop fail, and the domain
    returned is [[Infinity, -Infinity]], neither of which is a sample of the
    buffer. *)
Lemma getChannelStats_domain_NaN :
  exists stats arr',
    Float64.getChannelStats [nan] = Some (stats, arr') /\
    Float64.domain stats = (infinity, neg_infinity) /\
    (infinity ∉ [nan]) /\ (neg_infinity ∉ [nan]) /\
    ~ least_sample (Float64.domain stats).1 [nan] /\
    ~ greatest_sample (Float64.domain stats).2 [nan].
Proof.
  assert (infinity ∉ [nan]) as Hinf.
  { intros Hin%list_elem_of_singleton.
    apply (f_equal Prim2SF) in Hin. vm_compute in Hin. discriminate. }
  assert (neg_infinity ∉ [nan]) as Hninf.
  { intros Hin%list_elem_of_singleton.
    apply (f_equal Prim2SF) in Hin. vm_compute in Hin. discriminate. }
  eexists _, _. split; [vm_compute; reflexivity|]. split; [reflexivity|].
  split; [done|]. split; [done|]. split; by intros [? _].
Qed.

(** With NaN among the samples the statistics depend on the order of the
    buffer: the selections compare NaN as neither smaller nor larger than
    any sample. *)
Lemma getChannelStats_NaN_order :
  exists stats1 stats2,
    Float64.getChannelStats [nan; 0%float] = Some (stats1, [0%float; nan]) /\
    Float64.getChannelStats [0%float; nan] = Some (stats2, [nan; 0%float]) /\
    Float64.median stats1 = Some 0%float /\
    Float64.median stats2 = Some nan /\
    Float64.domain stats2 = (0%float, 0%float).
Proof.
  eexists _, _. split; [vm_compute; reflexivity|].
  split; [vm_compute; reflexivity|]. done.
Qed.

Lemma or0_positive (v : Z) : 0 < v -> or0 (Some v) = v.
Proof. intros Hv. simpl. destruct (Z.eqb_spec v 0); [lia|done]. Qed.

(** The contrast limits are taken from the [m] strictly positive samples:
    they are the elements at the two ranks computed by the code, when those
    are ranks of the positive samples, and both are 0 when no sample is
    positive. *)
Lemma getChannelStats_contrastLimits_at_ranks (arr : list Z) :
  let m := Z.of_nat (length (positives arr)) in
  exists stats arr',
    getChannelStats arr = Some (stats, arr') /\
    (m = 0 -> contrastLimits stats = (0, 0)) /\
    (0 <= bottomCutoffLocation m <= topCutoffLocation m ->
     topCutoffLocation m < m ->
       get (merge_sort Z.le (positives arr)) (bottomCutoffLocation m)
         = Some (contrastLimits stats).1 /\
       get (merge_sort Z.le (positives arr)) (topCutoffLocation m)
         = Some (contrastLimits stats).2).
Proof.
  intros m.
  destruct (getChannelStats_run arr)
    as (stats & _ & _ & arr3 & cut1 & cut2 & Heq & _ & _ & _ & Hq4 & Hq5 &
        _ & _ & Hp3 & _ & _ & _ & _ & Hcl).
  fold m in Hq4, Hq5, Hcl.
  assert (Hpos : positives arr3 ≡ₚ positives arr).
  { unfold positives. by rewrite Hp3. }
  assert (Hm3 : Z.of_nat (length (positives arr3)) = m).
  { unfold m. by rewrite Hpos. }
  exists stats, arr3. split; [done|]. split.
  { intros Hm0.
    assert (positives arr3 = []) as Hnil by (apply length_zero_iff_nil; lia).
    rewrite Hnil, Hm0 in Hq4. rewrite Hm0 in Hq5, Hcl.
    rewrite topCutoffLocation_0 in *.
    injection Hq4 as <-. injection Hq5 as <-. rewrite Hcl. done. }
  intros Hbt Htm.
  remember (topCutoffLocation m) as top eqn:Htop.
  remember (bottomCutoffLocation m) as bottom eqn:Hbottom.
  destruct (quickselect_select (positives arr3) top None None)
    as (cut1' & Hq4' & Hperm1 & (x1 & Hx1 & Hlow1 & Hhigh1) & _);
    [simpl; lia..|].
  simpl in Hperm1, Hlow1, Hhigh1. rewrite Hm3 in Hperm1, Hhigh1.
  assert (cut1' = cut1) as -> by congruence.
  assert (Hm4 : Z.of_nat (length cut1) = m).
  { destruct Hperm1 as (-> & _). done. }
  destruct (quickselect_select cut1 bottom (Some 0) (Some top))
    as (cut2' & Hq5' & Hperm2 & (x2 & Hx2 & Hlow2 & Hhigh2) & Hmax);
    [simpl; lia..|].
  simpl in Hperm2, Hlow2, Hhigh2, Hmax.
  assert (cut2' = cut2) as -> by congruence.
  assert (Hm5 : Z.of_nat (length cut2) = m).
  { destruct Hperm2 as (-> & _). done. }
  assert (Hx1' : get cut2 top = Some x1).
  { apply Hmax. split; [done|]. intros p v Hp. apply Hlow1. lia. }
  assert (Hbound : forall p v, 0 <= p <= top -> get cut2 p = Some v -> v <= x1).
  { eapply permuted_within_bound; [exact Hperm2|].
    intros p v Hp. apply Hlow1. lia. }
  assert (Hout : forall p, top < p -> get cut2 p = get cut1 p).
  { intros p Hp. destruct Hperm2 as (_ & _ & Ho & _). apply Ho. lia. }
  assert (Hsort : merge_sort Z.le (positives arr) = merge_sort Z.le cut2).
  { apply merge_sort_Permutation_eq.
    destruct Hperm1 as (_ & Hp1 & _), Hperm2 as (_ & Hp2 & _).
    by rewrite Hp2, Hp1, Hpos. }
  assert (Hgt : forall p v, get cut2 p = Some v -> 0 < v).
  { intros p v Hv.
    assert (v ∈ positives arr) as Hin.
    { destruct Hperm1 as (_ & Hp1 & _), Hperm2 as (_ & Hp2 & _).
      rewrite <-Hpos, <-Hp1, <-Hp2.
      apply get_Some_bounds in Hv as Hb.
      apply list_elem_of_lookup. exists (Z.to_nat p).
      by rewrite <-get_nat, Z2Nat.id by lia. }
    unfold positives in Hin. by apply list_elem_of_filter in Hin as [? _]. }
  rewrite Hsort, Hcl. simpl. rewrite Hx2, Hx1'.
  rewrite !or0_positive by eauto.
  split.
  - rewrite selected_rank; [done|]. rewrite Hm5.
    exists x2. split; [done|]. split; [exact Hlow2|].
    intros p v Hp Hv. destruct (decide (p <= top)); [apply (Hhigh2 p); [lia|done]|].
    rewrite Hout in Hv by lia.
    assert (x2 <= x1) by (apply (Hbound bottom); [lia|done]).
    assert (x1 <= v) by (apply (Hhigh1 p); [lia|done]). lia.
  - rewrite selected_rank; [done|]. rewrite Hm5.
    exists x1. split; [done|]. split; [exact Hbound|].
    intros p v Hp Hv. destruct (decide (p = top)) as [Heqp|].
    { rewrite Heqp in Hv. assert (v = x1) by congruence. lia. }
    rewrite Hout in Hv by lia. apply (Hhigh1 p); [lia|done].
Qed.



(** The quartiles of a buffer of one sample or of at least four: the
    median, [q1] and [q3] are the elements of rank [floor(n/2)], [floor(n/4)]
    and [3 * floor(n/4)], and they are in order. *)
Lemma getChannelStats_quartiles (arr : list Z) :
  let n := Z.of_nat (length arr) in
  n = 1 \/ 4 <= n ->
  exists stats arr' a b c,
    getChannelStats arr = Some (stats, arr') /\
    q1 stats = Some a /\ median stats = Some b /\ q3 stats = Some c /\
    a <= b <= c /\
    get (merge_sort Z.le arr) (n / 4) = Some a /\
    get (merge_sort Z.le arr) (n / 2) = Some b /\
    get (merge_sort Z.le arr) (3 * (n / 4)) = Some c.
Proof.
  intros n Hn.
  destruct (getChannelStats_run arr)
    as (stats & arr1 & arr2 & arr3 & _ & _ & Heq & Hq1 & Hq2 & Hq3 & _ & _ &
        Hp1 & Hp2 & Hp3 & Hmed & Hfst & Hthd & _).
  fold n in Hq1, Hq2, Hq3, Hmed, Hfst, Hthd.
  assert (Hlen : Z.of_nat (length arr) = n) by done.
  assert (Hn1 : Z.of_nat (length arr1) = n) by (by rewrite Hp1).
  assert (Hn2 : Z.of_nat (length arr2) = n) by (by rewrite Hp2).
  assert (Hn3 : Z.of_nat (length arr3) = n) by (by rewrite Hp3).
  clearbody n.
  assert (Hdiv : 0 <= n / 4 /\ n / 4 <= n / 2 /\ n / 2 <= 3 * (n / 4) /\
                 3 * (n / 4) < n).
  { pose proof (Z.div_mod n 4 ltac:(lia)).
    pose proof (Z.mod_pos_bound n 4 ltac:(lia)).
    pose proof (Z.div_mod n 2 ltac:(lia)).
    pose proof (Z.mod_pos_bound n 2 ltac:(lia)).
    lia. }
  remember (n / 2) as mid eqn:Hmid.
  remember (n / 4) as fq eqn:Hfq.
  remember (3 * fq) as tq eqn:Htq.
  destruct (quickselect_select arr mid None None)
    as (arr1' & Hq1' & Hperm1 & (b & Hb & Hlow1 & Hhigh1) & _);
    [simpl; lia..|].
  simpl in Hperm1, Hlow1, Hhigh1. rewrite Hlen in Hperm1, Hhigh1.
  assert (arr1' = arr1) as -> by congruence.
  destruct (quickselect_select arr1 fq (Some 0) (Some mid))
    as (arr2' & Hq2' & Hperm2 & (a & Ha & Hlow2 & Hhigh2) & Hmax2);
    [simpl; lia..|].
  simpl in Hperm2, Hlow2, Hhigh2, Hmax2.
  assert (arr2' = arr2) as -> by congruence.
  destruct (quickselect_select arr2 tq (Some mid) (Some (n - 1)))
    as (arr3' & Hq3' & Hperm3 & (c & Hc & Hlow3 & Hhigh3) & _);
    [simpl; lia..|].
  simpl in Hperm3, Hlow3, Hhigh3.
  assert (arr3' = arr3) as -> by congruence.
  assert (Hb2 : get arr2 mid = Some b).
  { apply Hmax2. split; [done|]. intros p v Hp. apply Hlow1. lia. }
  assert (Hbound2 : forall p v, 0 <= p <= mid -> get arr2 p = Some v -> v <= b).
  { eapply permuted_within_bound; [exact Hperm2|].
    intros p v Hp. apply Hlow1. lia. }
  assert (Hout2 : forall p, mid < p -> get arr2 p = get arr1 p).
  { intros p Hp. destruct Hperm2 as (_ & _ & Ho & _). apply Ho. lia. }
  assert (Hbound3 : forall p v, mid <= p <= n - 1 -> get arr3 p = Some v -> b <= v).
  { eapply permuted_within_bound; [exact Hperm3|].
    intros p v Hp Hv. destruct (decide (p = mid)) as [Heqp|].
    - rewrite Heqp in Hv. assert (v = b) by congruence. lia.
    - rewrite Hout2 in Hv by lia. apply (Hhigh1 p); [lia|done]. }
  assert (Hout3 : forall p, p < mid -> get arr3 p = get arr2 p).
  { intros p Hp. destruct Hperm3 as (_ & _ & Ho & _). apply Ho. lia. }
  assert (Hab : a <= b) by (apply (Hbound2 fq); [lia|done]).
  assert (Hbc : b <= c) by (apply (Hbound3 tq); [lia|done]).
  exists stats, arr3, a, b, c. split; [done|].
  split; [congruence|]. split; [congruence|]. split; [congruence|].
  split; [lia|].
  rewrite <-(merge_sort_Permutation_eq arr2 arr) at 1 by done.
  rewrite <-(merge_sort_Permutation_eq arr1 arr) at 1 by done.
  rewrite <-(merge_sort_Permutation_eq arr3 arr) by done.
  rewrite <-Ha, <-Hb, <-Hc.
  split; [|split]; apply selected_rank.
  - rewrite Hn2. exists a. split; [done|]. split; [exact Hlow2|].
    intros p v Hp Hv.
    destruct (decide (p <= mid)); [apply (Hhigh2 p); [lia|done]|].
    rewrite Hout2 in Hv by lia.
    assert (b <= v) by (apply (Hhigh1 p); [lia|done]). lia.
  - rewrite Hn1. by exists b.
  - rewrite Hn3. exists c. split; [done|]. split; [|exact Hhigh3].
    intros p v Hp Hv.
    destruct (decide (mid <= p)); [apply (Hlow3 p); [lia|done]|].
    rewrite Hout3 in Hv by lia.
    assert (v <= b) by (apply (Hbound2 p); [lia|done]). lia.
Qed.

(** On three samples the rank [3 * floor(3/4) = 0] lies left of the range
    of the third selection, whose first exchange brings the median to index
    0: [q3] is then the median. *)
Lemma getChannelStats_three_samples (arr : list Z) :
  length arr = 3%nat ->
  exists stats arr' a b,
    getChannelStats arr = Some (stats, arr') /\
    q1 stats = Some a /\ median stats = Some b /\ q3 stats = Some b /\
    a <= b.
Proof.
  intros Hlen.
  destruct (getChannelStats_run arr)
    as (stats & arr1 & arr2 & arr3 & _ & _ & Heq & Hq1 & Hq2 & Hq3 & _ & _ &
        Hp1 & Hp2 & Hp3 & Hmed & Hfst & Hthd & _).
  rewrite Hlen in *.
  change (Z.of_nat 3 / 2) with 1 in *. change (Z.of_nat 3 / 4) with 0 in *.
  change (3 * 0) with 0 in *. change (Z.of_nat 3 - 1) with 2 in *.
  assert (Hn1 : length arr1 = 3%nat) by (by rewrite Hp1).
  assert (Hn2 : length arr2 = 3%nat) by (by rewrite Hp2).
  destruct (quickselect_select arr 1 None None)
    as (arr1' & Hq1' & Hperm1 & (b & Hb & Hlow1 & Hhigh1) & _);
    [simpl; lia..|].
  simpl in Hperm1, Hlow1, Hhigh1.
  assert (arr1' = arr1) as -> by congruence.
  destruct (quickselect_select arr1 0 (Some 0) (Some 1))
    as (arr2' & Hq2' & Hperm2 & (a & Ha & Hlow2 & Hhigh2) & Hmax2);
    [simpl; lia..|].
  simpl in Hperm2, Hlow2, Hhigh2, Hmax2.
  assert (arr2' = arr2) as -> by congruence.
  assert (Hb2 : get arr2 1 = Some b).
  { apply Hmax2. split; [done|]. intros p v Hp. apply Hlow1. lia. }
  assert (Hab : a <= b) by (apply (Hhigh2 1); [lia|done]).
  unfold quickselect in Hq3. simpl in Hq3.
  destruct (partition_spec arr2 0 1 2 a)
    as (arr' & j & Hpart & (Hj & _) & Hperm & _); [lia|lia|lia|done|].
  rewrite Hpart in Hq3.
  destruct (Z.leb_spec j 0); [lia|]. destruct (Z.leb_spec 0 j); [|lia].
  destruct (Z.ltb_spec 1 (j - 1)); [lia|]. injection Hq3 as <-.
  exists stats, arr', a, b. split; [done|].
  split; [congruence|]. split; [congruence|]. split; [|done].
  rewrite Hthd. destruct Hperm as (_ & _ & Hout & _).
  rewrite Hout by lia. rewrite get_swap by lia.
  by rewrite decide_True.
Qed.

(** ** More on [getChannelStats] *)

Lemma get_elem_of (arr : list Z) i v : get arr i = Some v -> v ∈ arr.
Proof.
  intros Hv. apply get_Some_bounds in Hv as Hb.
  apply list_elem_of_lookup. exists (Z.to_nat i).
  by rewrite <-get_nat, Z2Nat.id by lia.
Qed.

Lemma quartile_locations (n : Z) :
  0 < n ->
  0 <= n / 4 /\ n / 4 <= n / 2 /\ n / 2 < n /\ 0 <= 3 * (n / 4) < n.
Proof.
  intros Hn.
  pose proof (Z.div_mod n 4 ltac:(lia)).
  pose proof (Z.mod_pos_bound n 4 ltac:(lia)).
  pose proof (Z.div_mod n 2 ltac:(lia)).
  pose proof (Z.mod_pos_bound n 2 ltac:(lia)).
  lia.
Qed.

(** The quartiles of a non-empty buffer are samples of it, [q1] is not
    above the median, and once the second selection is done the median is
    still at its index. *)
Lemma getChannelStats_quartiles_members (arr : list Z) :
  arr <> [] ->
  exists stats arr' a b c,
    getChannelStats arr = Some (stats, arr') /\
    q1 stats = Some a /\ median stats = Some b /\ q3 stats = Some c /\
    a ∈ arr /\ b ∈ arr /\ c ∈ arr /\ a <= b.
Proof.
  intros Hne.
  destruct (getChannelStats_run arr)
    as (stats & arr1 & arr2 & arr3 & _ & _ & Heq & Hq1 & Hq2 & Hq3 & _ & _ &
        Hp1 & Hp2 & Hp3 & Hmed & Hfst & Hthd & _).
  assert (Hn : 0 < Z.of_nat (length arr)).
  { destruct arr; [done|simpl; lia]. }
  remember (Z.of_nat (length arr)) as n eqn:Hlen.
  assert (Hn1 : Z.of_nat (length arr1) = n) by (by rewrite Hp1).
  assert (Hn2 : Z.of_nat (length arr2) = n) by (by rewrite Hp2).
  assert (Hn3 : Z.of_nat (length arr3) = n) by (by rewrite Hp3).
  destruct (quartile_locations n Hn) as (Hf0 & Hfm & Hmn & Ht).
  remember (n / 2) as mid eqn:Hmid.
  remember (n / 4) as fq eqn:Hfq.
  destruct (quickselect_select arr mid None None)
    as (arr1' & Hq1' & Hperm1 & (b & Hb & Hlow1 & Hhigh1) & _);
    [simpl; lia..|].
  simpl in Hperm1, Hlow1, Hhigh1.
  assert (arr1' = arr1) as -> by congruence.
  destruct (quickselect_select arr1 fq (Some 0) (Some mid))
    as (arr2' & Hq2' & Hperm2 & (a & Ha & Hlow2 & Hhigh2) & Hmax2);
    [simpl; lia..|].
  simpl in Hperm2, Hlow2, Hhigh2, Hmax2.
  assert (arr2' = arr2) as -> by congruence.
  assert (Hb2 : get arr2 mid = Some b).
  { apply Hmax2. split; [done|]. intros p v Hp. apply Hlow1. lia. }
  destruct (get_in_bounds arr3 (3 * fq)) as [c Hc]; [lia|].
  exists stats, arr3, a, b, c. split; [done|].
  split; [congruence|]. split; [congruence|]. split; [congruence|].
  split; [rewrite <-Hp2; by eapply get_elem_of|].
  split; [rewrite <-Hp1; by eapply get_elem_of|].
  split; [rewrite <-Hp3; by eapply get_elem_of|].
  apply (Hhigh2 mid); [lia|done].
Qed.

(** X1: on a non-empty buffer of an integer typed array the median and the
    two quartiles returned are samples of the buffer, they lie within the
    domain returned, and [q1] is not above the median. *)
Theorem getChannelStats_quartiles_in_domain (arr : list Z) :
  arr <> [] ->
  exists stats arr' lo hi a b c,
    getChannelStats arr = Some (stats, arr') /\
    domain stats = (Fin lo, Fin hi) /\
    q1 stats = Some a /\ median stats = Some b /\ q3 stats = Some c /\
    a ∈ arr /\ b ∈ arr /\ c ∈ arr /\
    lo <= a <= b /\ b <= hi /\ lo <= c <= hi.
Proof.
  intros Hne.
  destruct (getChannelStats_quartiles_members arr Hne)
    as (stats & arr' & a & b & c & Heq & Ha & Hb & Hc & Hina & Hinb & Hinc & Hab).
  destruct (getChannelStats_run arr)
    as (stats' & _ & _ & arr3 & _ & _ & Heq' & _ & _ & _ & _ & _ & _ & _ & _ &
        _ & _ & _ & Hdom & _).
  assert (stats' = stats) as -> by congruence.
  destruct (range_pass_spec arr Hne) as (lo & hi & total & Hrp & _ & _ & Hall).
  rewrite Forall_forall in Hall.
  exists stats, arr', lo, hi, a, b, c.
  split; [done|]. split; [by rewrite Hdom, Hrp|].
  do 6 (split; [done|]).
  pose proof (Hall a Hina). pose proof (Hall b Hinb). pose proof (Hall c Hinc).
  lia.
Qed.

Lemma getChannelStats_quartiles_in_domain_witness :
  exists stats arr' lo hi a b c,
    getChannelStats [4; 8] = Some (stats, arr') /\
    domain stats = (Fin lo, Fin hi) /\
    q1 stats = Some a /\ median stats = Some b /\ q3 stats = Some c /\
    a ∈ [4; 8] /\ b ∈ [4; 8] /\ c ∈ [4; 8] /\
    lo <= a <= b /\ b <= hi /\ lo <= c <= hi.
Proof. apply (getChannelStats_quartiles_in_domain [4; 8]). discriminate. Defined.

(** The ranks of the three quartile values, for every non-empty buffer. *)
Lemma getChannelStats_ranks (arr : list Z) :
  let n := Z.of_nat (length arr) in
  arr <> [] ->
  exists stats arr',
    getChannelStats arr = Some (stats, arr') /\
    q1 stats = get (merge_sort Z.le arr) (n / 4) /\
    median stats = get (merge_sort Z.le arr) (n / 2) /\
    q3 stats = get (merge_sort Z.le arr) (thirdQuartileRank n).
Proof.
  intros n Hne.
  assert (Hn : 0 < n) by (subst n; destruct arr; [done|simpl; lia]).
  destruct (decide (n = 1 \/ 4 <= n)) as [Hbig|Hsmall].
  { destruct (getChannelStats_quartiles arr Hbig)
      as (stats & arr' & a & b & c & Heq & Ha & Hb & Hc & _ & Hra & Hrb & Hrc).
    fold n in Hra, Hrb, Hrc.
    exists stats, arr'. split; [done|].
    unfold thirdQuartileRank.
    destruct (Z.eqb_spec n 2); [lia|]. destruct (Z.eqb_spec n 3); [lia|].
    split; [congruence|]. split; congruence. }
  destruct (getChannelStats_run arr)
    as (stats & arr1 & arr2 & arr3 & _ & _ & Heq & Hq1 & Hq2 & Hq3 & _ & _ &
        Hp1 & Hp2 & Hp3 & Hmed & Hfst & Hthd & _).
  fold n in Hq1, Hq2, Hq3, Hmed, Hfst, Hthd.
  assert (Hlen : Z.of_nat (length arr) = n) by done.
  assert (Hn1 : Z.of_nat (length arr1) = n) by (by rewrite Hp1).
  assert (Hn2 : Z.of_nat (length arr2) = n) by (by rewrite Hp2).
  exists stats, arr3. split; [done|].
  rewrite Hmed, Hfst, Hthd.
  rewrite <-(merge_sort_Permutation_eq arr2 arr) at 1 by done.
  rewrite <-(merge_sort_Permutation_eq arr1 arr) at 1 by done.
  rewrite <-(merge_sort_Permutation_eq arr2 arr) by done.
  clearbody n.
  assert (n = 2 \/ n = 3) as [-> | ->] by lia.
  - (* two samples *)
    change (2 / 2) with 1 in *. change (2 / 4) with 0 in *.
    change (3 * 0) with 0 in *. change (2 - 1) with 1 in *.
    change (thirdQuartileRank 2) with 0.
    destruct (quickselect_select arr 1 None None)
      as (arr1' & Hq1' & _ & Hsel1 & _); [simpl; lia..|].
    simpl in Hsel1. rewrite Hlen in Hsel1. change (2 - 1) with 1 in Hsel1.
    assert (arr1' = arr1) as -> by congruence.
    destruct (quickselect_select arr1 0 (Some 0) (Some 1))
      as (arr2' & Hq2' & _ & Hsel2 & _); [simpl; lia..|].
    simpl in Hsel2.
    assert (arr2' = arr2) as -> by congruence.
    assert (arr3 = arr2) as ->.
    { unfold quickselect in Hq3. simpl in Hq3. congruence. }
    split; [|split].
    + rewrite selected_rank; [done|]. by rewrite Hn2.
    + rewrite selected_rank; [done|]. by rewrite Hn1.
    + rewrite selected_rank; [done|]. by rewrite Hn2.
  - (* three samples *)
    change (3 / 2) with 1 in *. change (3 / 4) with 0 in *.
    change (3 * 0) with 0 in *. change (3 - 1) with 2 in *.
    change (thirdQuartileRank 3) with 1.
    destruct (quickselect_select arr 1 None None)
      as (arr1' & Hq1' & _ & (b & Hb & Hlow1 & Hhigh1) & _); [simpl; lia..|].
    simpl in Hlow1, Hhigh1. rewrite Hlen in Hhigh1.
    change (3 - 1) with 2 in Hhigh1.
    assert (arr1' = arr1) as -> by congruence.
    destruct (quickselect_select arr1 0 (Some 0) (Some 1))
      as (arr2' & Hq2' & Hperm2 & (a & Ha & Hlow2 & Hhigh2) & Hmax2);
      [simpl; lia..|].
    simpl in Hperm2, Hlow2, Hhigh2, Hmax2.
    assert (arr2' = arr2) as -> by congruence.
    assert (Hb2 : get arr2 1 = Some b).
    { apply Hmax2. split; [done|]. intros p v Hp. apply Hlow1. lia. }
    assert (Hout2 : forall p, 1 < p -> get arr2 p = get arr1 p).
    { intros p Hp. destruct Hperm2 as (_ & _ & Ho & _). apply Ho. lia. }
    assert (Hab : a <= b) by (apply (Hhigh2 1); [lia|done]).
    assert (Hq3' : get arr3 0 = Some b).
    { unfold quickselect in Hq3. simpl in Hq3.
      destruct (partition_spec arr2 0 1 2 a)
        as (arr' & j & Hpart & (Hj & _) & Hperm & _); [lia|lia|lia|done|].
      rewrite Hpart in Hq3.
      destruct (Z.leb_spec j 0); [lia|]. destruct (Z.leb_spec 0 j); [|lia].
      destruct (Z.ltb_spec 1 (j - 1)); [lia|]. injection Hq3 as <-.
      destruct Hperm as (_ & _ & Hout & _).
      rewrite Hout by lia. rewrite get_swap by lia.
      by rewrite decide_True. }
    rewrite Hq3', <-Hb2.
    split; [|split].
    + rewrite selected_rank; [done|]. rewrite Hn2. change (3 - 1) with 2.
      exists a. split; [done|]. split; [exact Hlow2|].
      intros p v Hp Hv.
      destruct (decide (p <= 1)); [apply (Hhigh2 p); [lia|done]|].
      rewrite Hout2 in Hv by lia.
      assert (b <= v) by (apply (Hhigh1 p); [lia|done]). lia.
    + rewrite selected_rank; [done|]. rewrite Hn1. change (3 - 1) with 2.
      by exists b.
    + rewrite selected_rank; [done|]. rewrite Hn2. change (3 - 1) with 2.
      exists b. split; [done|]. split.
      * intros p v Hp Hv. destruct (decide (p = 1)) as [->|].
        -- assert (v = b) by congruence. lia.
        -- assert (a <= b) by done.
           assert (v <= a); [|lia].
           apply (Hlow2 p); [lia|done].
      * intros p v Hp Hv. destruct (decide (p = 1)) as [->|].
        -- assert (v = b) by congruence. lia.
        -- rewrite Hout2 in Hv by lia. apply (Hhigh1 p); [lia|done].
Qed.

(** X2: on every non-empty buffer of an integer typed array, of [n]
    samples, [q1] and the median are the samples at ranks [floor(n / 4)] and
    [floor(n / 2)] of the sorted buffer, and [q3] is the sample at rank
    [3 * floor(n / 4)], except for two and three samples, where it is the
    sample at rank 0 and at rank 1. *)
Theorem getChannelStats_sorted_ranks (arr : list Z) :
  let n := Z.of_nat (length arr) in
  arr <> [] ->
  exists stats arr',
    getChannelStats arr = Some (stats, arr') /\
    q1 stats = get (merge_sort Z.le arr) (n / 4) /\
    median stats = get (merge_sort Z.le arr) (n / 2) /\
    q3 stats = get (merge_sort Z.le arr) (thirdQuartileRank n).
Proof. apply getChannelStats_ranks. Qed.

Lemma getChannelStats_sorted_ranks_witness :
  exists stats arr',
    getChannelStats [9; 1; 5] = Some (stats, arr') /\
    q1 stats = get (merge_sort Z.le [9; 1; 5]) 0 /\
    median stats = get (merge_sort Z.le [9; 1; 5]) 1 /\
    q3 stats = get (merge_sort Z.le [9; 1; 5]) 1.
Proof. apply (getChannelStats_sorted_ranks [9; 1; 5]). discriminate. Defined.

(** The contrast limits when the two ranks are ranks of the positive
    samples: the samples of those ranks, in order. *)
Lemma getChannelStats_contrastLimits_selected (arr : list Z) :
  let m := Z.of_nat (length (positives arr)) in
  0 <= bottomCutoffLocation m <= topCutoffLocation m ->
  topCutoffLocation m < m ->
  exists stats arr' low high,
    getChannelStats arr = Some (stats, arr') /\
    contrastLimits stats = (low, high) /\
    get (merge_sort Z.le (positives arr)) (bottomCutoffLocation m) = Some low /\
    get (merge_sort Z.le (positives arr)) (topCutoffLocation m) = Some high /\
    low <= high /\ low ∈ positives arr /\ high ∈ positives arr.
Proof.
  intros m Hbt Htm.
  destruct (getChannelStats_run arr)
    as (stats & _ & _ & arr3 & cut1 & cut2 & Heq & _ & _ & _ & Hq4 & Hq5 &
        _ & _ & Hp3 & _ & _ & _ & _ & Hcl).
  fold m in Hq4, Hq5, Hcl.
  assert (Hpos : positives arr3 ≡ₚ positives arr).
  { unfold positives. by rewrite Hp3. }
  assert (Hm3 : Z.of_nat (length (positives arr3)) = m).
  { unfold m. by rewrite Hpos. }
  remember (topCutoffLocation m) as top eqn:Htop.
  remember (bottomCutoffLocation m) as bottom eqn:Hbottom.
  destruct (quickselect_select (positives arr3) top None None)
    as (cut1' & Hq4' & Hperm1 & (x1 & Hx1 & Hlow1 & Hhigh1) & _);
    [simpl; lia..|].
  simpl in Hperm1, Hlow1, Hhigh1. rewrite Hm3 in Hperm1, Hhigh1.
  assert (cut1' = cut1) as -> by congruence.
  assert (Hm4 : Z.of_nat (length cut1) = m).
  { destruct Hperm1 as (-> & _). done. }
  destruct (quickselect_select cut1 bottom (Some 0) (Some top))
    as (cut2' & Hq5' & Hperm2 & (x2 & Hx2 & Hlow2 & Hhigh2) & Hmax);
    [simpl; lia..|].
  simpl in Hperm2, Hlow2, Hhigh2, Hmax.
  assert (cut2' = cut2) as -> by congruence.
  assert (Hm5 : Z.of_nat (length cut2) = m).
  { destruct Hperm2 as (-> & _). done. }
  assert (Hx1' : get cut2 top = Some x1).
  { apply Hmax. split; [done|]. intros p v Hp. apply Hlow1. lia. }
  assert (Hbound : forall p v, 0 <= p <= top -> get cut2 p = Some v -> v <= x1).
  { eapply permuted_within_bound; [exact Hperm2|].
    intros p v Hp. apply Hlow1. lia. }
  assert (Hout : forall p, top < p -> get cut2 p = get cut1 p).
  { intros p Hp. destruct Hperm2 as (_ & _ & Ho & _). apply Ho. lia. }
  assert (Hcut2 : cut2 ≡ₚ positives arr).
  { destruct Hperm1 as (_ & Hp1 & _), Hperm2 as (_ & Hp2 & _).
    by rewrite Hp2, Hp1, Hpos. }
  assert (Hin : forall p v, get cut2 p = Some v -> v ∈ positives arr).
  { intros p v Hv. rewrite <-Hcut2. by eapply get_elem_of. }
  assert (Hgt : forall p v, get cut2 p = Some v -> 0 < v).
  { intros p v Hv. apply Hin in Hv. unfold positives in Hv.
    by apply list_elem_of_filter in Hv as [? _]. }
  exists stats, arr3, x2, x1. split; [done|].
  split.
  { rewrite Hcl, Hx2, Hx1'. by rewrite !or0_positive by eauto. }
  rewrite <-(merge_sort_Permutation_eq cut2 (positives arr)) by done.
  rewrite <-Hx2, <-Hx1'.
  split; [|split].
  - apply selected_rank. rewrite Hm5.
    exists x2. split; [done|]. split; [exact Hlow2|].
    intros p v Hp Hv. destruct (decide (p <= top)); [apply (Hhigh2 p); [lia|done]|].
    rewrite Hout in Hv by lia.
    assert (x2 <= x1) by (apply (Hbound bottom); [lia|done]).
    assert (x1 <= v) by (apply (Hhigh1 p); [lia|done]). lia.
  - apply selected_rank. rewrite Hm5.
    exists x1. split; [done|]. split; [exact Hbound|].
    intros p v Hp Hv. destruct (decide (p = top)) as [Heqp|].
    { rewrite Heqp in Hv. assert (v = x1) by congruence. lia. }
    rewrite Hout in Hv by lia. apply (Hhigh1 p); [lia|done].
  - split; [apply (Hbound bottom); [lia|done]|]. eauto.
Qed.

Lemma or0_nonneg (x : option Z) :
  (forall v, x = Some v -> 0 <= v) -> 0 <= or0 x.
Proof.
  intros Hx. destruct x as [v|]; simpl; [|done].
  destruct (Z.eqb_spec v 0); [done|]. by apply Hx.
Qed.




Lemma range_pass_Permutation (arr1 arr2 : list Z) :
  arr1 ≡ₚ arr2 -> (range_pass arr1).1 = (range_pass arr2).1.
Proof.
  intros Hp. destruct arr1 as [|x arr1].
  { apply Permutation_nil_l in Hp. by subst. }
  assert (arr2 <> []) as Hne2.
  { intros ->. by apply Permutation_nil_r in Hp. }
  destruct (range_pass_spec (x :: arr1)) as (lo1 & hi1 & t1 & -> & Hlo1 & Hhi1 & Hall1);
    [done|].
  destruct (range_pass_spec arr2 Hne2) as (lo2 & hi2 & t2 & -> & Hlo2 & Hhi2 & Hall2).
  simpl. rewrite Forall_forall in Hall1, Hall2.
  rewrite Hp in Hlo1, Hhi1. rewrite <-Hp in Hlo2, Hhi2.
  pose proof (Hall1 _ Hlo2). pose proof (Hall1 _ Hhi2).
  pose proof (Hall2 _ Hlo1). pose proof (Hall2 _ Hhi1).
  f_equal; f_equal; lia.
Qed.

(** The median, the quartiles, the domain and, with ranks that are ranks of
    the positive samples, the contrast limits depend on the samples only, not
    on their order. *)
Lemma getChannelStats_Permutation (arr1 arr2 : list Z) :
  arr1 ≡ₚ arr2 ->
  exists stats1 arr1' stats2 arr2',
    getChannelStats arr1 = Some (stats1, arr1') /\
    getChannelStats arr2 = Some (stats2, arr2') /\
    q1 stats1 = q1 stats2 /\ median stats1 = median stats2 /\
    q3 stats1 = q3 stats2 /\ domain stats1 = domain stats2 /\
    (let m := Z.of_nat (length (positives arr1)) in
     0 <= bottomCutoffLocation m <= topCutoffLocation m ->
     topCutoffLocation m < m ->
     contrastLimits stats1 = contrastLimits stats2).
Proof.
  intros Hp.
  destruct arr1 as [|x arr1].
  { apply Permutation_nil_l in Hp. subst.
    destruct (getChannelStats_run []) as (stats & _ & _ & arr3 & _ & _ & Heq & _).
    by exists stats, arr3, stats, arr3. }
  assert (arr2 <> []) as Hne2.
  { intros ->. by apply Permutation_nil_r in Hp. }
  destruct (getChannelStats_ranks (x :: arr1))
    as (stats1 & arr1' & Heq1 & Ha1 & Hb1 & Hc1); [done|].
  destruct (getChannelStats_ranks arr2 Hne2)
    as (stats2 & arr2' & Heq2 & Ha2 & Hb2 & Hc2).
  rewrite <-(merge_sort_Permutation_eq _ _ Hp) in Ha2, Hb2, Hc2.
  rewrite <-(Permutation_length Hp) in Ha2, Hb2, Hc2.
  exists stats1, arr1', stats2, arr2'.
  split; [done|]. split; [done|].
  split; [congruence|]. split; [congruence|]. split; [congruence|].
  split.
  { destruct (getChannelStats_run (x :: arr1))
      as (s1 & _ & _ & a1 & _ & _ & Heq1' & _ & _ & _ & _ & _ & _ & _ & _ &
          _ & _ & _ & Hdom1 & _).
    destruct (getChannelStats_run arr2)
      as (s2 & _ & _ & a2 & _ & _ & Heq2' & _ & _ & _ & _ & _ & _ & _ & _ &
          _ & _ & _ & Hdom2 & _).
    assert (s1 = stats1) as -> by congruence.
    assert (s2 = stats2) as -> by congruence.
    rewrite Hdom1, Hdom2. by apply range_pass_Permutation. }
  intros m Hbt Htm.
  assert (Hpos : positives (x :: arr1) ≡ₚ positives arr2).
  { unfold positives. by rewrite Hp. }
  destruct (getChannelStats_contrastLimits_selected (x :: arr1) Hbt Htm)
    as (s1 & a1 & low1 & high1 & Heq1' & Hcl1 & Hl1 & Hh1 & _).
  fold m in Hl1, Hh1.
  assert (Hm2 : Z.of_nat (length (positives arr2)) = m).
  { unfold m. by rewrite Hpos. }
  destruct (getChannelStats_contrastLimits_selected arr2)
    as (s2 & a2 & low2 & high2 & Heq2' & Hcl2 & Hl2 & Hh2 & _);
    [by rewrite Hm2..|].
  rewrite Hm2, <-(merge_sort_Permutation_eq _ _ Hpos) in Hl2, Hh2.
  assert (s1 = stats1) as -> by congruence.
  assert (s2 = stats2) as -> by congruence.
  rewrite Hcl1, Hcl2. f_equal; congruence.
Qed.

(** X5: two buffers of integer typed arrays that hold the same samples in
    different orders get the same median, quartiles and domain, and the same
    contrast limits when the two percentile ranks are ranks of the positive
    samples. *)
Theorem getChannelStats_order_independent (arr1 arr2 : list Z) :
  arr1 ≡ₚ arr2 ->
  exists stats1 arr1' stats2 arr2',
    getChannelStats arr1 = Some (stats1, arr1') /\
    getChannelStats arr2 = Some (stats2, arr2') /\
    q1 stats1 = q1 stats2 /\ median stats1 = median stats2 /\
    q3 stats1 = q3 stats2 /\ domain stats1 = domain stats2 /\
    (let m := Z.of_nat (length (positives arr1)) in
     0 <= bottomCutoffLocation m <= topCutoffLocation m ->
     topCutoffLocation m < m ->
     contrastLimits stats1 = contrastLimits stats2).
Proof. apply getChannelStats_Permutation. Qed.

Lemma getChannelStats_order_independent_witness :
  exists stats1 arr1' stats2 arr2',
    getChannelStats [5; 0; 3; 9] = Some (stats1, arr1') /\
    getChannelStats [9; 3; 0; 5] = Some (stats2, arr2') /\
    q1 stats1 = q1 stats2 /\ median stats1 = median stats2 /\
    q3 stats1 = q3 stats2 /\ domain stats1 = domain stats2 /\
    contrastLimits stats1 = contrastLimits stats2.
Proof.
  destruct (getChannelStats_order_independent [5; 0; 3; 9] [9; 3; 0; 5])
    as (s1 & a1 & s2 & a2 & H1 & H2 & Ha & Hb & Hc & Hd & He).
  - apply (bool_decide_unpack _). vm_compute. exact I.
  - exists s1, a1, s2, a2. repeat (split; [assumption|]).
    apply He; vm_compute; [split; discriminate|reflexivity].
Defined.

(** X6: on the buffer of an integer typed array, a second call, made after
    the first call has reordered the buffer, returns the same median,
    quartiles and domain as the first. *)
Theorem getChannelStats_twice (arr : list Z) :
  exists stats1 arr1 stats2 arr2,
    getChannelStats arr = Some (stats1, arr1) /\
    getChannelStats arr1 = Some (stats2, arr2) /\
    q1 stats1 = q1 stats2 /\ median stats1 = median stats2 /\
    q3 stats1 = q3 stats2 /\ domain stats1 = domain stats2.
Proof.
  destruct (getChannelStats_run arr)
    as (stats1 & _ & _ & arr' & _ & _ & Heq1 & _ & _ & _ & _ & _ & _ & _ & Hp & _).
  destruct (getChannelStats_Permutation arr' arr Hp)
    as (s2 & arr'' & s1 & a1 & Heq2 & Heq1' & Hq1 & Hmed & Hq3 & Hdom & _).
  assert (s1 = stats1) as -> by congruence.
  exists stats1, arr', s2, arr''. done.
Qed.

(** ** [intToRgba] *)

Lemma land_255 (z : Z) : Z.land z 255 = z mod 256.
Proof. change 255 with (Z.ones 8). by rewrite Z.land_ones. Qed.

Lemma intToRgba_eq (z : Z) :
  intToRgba (Integer z)
  = inr [(z / 2 ^ 24) mod 256; (z / 2 ^ 16) mod 256;
         (z / 2 ^ 8) mod 256; z mod 256].
Proof.
  unfold intToRgba. by rewrite !land_255, !Z.shiftr_div_pow2 by lia.
Qed.

Lemma bytes_value (z : Z) :
  (z / 2 ^ 24) mod 256 * 2 ^ 24 + (z / 2 ^ 16) mod 256 * 2 ^ 16 +
  (z / 2 ^ 8) mod 256 * 2 ^ 8 + z mod 256 = z mod 2 ^ 32.
Proof.
  change (2 ^ 24) with 16777216. change (2 ^ 16) with 65536.
  change (2 ^ 8) with 256. change (2 ^ 32) with 4294967296.
  Z.div_mod_to_equations. lia.
Qed.

(** X7: [intToRgba] throws on a number that is not an integer; on an integer
    it returns four bytes, each from 0 to 255, that are the big-endian digits
    of the integer modulo [2 ^ 32]; for 100100 they are 0, 1, 135, 4. *)
Theorem intToRgba_bytes :
  intToRgba NonInteger = inl (MkError "Not an integer.") /\
  (forall z, exists r g b a,
     intToRgba (Integer z) = inr [r; g; b; a] /\
     0 <= r < 256 /\ 0 <= g < 256 /\ 0 <= b < 256 /\ 0 <= a < 256 /\
     r * 2 ^ 24 + g * 2 ^ 16 + b * 2 ^ 8 + a = z mod 2 ^ 32) /\
  intToRgba (Integer 100100) = inr [0; 1; 135; 4].
Proof.
  split; [done|]. split; [|done].
  intros z. eexists _, _, _, _. split; [apply intToRgba_eq|].
  repeat (split; [apply Z.mod_pos_bound; lia|]).
  apply bytes_value.
Qed.

(** X8: two integers get the same four bytes exactly when they agree modulo
    [2 ^ 32]; in particular [intToRgba] is injective on the 32-bit
    integers. *)
Theorem intToRgba_injective (z1 z2 : Z) :
  (intToRgba (Integer z1) = intToRgba (Integer z2) <->
     z1 mod 2 ^ 32 = z2 mod 2 ^ 32) /\
  (- 2 ^ 31 <= z1 < 2 ^ 31 -> - 2 ^ 31 <= z2 < 2 ^ 31 ->
     intToRgba (Integer z1) = intToRgba (Integer z2) -> z1 = z2).
Proof.
  assert (Hiff : intToRgba (Integer z1) = intToRgba (Integer z2) <->
                 z1 mod 2 ^ 32 = z2 mod 2 ^ 32).
  { rewrite !intToRgba_eq. split.
    - intros [= H1 H2 H3 H4]. rewrite <-!bytes_value. congruence.
    - intros Heq. do 2 f_equal; [|f_equal; [|f_equal; [|f_equal]]].
      + revert Heq. change (2 ^ 24) with 16777216.
        change (2 ^ 32) with 4294967296. Z.div_mod_to_equations. lia.
      + revert Heq. change (2 ^ 16) with 65536.
        change (2 ^ 32) with 4294967296. Z.div_mod_to_equations. lia.
      + revert Heq. change (2 ^ 8) with 256.
        change (2 ^ 32) with 4294967296. Z.div_mod_to_equations. lia.
      + revert Heq. change (2 ^ 32) with 4294967296.
        Z.div_mod_to_equations. lia. }
  split; [done|]. intros H1 H2 Heq%Hiff. revert H1 H2 Heq.
  change (2 ^ 31) with 2147483648. change (2 ^ 32) with 4294967296.
  Z.div_mod_to_equations. lia.
Qed.

Lemma intToRgba_injective_witness :
  intToRgba (Integer (-1)) = intToRgba (Integer (2 ^ 32 - 1)) /\
  (intToRgba (Integer 7) = intToRgba (Integer 7) -> 7 = 7).
Proof.
  split.
  - apply (proj1 (intToRgba_injective (-1) (2 ^ 32 - 1))). reflexivity.
  - apply (proj2 (intToRgba_injective 7 7)); simpl; lia.
Defined.

(** ** [prevPowerOf2], again *)

(** X9: for a positive [x] below [2 ^ 32], [prevPowerOf2(x)] is at most [x]
    and more than half of [x], it is a fixed point of [prevPowerOf2], and
    [prevPowerOf2] is monotone on such numbers. *)
Theorem prevPowerOf2_idempotent_monotone (x y : Z) :
  0 < x -> x <= y -> y < 2 ^ 32 ->
  exists p q,
    prevPowerOf2 x = Some (Some p) /\ prevPowerOf2 y = Some (Some q) /\
    p <= x < 2 * p /\ prevPowerOf2 p = Some (Some p) /\ p <= q.
Proof.
  intros Hx Hxy Hy.
  destruct (prevPowerOf2_spec x) as (e & He & Heqx & Hex); [lia|].
  destruct (prevPowerOf2_spec y) as (f & Hf & Heqy & Hfy); [lia|].
  rewrite Z.pow_add_r, Z.pow_1_r in Hex, Hfy by lia.
  exists (2 ^ e), (2 ^ f). split; [done|]. split; [done|].
  split; [lia|]. split.
  - destruct (prevPowerOf2_spec (2 ^ e)) as (g & Hg & -> & Hge); [lia|].
    do 2 f_equal.
    destruct (decide (g = e)) as [->|Hne]; [done|exfalso].
    destruct (decide (g < e)).
    + assert (2 ^ (g + 1) <= 2 ^ e) by (apply Z.pow_le_mono_r; lia). lia.
    + assert (2 ^ (e + 1) <= 2 ^ g) by (apply Z.pow_le_mono_r; lia).
      rewrite Z.pow_add_r, Z.pow_1_r in * by lia. lia.
  - apply Z.pow_le_mono_r; [lia|].
    destruct (decide (e <= f)); [done|exfalso].
    assert (2 ^ (f + 1) <= 2 ^ e) by (apply Z.pow_le_mono_r; lia).
    rewrite Z.pow_add_r, Z.pow_1_r in * by lia. lia.
Qed.

Lemma prevPowerOf2_idempotent_monotone_witness :
  exists p q,
    prevPowerOf2 300 = Some (Some p) /\ prevPowerOf2 600 = Some (Some q) /\
    p <= 300 < 2 * p /\ prevPowerOf2 p = Some (Some p) /\ p <= q.
Proof. apply (prevPowerOf2_idempotent_monotone 300 600); lia. Defined.

(** ** [getImageSize] *)

Lemma isInterleaved_snoc (pre : list Z) (c : Z) :
  isInterleaved (pre ++ [c]) = bool_decide (c = 3) || bool_decide (c = 4).
Proof.
  unfold isInterleaved. rewrite get_last, last_snoc.
  f_equal; apply bool_decide_ext; split; congruence.
Qed.

(** X10: the height and width returned are the last two extents of a shape
    that is not interleaved, and the two extents before the channel count of
    an interleaved shape; on an interleaved shape of two extents only, the
    channel count itself is returned as the width. *)
Theorem getImageSize_spec (pre : list Z) (h w c : Z) :
  (w <> 3 -> w <> 4 ->
     getImageSize (pre ++ [h; w]) = {| height := Some h; width := Some w |}) /\
  (c = 3 \/ c = 4 ->
     getImageSize (pre ++ [h; w; c])
     = {| height := Some h; width := Some w |}) /\
  (c = 3 \/ c = 4 ->
     getImageSize [h; c] = {| height := Some h; width := Some c |}).
Proof.
  split; [|split].
  - intros H3 H4. unfold getImageSize.
    replace (pre ++ [h; w]) with ((pre ++ [h]) ++ [w]) by by rewrite <-app_assoc.
    rewrite isInterleaved_snoc.
    rewrite !bool_decide_eq_false_2 by done. simpl.
    rewrite <-app_assoc. simpl.
    rewrite length_app. simpl.
    replace (length pre + 2 - 2)%nat with (length pre + 0)%nat by lia.
    by rewrite drop_app_length'.
  - intros Hc. unfold getImageSize.
    replace (pre ++ [h; w; c]) with ((pre ++ [h; w]) ++ [c])
      by by rewrite <-app_assoc.
    rewrite isInterleaved_snoc.
    assert (bool_decide (c = 3) || bool_decide (c = 4) = true) as ->.
    { destruct Hc as [-> | ->]; done. }
    rewrite <-app_assoc. simpl. rewrite length_app. simpl.
    replace (length pre + 3 - 3)%nat with (length pre + 0)%nat by lia.
    by rewrite drop_app_length'.
  - intros Hc. unfold getImageSize.
    change [h; c] with ([h] ++ [c]). rewrite isInterleaved_snoc.
    assert (bool_decide (c = 3) || bool_decide (c = 4) = true) as ->.
    { destruct Hc as [-> | ->]; done. }
    done.
Qed.

Lemma getImageSize_spec_witness :
  getImageSize ([1] ++ [24; 32]) = {| height := Some 24; width := Some 32 |} /\
  getImageSize ([1] ++ [24; 32; 3]) = {| height := Some 24; width := Some 32 |}.
Proof.
  split.
  - apply (proj1 (getImageSize_spec [1] 24 32 3)); discriminate.
  - apply (proj1 (proj2 (getImageSize_spec [1] 24 32 3))). left. reflexivity.
Defined.

(** ** [getDims], again, and [getLabels] *)

Lemma new_Map_entries_lookup (labels : list string) (name : string) (i : Z) :
  NoDup labels ->
  new_Map (entries_of labels) !! name = Some i <->
  exists k : nat, i = Z.of_nat k /\ labels !! k = Some name.
Proof.
  intros Hnd. rewrite new_Map_list_to_map.
  rewrite <-elem_of_list_to_map
    by (rewrite entries_of_keys; by apply NoDup_reverse_iff).
  rewrite elem_of_reverse, elem_of_lookup_imap. split.
  - intros (k & y & [= -> ->] & Hk). by exists k.
  - intros (k & -> & Hk). by exists k, name.
Qed.

Lemma getDims_NoDup (labels : list string) :
  NoDup labels ->
  getDims labels
  = inr (fun name =>
           match new_Map (entries_of labels) !! name with
           | None => inl (MkError "Invalid dimension.")
           | Some index => inr index
           end).
Proof.
  intros Hnd. unfold getDims.
  rewrite bool_decide_eq_false_2; [done|].
  intros Hne. apply Hne. by apply getDims_unique_iff.
Qed.

(** X11: on labels without repeats, the lookup returned by [getDims] is
    inverted by indexing: an index it returns is within the list and the
    label at that index is the name looked up, so two names never get the
    same index. *)
Theorem getDims_round_trip (labels : list string) :
  NoDup labels ->
  exists dims, getDims labels = inr dims /\
    (forall name i,
       dims name = inr i ->
       0 <= i < Z.of_nat (length labels) /\
       labels !! Z.to_nat i = Some name) /\
    (forall name1 name2 i,
       dims name1 = inr i -> dims name2 = inr i -> name1 = name2).
Proof.
  intros Hnd. eexists. split; [by apply getDims_NoDup|].
  assert (Hinv : forall name i,
            match new_Map (entries_of labels) !! name with
            | None => inl (MkError "Invalid dimension.")
            | Some index => inr index
            end = (inr i : Error + Z) ->
            0 <= i < Z.of_nat (length labels) /\
            labels !! Z.to_nat i = Some name).
  { intros name i Hi.
    destruct (new_Map (entries_of labels) !! name) as [j|] eqn:Hj; [|done].
    injection Hi as ->.
    apply new_Map_entries_lookup in Hj as (k & -> & Hk); [|done].
    rewrite Nat2Z.id. split; [|done].
    apply lookup_lt_Some in Hk. lia. }
  split; [exact Hinv|].
  intros name1 name2 i H1%Hinv H2%Hinv. destruct H1, H2. congruence.
Qed.

Lemma getDims_round_trip_witness :
  exists dims, getDims ["t"; "z"; "c"; "y"; "x"] = inr dims /\
    (forall name i,
       dims name = inr i ->
       0 <= i < Z.of_nat (length ["t"; "z"; "c"; "y"; "x"]) /\
       ["t"; "z"; "c"; "y"; "x"] !! Z.to_nat i = Some name) /\
    (forall name1 name2 i,
       dims name1 = inr i -> dims name2 = inr i -> name1 = name2).
Proof.
  apply (getDims_round_trip ["t"; "z"; "c"; "y"; "x"]).
  apply (bool_decide_unpack _). vm_compute. exact I.
Defined.

Lemma toLowerCase_char_not_upper (c : Ascii.ascii) :
  ~ (65 <= Ascii.nat_of_ascii (toLowerCase_char c) <= 90)%nat.
Proof.
  unfold toLowerCase_char.
  destruct (Nat.leb_spec 65 (Ascii.nat_of_ascii c));
    destruct (Nat.leb_spec (Ascii.nat_of_ascii c) 90); simpl; try lia.
  rewrite Ascii.nat_ascii_embedding by lia. lia.
Qed.

Lemma length_list_ascii_of_string (s : string) :
  length (String.list_ascii_of_string s) = String.length s.
Proof. induction s; simpl; congruence. Qed.

(** X12: [getLabels] returns one label for each character of the dimension
    order; the label at index [i] is the one-character string holding the
    lower-case form of the character [i] places from the end, and no label
    holds an upper-case letter.  ['XYCZT'] gives [t, z, c, y, x]. *)
Theorem getLabels_spec (dimOrder : string) :
  length (getLabels dimOrder) = String.length dimOrder /\
  (forall (i : nat) c,
     String.list_ascii_of_string dimOrder !! i = Some c ->
     getLabels dimOrder !! (String.length dimOrder - 1 - i)%nat
     = Some (String (toLowerCase_char c) EmptyString)) /\
  (forall label,
     label ∈ getLabels dimOrder ->
     exists c, label = String c EmptyString /\
               ~ (65 <= Ascii.nat_of_ascii c <= 90)%nat) /\
  getLabels "XYCZT" = ["t"; "z"; "c"; "y"; "x"].
Proof.
  unfold getLabels. split; [|split; [|split; [|done]]].
  - by rewrite length_reverse, length_fmap, length_list_ascii_of_string.
  - intros i c Hi. pose proof (lookup_lt_Some _ _ _ Hi) as Hlt.
    rewrite length_list_ascii_of_string in Hlt.
    rewrite reverse_lookup
      by (rewrite length_fmap, length_list_ascii_of_string; lia).
    rewrite length_fmap, length_list_ascii_of_string.
    replace (String.length dimOrder - S (String.length dimOrder - 1 - i))%nat
      with i by lia.
    by rewrite list_lookup_fmap, Hi.
  - intros label Hl. rewrite elem_of_reverse in Hl.
    apply list_elem_of_fmap in Hl as (c & -> & _).
    eexists. split; [done|]. apply toLowerCase_char_not_upper.
Qed.

(** X13: when no two characters of the dimension order agree in lower case,
    [getDims(getLabels(dimOrder))] does not throw, and it sends the
    lower-case form of the character at position [i] to the position
    counted from the end, [length - 1 - i]. *)
Theorem getDims_getLabels (dimOrder : string) :
  NoDup (toLowerCase_char <$> String.list_ascii_of_string dimOrder) ->
  exists dims, getDims (getLabels dimOrder) = inr dims /\
    forall (i : nat) c,
      String.list_ascii_of_string dimOrder !! i = Some c ->
      dims (String (toLowerCase_char c) EmptyString)
      = inr (Z.of_nat (String.length dimOrder) - 1 - Z.of_nat i).
Proof.
  intros Hnd.
  assert (Hnd' : NoDup (getLabels dimOrder)).
  { unfold getLabels. apply NoDup_reverse_iff.
    rewrite (list_fmap_compose toLowerCase_char
               (fun c => String c EmptyString)).
    assert (Inj eq eq (fun c => String c EmptyString))
      by (by intros c1 c2 [= ->]).
    by apply (NoDup_fmap_2 _). }
  eexists. split; [by apply getDims_NoDup|].
  intros i c Hi. cbv beta. pose proof (lookup_lt_Some _ _ _ Hi) as Hlt.
  rewrite length_list_ascii_of_string in Hlt.
  assert (new_Map (entries_of (getLabels dimOrder))
            !! String (toLowerCase_char c) EmptyString
          = Some (Z.of_nat (String.length dimOrder - 1 - i))) as ->.
  { apply new_Map_entries_lookup; [done|]. eexists. split; [done|].
    unfold getLabels.
    rewrite reverse_lookup
      by (rewrite length_fmap, length_list_ascii_of_string; lia).
    rewrite length_fmap, length_list_ascii_of_string.
    replace (String.length dimOrder - S (String.length dimOrder - 1 - i))%nat
      with i by lia.
    by rewrite list_lookup_fmap, Hi. }
  f_equal. lia.
Qed.

Lemma getDims_getLabels_witness :
  exists dims, getDims (getLabels "XYCZT") = inr dims /\
    forall (i : nat) c,
      String.list_ascii_of_string "XYCZT" !! i = Some c ->
      dims (String (toLowerCase_char c) EmptyString)
      = inr (Z.of_nat (String.length "XYCZT") - 1 - Z.of_nat i).
Proof.
  apply (getDims_getLabels "XYCZT").
  apply (bool_decide_unpack _). vm_compute. exact I.
Defined.

(** ** [getSingleSelectionStats3D] and [getSingleSelectionStats] *)

Lemma shr_spec (x b : Z) :
  0 <= x < 2 ^ 31 -> 0 <= b < 32 -> Avivator.shr (Some x) b = x / 2 ^ b.
Proof.
  intros Hx Hb. unfold Avivator.shr, Avivator.ToInt32. simpl.
  rewrite (Z.mod_small (x + 2 ^ 31)) by lia.
  rewrite (Z.mod_small b) by lia.
  rewrite Z.shiftr_div_pow2 by lia. f_equal. lia.
Qed.

Lemma indexOf_first (l : list string) (x : string) (i : nat) :
  l !! i = Some x ->
  (forall j : nat, (j < i)%nat -> l !! j <> Some x) ->
  Avivator.indexOf l x = Z.of_nat i.
Proof.
  intros Hi Hfirst. unfold Avivator.indexOf.
  assert (list_find (fun y => y = x) l = Some (i, x)) as ->; [|done].
  apply list_find_Some. split; [done|]. split; [done|].
  intros j y Hj Hlt ->. by apply (Hfirst j).
Qed.

(** The number of z-planes that [getSingleSelectionStats3D] computes: the
    extent of the first axis labelled [z], halved once for each level of the
    pyramid but the first. *)
Lemma getSingleSelectionStats3D_sizeZ
    (loader : list Avivator.PixelSource) (source : Avivator.PixelSource)
    (i : nat) (extent : Z) :
  last loader = Some source ->
  (length loader <= 32)%nat ->
  Avivator.labels source !! i = Some "z" ->
  (forall j : nat, (j < i)%nat -> Avivator.labels source !! j <> Some "z") ->
  Avivator.shape source !! i = Some extent ->
  0 <= extent < 2 ^ 31 ->
  Avivator.shr
    (get (Avivator.shape source)
         (Avivator.indexOf (Avivator.labels source) "z"))
    (Z.of_nat (length loader) - 1)
  = extent / 2 ^ (Z.of_nat (length loader) - 1).
Proof.
  intros Hlast Hlen Hi Hfirst Hextent Hrange.
  rewrite (indexOf_first _ _ i Hi Hfirst), get_nat, Hextent.
  apply shr_spec; [done|].
  destruct loader; [done|]. simpl in *. lia.
Qed.

Lemma num_min_least (a b : num) :
  (Avivator.num_min a b = a \/ Avivator.num_min a b = b) /\
  num_le (Avivator.num_min a b) a /\ num_le (Avivator.num_min a b) b.
Proof.
  unfold Avivator.num_min.
  destruct a as [|x|], b as [|y|]; simpl; try (split; [tauto|done]);
    try done;
    destruct (Z.ltb_spec y x); simpl; (split; [tauto|lia]).
Qed.

Lemma num_max_greatest (a b : num) :
  (Avivator.num_max a b = a \/ Avivator.num_max a b = b) /\
  num_le a (Avivator.num_max a b) /\ num_le b (Avivator.num_max a b).
Proof.
  unfold Avivator.num_max.
  destruct a as [|x|], b as [|y|]; simpl; try (split; [tauto|done]);
    try done;
    destruct (Z.ltb_spec x y); simpl; (split; [tauto|lia]).
Qed.

Lemma num_le_trans (a b c : num) : num_le a b -> num_le b c -> num_le a c.
Proof. destruct a, b, c; simpl; try done; lia. Qed.

Lemma num_min_least3 (a b c : num) :
  least (Avivator.num_min (Avivator.num_min a b) c) [a; b; c].
Proof.
  destruct (num_min_least a b) as (Hab & Ha & Hb).
  destruct (num_min_least (Avivator.num_min a b) c) as (Hc & Hl & Hr).
  split.
  - destruct Hc as [-> | ->].
    + destruct Hab as [-> | ->]; [left|right; left].
    + do 2 right. left.
  - constructor; [exact (num_le_trans _ _ _ Hl Ha)|].
    constructor; [exact (num_le_trans _ _ _ Hl Hb)|].
    constructor; [done|constructor].
Qed.

Lemma num_max_greatest3 (a b c : num) :
  greatest (Avivator.num_max (Avivator.num_max a b) c) [a; b; c].
Proof.
  destruct (num_max_greatest a b) as (Hab & Ha & Hb).
  destruct (num_max_greatest (Avivator.num_max a b) c) as (Hc & Hl & Hr).
  split.
  - destruct Hc as [-> | ->].
    + destruct Hab as [-> | ->]; [left|right; left].
    + do 2 right. left.
  - constructor; [exact (num_le_trans _ _ _ Ha Hl)|].
    constructor; [exact (num_le_trans _ _ _ Hb Hl)|].
    constructor; [done|constructor].
Qed.



(** X14: [getSingleSelectionStats] uses the last source of an array and no
    other: on an array it does what it does on the last source alone, and on
    an empty array it throws a TypeError.  It rejects when the raster cannot
    be fetched, and otherwise returns the properties [domain] and
    [autoSliders] of the statistics of the raster as [domain] and [slider]. *)
Theorem getSingleSelectionStats_last
    (getChannelStats : list Z -> Avivator.outcome (string -> Avivator.value))
    (selection : gmap string Z) :
  Avivator.getSingleSelectionStats getChannelStats (inl []) selection
  = Avivator.Throws Avivator.TypeError /\
  (forall (sources : list Avivator.PixelSource) (source : Avivator.PixelSource),
     Avivator.getSingleSelectionStats getChannelStats
       (inl (sources ++ [source])) selection
     = Avivator.getSingleSelectionStats getChannelStats (inr source) selection) /\
  (forall source : Avivator.PixelSource,
     Avivator.getRaster source selection = None ->
     Avivator.getSingleSelectionStats getChannelStats (inr source) selection
     = Avivator.Throws Avivator.Rejected) /\
  (forall (source : Avivator.PixelSource) (raster : list Z)
          (stats : string -> Avivator.value),
     Avivator.getRaster source selection = Some raster ->
     getChannelStats raster = Avivator.Returns stats ->
     Avivator.getSingleSelectionStats getChannelStats (inr source) selection
     = Avivator.Returns [("domain", stats "domain");
                         ("slider", stats "autoSliders")]).
Proof.
  split; [done|]. split; [|split].
  - intros sources source.
    unfold Avivator.getSingleSelectionStats. by rewrite last_snoc.
  - intros source Hr. unfold Avivator.getSingleSelectionStats.
    by rewrite Hr.
  - intros source raster stats Hr Hs.
    unfold Avivator.getSingleSelectionStats. rewrite Hr. simpl.
    by rewrite Hs.
Qed.

(** X15: [getSingleSelectionStats3D] throws a TypeError on an empty loader,
    and it rejects, whatever the statistics are, when one of the rasters of
    the three planes [z = 0], [z = floor(sizeZ / 2)] and [z = sizeZ - 1] of
    the last source cannot be fetched. *)
Theorem getSingleSelectionStats3D_errors
    (getChannelStats : list Z -> Avivator.outcome (string -> Avivator.value))
    (selection : gmap string Z) :
  Avivator.getSingleSelectionStats3D getChannelStats [] selection
  = Avivator.Throws Avivator.TypeError /\
  forall (loader : list Avivator.PixelSource) (source : Avivator.PixelSource)
         (i : nat) (extent : Z),
    last loader = Some source ->
    (length loader <= 32)%nat ->
    Avivator.labels source !! i = Some "z" ->
    (forall j : nat, (j < i)%nat -> Avivator.labels source !! j <> Some "z") ->
    Avivator.shape source !! i = Some extent ->
    0 <= extent < 2 ^ 31 ->
    let sizeZ := extent / 2 ^ (Z.of_nat (length loader) - 1) in
    Avivator.getRaster source (<["z" := 0]> selection) = None \/
    Avivator.getRaster source (<["z" := sizeZ / 2]> selection) = None \/
    Avivator.getRaster source (<["z" := sizeZ - 1]> selection) = None ->
    Avivator.getSingleSelectionStats3D getChannelStats loader selection
    = Avivator.Throws Avivator.Rejected.
Proof.
  split; [done|].
  intros loader source i extent Hlast Hlen Hi Hfirst Hextent Hrange sizeZ Hnone.
  unfold Avivator.getSingleSelectionStats3D. rewrite Hlast.
  rewrite (getSingleSelectionStats3D_sizeZ loader source i extent) by done.
  fold sizeZ.
  destruct (Avivator.getRaster source (<["z" := 0]> selection));
    [|done]. simpl.
  destruct (Avivator.getRaster source (<["z" := sizeZ / 2]> selection));
    [|done]. simpl.
  destruct (Avivator.getRaster source (<["z" := sizeZ - 1]> selection));
    [|done].
  destruct Hnone as [?|[?|?]]; done.
Qed.

Lemma getSingleSelectionStats3D_errors_witness :
  let source :=
    {| Avivator.shape := [1; 8; 2; 2];
       Avivator.labels := ["c"; "z"; "y"; "x"];
       Avivator.getRaster :=
         fun selection =>
           if decide (selection !! "z" = Some 2) then None else Some [1] |} in
  Avivator.getSingleSelectionStats3D
    (fun _ => Avivator.Returns (fun _ => Avivator.Undefined))
    [source; source] ∅
  = Avivator.Throws Avivator.Rejected.
Proof.
  intros source.
  apply (proj2 (getSingleSelectionStats3D_errors _ ∅) [source; source]
               source 1%nat 8).
  - reflexivity.
  - simpl. lia.
  - reflexivity.
  - intros j Hj. destruct j as [|j]; [discriminate|lia].
  - reflexivity.
  - lia.
  - right. left. reflexivity.
Defined.

(** ** [getNameFromUrl] *)

Import Stdlib.Strings.Ascii.

Lemma append_nil_r (s : string) : s +:+ EmptyString = s.
Proof. induction s as [|c s IH]; [done|]. by rewrite <-IH at 2. Qed.

Lemma append_assoc (a b c : string) : (a +:+ b) +:+ c = a +:+ b +:+ c.
Proof.
  induction a as [|x a IH]; [done|].
  change (String x ((a +:+ b) +:+ c) = String x (a +:+ b +:+ c)).
  by rewrite IH.
Qed.

Lemma list_ascii_of_string_app (a b : string) :
  String.list_ascii_of_string (a +:+ b)
  = String.list_ascii_of_string a ++ String.list_ascii_of_string b.
Proof.
  induction a as [|x a IH]; [done|].
  change (x :: String.list_ascii_of_string (a +:+ b)
          = x :: (String.list_ascii_of_string a
                  ++ String.list_ascii_of_string b)).
  by rewrite IH.
Qed.

Lemma split_spec (sep : Ascii.ascii) (s : string) :
  exists h t l,
    Avivator.split sep s = h :: t /\ last (h :: t) = Some l /\
    (sep ∉ String.list_ascii_of_string h) /\
    (sep ∉ String.list_ascii_of_string l) /\
    ((t = [] /\ s = h) \/ (t <> [] /\ exists r, s = h +:+ String sep r)) /\
    ((t = [] /\ s = l) \/ (t <> [] /\ exists p, s = p +:+ String sep l)).
Proof.
  induction s as [|c s IH].
  { exists EmptyString, [], EmptyString. simpl.
    repeat split; try done; try apply not_elem_of_nil; by left. }
  destruct IH as (h & t & l & Hs & Hl & Hh & Hnl & Hhead & Hlast).
  simpl. destruct (Ascii.eqb_spec c sep) as [->|Hne].
  - exists EmptyString, (h :: t), l. rewrite Hs.
    split; [done|]. split; [done|]. split; [apply not_elem_of_nil|].
    split; [done|]. split.
    + right. split; [done|]. by exists s.
    + right. split; [done|].
      destruct Hlast as [[-> ->]|[_ [p ->]]].
      * by exists EmptyString.
      * by exists (String sep p).
  - rewrite Hs. destruct t as [|h' t].
    + injection Hl as <-.
      destruct Hhead as [[_ ->]|[? _]]; [|done].
      exists (String c h), [], (String c h).
      assert (sep ∉ String.list_ascii_of_string (String c h)).
      { simpl. rewrite not_elem_of_cons. split; [congruence|done]. }
      repeat split; try done; by left.
    + exists (String c h), (h' :: t), l.
      split; [done|]. split; [done|]. split.
      { simpl. rewrite not_elem_of_cons. split; [congruence|done]. }
      split; [done|].
      destruct Hhead as [[? _]|[_ [r ->]]]; [done|].
      destruct Hlast as [[? _]|[_ [p Hp]]]; [done|].
      split; right; (split; [done|]).
      * by exists r.
      * exists (String c p). by rewrite Hp.
Qed.

Lemma split_no_sep (sep : Ascii.ascii) (s : string) :
  sep ∉ String.list_ascii_of_string s -> Avivator.split sep s = [s].
Proof.
  induction s as [|c s IH]; [done|].
  simpl. rewrite not_elem_of_cons. intros [Hne Hs].
  destruct (Ascii.eqb_spec c sep) as [->|_]; [done|].
  by rewrite (IH Hs).
Qed.

Lemma drop_last {A} (l : list A) :
  drop (length l - 1) l !! 0%nat = last l.
Proof.
  rewrite lookup_drop, last_lookup. f_equal. lia.
Qed.

(** X16: [getNameFromUrl] always returns a string.  The URL is a prefix,
    the name and a query, in this order, where the query is empty or begins
    with the first [?] of the URL, and the prefix is empty or ends with the
    last [/] before the query; so the name holds neither [/] nor [?], and
    [getNameFromUrl] maps it to itself. *)
Theorem getNameFromUrl_spec (url : string) :
  exists name prefix query,
    Avivator.getNameFromUrl url = Avivator.Returns (Some name) /\
    url = prefix +:+ name +:+ query /\
    (prefix = EmptyString \/ exists p, prefix = p +:+ "/") /\
    (query = EmptyString \/ exists q, query = "?" +:+ q) /\
    ("?"%char ∉ String.list_ascii_of_string prefix) /\
    ("?"%char ∉ String.list_ascii_of_string name) /\
    ("/"%char ∉ String.list_ascii_of_string name) /\
    Avivator.getNameFromUrl name = Avivator.Returns (Some name).
Proof.
  unfold Avivator.getNameFromUrl.
  destruct (split_spec "?" url)
    as (path & t & _ & Hs & _ & Hpath & _ & Hhead & _).
  rewrite Hs. simpl.
  destruct (split_spec "/" path)
    as (h' & t' & name & Hs' & Hl & _ & Hname & _ & Hlast).
  rewrite drop_last, Hs', Hl.
  assert (Hquery : exists query,
            url = path +:+ query /\
            (query = EmptyString \/ exists q, query = "?" +:+ q)).
  { destruct Hhead as [[_ ->]|[_ [r ->]]].
    - exists EmptyString. split; [by rewrite append_nil_r|by left].
    - exists (String "?" r). split; [done|]. right. by exists r. }
  destruct Hquery as (query & -> & Hquery).
  assert (Hprefix : exists prefix,
            path = prefix +:+ name /\
            (prefix = EmptyString \/ exists p, prefix = p +:+ "/")).
  { destruct Hlast as [[_ ->]|[_ [p ->]]].
    - exists EmptyString. split; [done|by left].
    - exists (p +:+ "/"). split; [by rewrite append_assoc|].
      right. by exists p. }
  destruct Hprefix as (prefix & -> & Hprefix).
  rewrite list_ascii_of_string_app, not_elem_of_app in Hpath.
  destruct Hpath as [Hp Hn].
  exists name, prefix, query.
  split; [done|]. split; [by rewrite append_assoc|].
  split; [done|]. split; [done|]. split; [done|]. split; [done|].
  split; [done|].
  rewrite (split_no_sep "?" name Hn). simpl.
  by rewrite (split_no_sep "/" name Hname).
Qed.

(** ** [getDefaultGlobalSelection] and [buildDefaultSelection] *)

Lemma or0_default (x : option Z) : or0 x = default 0 x.
Proof. destruct x as [v|]; [|done]. simpl. by destruct (Z.eqb_spec v 0). Qed.

Lemma getDefaultGlobalSelection_snoc (G : list string) shape labels x getRaster :
  Avivator.getDefaultGlobalSelection G
    {| Avivator.shape := shape; Avivator.labels := labels ++ [x];
       Avivator.getRaster := getRaster |}
  = let selection :=
      Avivator.getDefaultGlobalSelection G
        {| Avivator.shape := shape; Avivator.labels := labels;
           Avivator.getRaster := getRaster |} in
    if decide (x ∈ G)
    then <[x := default 0 (shape !! length labels) / 2]> selection
    else selection.
Proof.
  unfold Avivator.getDefaultGlobalSelection. simpl.
  rewrite imap_app, filter_app, foldl_app. simpl.
  rewrite Nat.add_0_r.
  rewrite filter_cons, filter_nil. simpl.
  destruct (decide (x ∈ G)); simpl; [|done].
  by rewrite or0_default.
Qed.

Lemma getDefaultGlobalSelection_lookup (G : list string) shape labels getRaster
    (name : string) :
  let selection :=
    Avivator.getDefaultGlobalSelection G
      {| Avivator.shape := shape; Avivator.labels := labels;
         Avivator.getRaster := getRaster |} in
  (selection !! name = None <-> name ∉ labels \/ name ∉ G) /\
  (forall i : nat,
     labels !! i = Some name -> name ∈ G ->
     (forall j : nat, (i < j)%nat -> labels !! j <> Some name) ->
     selection !! name = Some (default 0 (shape !! i) / 2)).
Proof.
  induction labels as [|x labels IH] using rev_ind.
  { simpl. split; [|done]. split; [|done]. intros _. left. apply not_elem_of_nil. }
  rewrite getDefaultGlobalSelection_snoc. cbv zeta in *.
  destruct IH as [IHnone IHsome].
  split.
  - rewrite not_elem_of_app, not_elem_of_cons.
    destruct (decide (x ∈ G)) as [Hx|Hx].
    + rewrite lookup_insert_None, IHnone. split.
      * intros [[Hl|Hng] Hxn]; [left|by right].
        split; [done|]. split; [congruence|apply not_elem_of_nil].
      * intros [[Hl [Hxn _]]|Hng].
        -- split; [by left|congruence].
        -- split; [by right|]. by intros ->.
    + rewrite IHnone. split.
      * intros [Hl|Hng]; [|by right].
        destruct (decide (name = x)) as [->|Hxn]; [by right|].
        left. split; [done|]. split; [done|]. apply not_elem_of_nil.
      * intros [[Hl _]|Hng]; [by left|by right].
  - intros i Hi HG Hlast.
    destruct (decide (i = length labels)) as [->|Hne].
    + rewrite list_lookup_middle in Hi by done. injection Hi as ->.
      rewrite decide_True by done. by rewrite lookup_insert_eq.
    + assert (i < length labels)%nat as Hlt.
      { apply lookup_lt_Some in Hi. rewrite length_app in Hi. simpl in Hi. lia. }
      rewrite lookup_app_l in Hi by done.
      assert (x <> name) as Hxn.
      { intros ->. apply (Hlast (length labels) Hlt).
        by rewrite list_lookup_middle. }
      assert (Hlast' : forall j : nat, (i < j)%nat -> labels !! j <> Some name).
      { intros j Hj Hlj. apply (Hlast j Hj).
        rewrite lookup_app_l; [done|]. by apply lookup_lt_Some in Hlj. }
      destruct (decide (x ∈ G)).
      * rewrite lookup_insert_ne by done. by apply IHsome.
      * by apply IHsome.
Qed.

(** X17: the selection returned by [getDefaultGlobalSelection] has a key
    exactly for the labels that are global slider dimensions, and the value
    of a label is half its extent, rounded down, taken at the last position
    of the label in [labels], with 0 for a missing extent. *)
Theorem getDefaultGlobalSelection_spec (G : list string)
    (pixelSource : Avivator.PixelSource) (name : string) :
  let selection := Avivator.getDefaultGlobalSelection G pixelSource in
  (selection !! name = None <->
   name ∉ Avivator.labels pixelSource \/ name ∉ G) /\
  (forall i : nat,
     Avivator.labels pixelSource !! i = Some name -> name ∈ G ->
     (forall j : nat, (i < j)%nat ->
                      Avivator.labels pixelSource !! j <> Some name) ->
     selection !! name
     = Some (default 0 (Avivator.shape pixelSource !! i) / 2)).
Proof.
  destruct pixelSource as [shape labels getRaster].
  apply getDefaultGlobalSelection_lookup.
Qed.

Lemma getDefaultGlobalSelection_not_global (G : list string)
    (pixelSource : Avivator.PixelSource) (name : string) :
  name ∉ G -> Avivator.getDefaultGlobalSelection G pixelSource !! name = None.
Proof.
  intros HG. destruct pixelSource as [shape labels getRaster].
  apply getDefaultGlobalSelection_lookup. by right.
Qed.

Lemma buildDefaultSelection_find (G : list string)
    (pixelSource : Avivator.PixelSource) (i : nat) name size :
  list_find (fun d => (d.1 ∉ G) /\ or0 d.2 ≠ 0)
            (imap (fun i name => (name, Avivator.shape pixelSource !! i))
                  (Avivator.labels pixelSource))
  = Some (i, (name, size)) <->
  Avivator.labels pixelSource !! i = Some name /\
  size = Avivator.shape pixelSource !! i /\
  (name ∉ G) /\ default 0 size <> 0 /\
  (forall (j : nat) name',
     (j < i)%nat -> Avivator.labels pixelSource !! j = Some name' ->
     name' ∈ G \/ default 0 (Avivator.shape pixelSource !! j) = 0).
Proof.
  rewrite list_find_Some, list_lookup_imap_Some. simpl.
  rewrite or0_default. split.
  - intros ((y & Hy & [= -> ->]) & [HG Hsize] & Hfirst).
    do 4 (split; [done|]).
    intros j name' Hj Hname'.
    specialize (Hfirst j (name', Avivator.shape pixelSource !! j)).
    rewrite list_lookup_imap, Hname' in Hfirst.
    specialize (Hfirst eq_refl Hj). simpl in Hfirst.
    rewrite or0_default in Hfirst.
    destruct (decide (name' ∈ G)); [by left|right].
    destruct (decide (default 0 (Avivator.shape pixelSource !! j) = 0));
      [done|]. by destruct Hfirst.
  - intros (Hi & -> & HG & Hsize & Hfirst).
    split; [by exists name|]. split; [done|].
    intros j [name' size'] Hj Hlt [HG' Hsize'].
    rewrite list_lookup_imap in Hj.
    destruct (Avivator.labels pixelSource !! j) as [name''|] eqn:Hname;
      [|done].
    injection Hj as <- <-. simpl in *. rewrite or0_default in Hsize'.
    destruct (Hfirst j name'' Hlt Hname); done.
Qed.

(** X18: [buildDefaultSelection] throws a TypeError exactly when every
    label is a global slider dimension or has an extent that is 0 or
    missing, so that no dimension is left to enumerate. *)
Theorem buildDefaultSelection_throws (G : list string)
    (pixelSource : Avivator.PixelSource) :
  Avivator.buildDefaultSelection G pixelSource
  = Avivator.Throws Avivator.TypeError <->
  forall (i : nat) name,
    Avivator.labels pixelSource !! i = Some name ->
    name ∈ G \/ default 0 (Avivator.shape pixelSource !! i) = 0.
Proof.
  unfold Avivator.buildDefaultSelection.
  destruct (list_find _ _) as [[i [name size]]|] eqn:Hfind.
  - apply buildDefaultSelection_find in Hfind
      as (Hi & -> & HG & Hsize & _).
    split; [done|]. intros Hall.
    destruct (Hall i name Hi); done.
  - split; [|done]. intros _ i name Hi.
    rewrite list_find_None, Forall_forall in Hfind.
    specialize (Hfind (name, Avivator.shape pixelSource !! i)).
    simpl in Hfind. rewrite or0_default in Hfind.
    destruct (decide (name ∈ G)); [by left|right].
    destruct (decide (default 0 (Avivator.shape pixelSource !! i) = 0));
      [done|].
    exfalso. apply Hfind; [|done].
    apply elem_of_lookup_imap. by exists i, name.
Qed.

(** X19: let [name] be the first label that is not a global slider
    dimension and has a non-zero extent [size].  On a shape that is not
    interleaved, [buildDefaultSelection] returns [min(4, size)] selections
    (none when [size] is negative); the selection at position [k] gives
    [name] the value [k] and agrees with the default global selection on
    every other key.  On an interleaved shape it returns one selection: the
    first of those, or the empty one when there is none, with [c] set
    to 0. *)
Theorem buildDefaultSelection_spec (G : list string)
    (pixelSource : Avivator.PixelSource) (i : nat) (name : string) (size : Z) :
  Avivator.labels pixelSource !! i = Some name ->
  name ∉ G ->
  Avivator.shape pixelSource !! i = Some size ->
  size <> 0 ->
  (forall (j : nat) name',
     (j < i)%nat -> Avivator.labels pixelSource !! j = Some name' ->
     name' ∈ G \/ default 0 (Avivator.shape pixelSource !! j) = 0) ->
  let globalSelection := Avivator.getDefaultGlobalSelection G pixelSource in
  exists selection,
    Avivator.buildDefaultSelection G pixelSource
    = Avivator.Returns selection /\
    if Avivator.isInterleaved (Avivator.shape pixelSource)
    then exists first,
           selection = [first] /\ first !! "c" = Some 0 /\
           forall key, key <> "c" ->
             first !! key
             = if 0 <? size
               then if decide (key = name) then Some 0
                    else globalSelection !! key
               else None
    else length selection = Z.to_nat (Z.min 4 size) /\
         forall (k : nat) sel,
           selection !! k = Some sel ->
           sel !! name = Some (Z.of_nat k) /\
           forall key, key <> name -> sel !! key = globalSelection !! key.
Proof.
  intros Hi HG Hsize Hnz Hfirst globalSelection.
  unfold Avivator.buildDefaultSelection.
  assert (list_find (fun d => (d.1 ∉ G) /\ or0 d.2 ≠ 0)
            (imap (fun i name => (name, Avivator.shape pixelSource !! i))
                  (Avivator.labels pixelSource))
          = Some (i, (name, Some size))) as ->.
  { apply buildDefaultSelection_find. by rewrite Hsize. }
  rewrite or0_default. simpl. fold globalSelection.
  assert (Hnone : globalSelection !! name = None).
  { by apply getDefaultGlobalSelection_not_global. }
  assert (Hsel : forall k : Z, forall key,
            (globalSelection ∪ {[name := k]}) !! key
            = if decide (key = name) then Some k else globalSelection !! key).
  { intros k key. destruct (decide (key = name)) as [->|Hne].
    - by rewrite lookup_union_r, lookup_singleton_eq.
    - rewrite lookup_union_l; [done|]. by rewrite lookup_singleton_ne. }
  eexists. split; [done|].
  destruct (Avivator.isInterleaved (Avivator.shape pixelSource)).
  - eexists. split; [done|]. split; [by rewrite lookup_insert_eq|].
    intros key Hkey. rewrite lookup_insert_ne by done.
    rewrite list_lookup_fmap.
    destruct (Z.ltb_spec 0 size).
    + rewrite lookup_seqZ_lt by lia. simpl. by rewrite Hsel.
    + by rewrite lookup_seqZ_ge by lia.
  - split; [by rewrite length_fmap, length_seqZ|].
    intros k sel. rewrite list_lookup_fmap.
    destruct (seqZ 0 (Z.min 4 size) !! k) as [v|] eqn:Hk; [|done].
    apply lookup_seqZ in Hk as [-> _]. intros [= <-].
    split.
    + by rewrite Hsel, decide_True.
    + intros key Hkey. by rewrite Hsel, decide_False.
Qed.

Lemma buildDefaultSelection_spec_witness :
  let pixelSource :=
    {| Avivator.shape := [1; 3; 5; 24; 24];
       Avivator.labels := ["t"; "c"; "z"; "y"; "x"];
       Avivator.getRaster := fun _ => None |} in
  let globalSelection :=
    Avivator.getDefaultGlobalSelection ["z"; "t"] pixelSource in
  exists selection,
    Avivator.buildDefaultSelection ["z"; "t"] pixelSource
    = Avivator.Returns selection /\
    length selection = 3%nat /\
    forall (k : nat) sel,
      selection !! k = Some sel ->
      sel !! "c" = Some (Z.of_nat k) /\
      forall key, key <> "c" -> sel !! key = globalSelection !! key.
Proof.
  apply (buildDefaultSelection_spec ["z"; "t"]
           {| Avivator.shape := [1; 3; 5; 24; 24];
              Avivator.labels := ["t"; "c"; "z"; "y"; "x"];
              Avivator.getRaster := fun _ => None |} 1 "c" 3).
  - reflexivity.
  - apply (bool_decide_unpack _). vm_compute. exact I.
  - reflexivity.
  - discriminate.
  - intros j name' Hj Hname'. left.
    destruct j as [|j]; [|lia]. simpl in Hname'.
    injection Hname' as <-. apply (bool_decide_unpack _). vm_compute. exact I.
Defined.

(** ** [hexToRgb] *)

Lemma hexDigit_range (c : ascii) (d : Z) :
  Avivator.hexDigit c = Some d -> 0 <= d <= 15.
Proof.
  unfold Avivator.hexDigit.
  repeat match goal with
         | |- context [?a <=? ?b] => destruct (Z.leb_spec a b); simpl
         end; intros [= <-]; lia.
Qed.

Lemma parseInt16_range (hi lo : ascii) (v : Z) :
  Avivator.parseInt16 hi lo = Some v -> 0 <= v <= 255.
Proof.
  unfold Avivator.parseInt16.
  destruct (Avivator.hexDigit hi) as [h|] eqn:Hh; [|done].
  destruct (Avivator.hexDigit lo) as [l|] eqn:Hl; [|done].
  apply hexDigit_range in Hh, Hl. simpl. intros [= <-]. lia.
Qed.

Lemma hexDigit_hexChar (upper : bool) (d : Z) :
  0 <= d <= 15 ->
  Avivator.hexDigit (hexChar upper d) = Some d /\ hexChar upper d <> "#"%char.
Proof.
  intros Hd. rewrite <-(Z2Nat.id d) by lia.
  assert (Z.to_nat d < 16)%nat as Hlt by lia.
  revert Hlt. generalize (Z.to_nat d). intros n Hn.
  do 16 (destruct n as [|n]; [by destruct upper|]). lia.
Qed.

Lemma parseInt16_toHex (upper : bool) (n : Z) :
  0 <= n <= 255 ->
  Avivator.parseInt16 (hexChar upper (n / 16)) (hexChar upper (n mod 16))
  = Some n.
Proof.
  intros Hn. unfold Avivator.parseInt16.
  pose proof (Z.div_mod n 16 ltac:(lia)).
  pose proof (Z.mod_pos_bound n 16 ltac:(lia)).
  rewrite (proj1 (hexDigit_hexChar upper (n / 16) ltac:(lia))).
  rewrite (proj1 (hexDigit_hexChar upper (n mod 16) ltac:(lia))).
  simpl. f_equal. lia.
Qed.

Lemma hexToRgb_no_hash (c : ascii) (rest : string) :
  c <> "#"%char ->
  Avivator.hexToRgb (String c rest)
  = Avivator.hexToRgb (String "#" (String c rest)).
Proof.
  intros Hc. destruct c as [[] [] [] [] [] [] [] []]; done.
Qed.

(** X20: when [hexToRgb] returns, it returns three numbers, each from 0
    to 255. *)
Theorem hexToRgb_range (hex : string) (rgb : list Z) :
  Avivator.hexToRgb hex = Avivator.Returns rgb ->
  exists r g b,
    rgb = [r; g; b] /\ 0 <= r <= 255 /\ 0 <= g <= 255 /\ 0 <= b <= 255.
Proof.
  unfold Avivator.hexToRgb.
  generalize (match hex with
              | String "#" rest => rest
              | _ => hex
              end). intros digits.
  destruct (String.list_ascii_of_string digits)
    as [|r1 [|r2 [|g1 [|g2 [|b1 [|b2 [|]]]]]]]; try done.
  destruct (Avivator.parseInt16 r1 r2) as [r|] eqn:Hr; [|done].
  destruct (Avivator.parseInt16 g1 g2) as [g|] eqn:Hg; [|done].
  destruct (Avivator.parseInt16 b1 b2) as [b|] eqn:Hb; [|done].
  intros [= <-]. exists r, g, b.
  apply parseInt16_range in Hr, Hg, Hb. done.
Qed.

Lemma hexToRgb_range_witness :
  exists r g b,
    [255; 128; 10] = [r; g; b] /\
    0 <= r <= 255 /\ 0 <= g <= 255 /\ 0 <= b <= 255.
Proof. apply (hexToRgb_range "#FF800a" [255; 128; 10]). reflexivity. Defined.

(** X21: [hexToRgb] inverts the hexadecimal notation of a colour: from the
    two-digit forms of three components between 0 and 255, each in upper or
    in lower case, with or without a leading [#], it returns the three
    components. *)
Theorem hexToRgb_round_trip (u1 u2 u3 : bool) (r g b : Z) :
  0 <= r <= 255 -> 0 <= g <= 255 -> 0 <= b <= 255 ->
  Avivator.hexToRgb ("#" +:+ toHex u1 r +:+ toHex u2 g +:+ toHex u3 b)
  = Avivator.Returns [r; g; b] /\
  Avivator.hexToRgb (toHex u1 r +:+ toHex u2 g +:+ toHex u3 b)
  = Avivator.Returns [r; g; b].
Proof.
  intros Hr Hg Hb.
  assert (Hdigits :
    match String.list_ascii_of_string
            (toHex u1 r +:+ toHex u2 g +:+ toHex u3 b) with
    | [r1; r2; g1; g2; b1; b2] =>
        match Avivator.parseInt16 r1 r2, Avivator.parseInt16 g1 g2,
              Avivator.parseInt16 b1 b2 with
        | Some r, Some g, Some b => Avivator.Returns [r; g; b]
        | _, _, _ => Avivator.Throws Avivator.TypeError
        end
    | _ => Avivator.Throws Avivator.TypeError
    end = Avivator.Returns [r; g; b]).
  { change (String.list_ascii_of_string
              (toHex u1 r +:+ toHex u2 g +:+ toHex u3 b))
      with [hexChar u1 (r / 16); hexChar u1 (r mod 16);
            hexChar u2 (g / 16); hexChar u2 (g mod 16);
            hexChar u3 (b / 16); hexChar u3 (b mod 16)].
    cbv beta iota.
    by rewrite !parseInt16_toHex. }
  split; [exact Hdigits|].
  change (toHex u1 r +:+ toHex u2 g +:+ toHex u3 b)
    with (String (hexChar u1 (r / 16))
            (String (hexChar u1 (r mod 16)) (toHex u2 g +:+ toHex u3 b)))
    in *.
  rewrite hexToRgb_no_hash; [exact Hdigits|].
  apply hexDigit_hexChar.
  pose proof (Z.div_mod r 16 ltac:(lia)).
  pose proof (Z.mod_pos_bound r 16 ltac:(lia)). lia.
Qed.

Lemma hexToRgb_round_trip_witness :
  Avivator.hexToRgb ("#" +:+ toHex true 255 +:+ toHex false 128
                     +:+ toHex false 10)
  = Avivator.Returns [255; 128; 10] /\
  Avivator.hexToRgb (toHex true 255 +:+ toHex false 128 +:+ toHex false 10)
  = Avivator.Returns [255; 128; 10].
Proof. apply (hexToRgb_round_trip true false false 255 128 10); lia. Defined.

(** ** [isOMETIFF] *)

Lemma prefix_iff (t s : string) :
  String.prefix t s = true <-> exists post, s = t +:+ post.
Proof.
  revert s. induction t as [|c t IH]; intros s.
  - split; [|by destruct s]. intros _. by exists s.
  - destruct s as [|c' s].
    { split; [done|]. by intros [post ?]. }
    simpl. destruct (ascii_dec c c') as [->|Hne].
    + rewrite IH. split.
      * intros [post ->]. by exists post.
      * intros [post [= ->]]. by exists post.
    + split; [done|]. intros [post [= ? _]]. congruence.
Qed.

Lemma includes_iff (s t : string) :
  Avivator.includes s t = true <-> exists pre post, s = pre +:+ t +:+ post.
Proof.
  induction s as [|c s IH].
  - change (Avivator.includes EmptyString t)
      with (String.prefix t EmptyString || false).
    rewrite orb_false_r, prefix_iff. split.
    + intros [post ?]. by exists EmptyString, post.
    + intros ([|? ?] & post & ?); [by exists post|done].
  - change (Avivator.includes (String c s) t)
      with (String.prefix t (String c s) || Avivator.includes s t).
    rewrite orb_true_iff, prefix_iff, IH. split.
    + intros [[post ?]|(pre & post & ->)].
      * by exists EmptyString, post.
      * by exists (String c pre), post.
    + intros ([|c' pre] & post & Heq).
      * left. by exists post.
      * right. injection Heq as -> ->. by exists pre, post.
Qed.

(** X22: [isOMETIFF] is false on an array of files; on a URL or a file it
    is true exactly when the name contains [ome.tif], so the test for
    [ome.tiff] never decides the result. *)
Theorem isOMETIFF_spec (urlOrFile : Avivator.UrlOrFile) :
  Avivator.isOMETIFF urlOrFile = true <->
  exists name pre post,
    (urlOrFile = Avivator.Url name \/ urlOrFile = Avivator.File name) /\
    name = pre +:+ "ome.tif" +:+ post.
Proof.
  assert (Hname : forall name,
            Avivator.includes name "ome.tiff"
            || Avivator.includes name "ome.tif" = true <->
            exists pre post, name = pre +:+ "ome.tif" +:+ post).
  { intros name. rewrite orb_true_iff, !includes_iff. split; [|by right].
    intros [(pre & post & ->)|?]; [|done].
    exists pre, (String "f" post).
    f_equal. }
  destruct urlOrFile as [names|name|name]; simpl.
  - split; [done|]. by intros (? & ? & ? & [?|?] & _).
  - rewrite Hname. split.
    + intros (pre & post & Heq). exists name, pre, post. split; [by left|done].
    + intros (? & pre & post & [[= <-]|?] & ->); [|done]. by exists pre, post.
  - rewrite Hname. split.
    + intros (pre & post & Heq). exists name, pre, post. split; [by right|done].
    + intros (? & pre & post & [?|[= <-]] & ->); [done|]. by exists pre, post.
Qed.

(** ** [channelsReducer] *)

Lemma spread_dense {A} (arr : list (Avivator.slot A)) :
  Avivator.Hole ∉ arr -> Avivator.spread arr = arr.
Proof.
  induction arr as [|s arr IH]; [done|].
  rewrite not_elem_of_cons. intros [Hs Harr].
  change (match s with
          | Avivator.Hole => Avivator.Item None
          | Avivator.Item v => Avivator.Item v
          end :: Avivator.spread arr = s :: arr).
  rewrite (IH Harr). by destruct s.
Qed.

Lemma length_spread {A} (arr : list (Avivator.slot A)) :
  length (Avivator.spread arr) = length arr.
Proof. unfold Avivator.spread. by rewrite length_fmap. Qed.

Lemma spread_no_hole {A} (arr : list (Avivator.slot A)) :
  Avivator.Hole ∉ Avivator.spread arr.
Proof.
  unfold Avivator.spread. intros (s & Hs & _)%list_elem_of_fmap.
  by destruct s.
Qed.

Lemma assign_lt {A} (arr : list (Avivator.slot A)) (index : nat) v :
  (index < length arr)%nat ->
  Avivator.assign arr index v = <[index := Avivator.Item v]> arr.
Proof. intros Hlt. unfold Avivator.assign. by rewrite decide_True. Qed.

Lemma full_insert {A} (n : nat) (arr : list (Avivator.slot A)) (i : nat) v :
  full n arr -> full n (<[i := Avivator.Item v]> arr).
Proof.
  intros [Hlen Hdense]. split; [by rewrite length_insert|].
  intros (j & Hj)%list_elem_of_lookup.
  apply list_lookup_insert_Some in Hj as [(_ & ? & _)|[_ Hj]]; [done|].
  apply Hdense. by eapply list_elem_of_lookup_2.
Qed.

Lemma at_index_insert {A} (arr : list (Avivator.slot A)) (i j : nat) v :
  (i < length arr)%nat ->
  Avivator.at_index (<[i := Avivator.Item v]> arr) j
  = if decide (j = i) then v else Avivator.at_index arr j.
Proof.
  intros Hlt. unfold Avivator.at_index.
  destruct (decide (j = i)) as [->|Hne].
  - by rewrite list_lookup_insert_eq.
  - by rewrite list_lookup_insert_ne.
Qed.

Lemma filter_index_none {A} (arr : list (Avivator.slot A)) (g : nat -> nat)
    (index : nat) :
  (forall i, g i <> index) ->
  Avivator.Hole ∉ arr ->
  omap (fun d : nat * Avivator.slot A =>
          match d.2 with
          | Avivator.Hole => None
          | Avivator.Item v =>
              if decide (d.1 = index) then None else Some (Avivator.Item v)
          end)
       (imap (fun i s => (g i, s)) arr)
  = arr.
Proof.
  revert g. induction arr as [|s arr IH]; intros g Hg; [done|].
  rewrite not_elem_of_cons. intros [Hs Harr].
  destruct s as [|v]; [done|]. simpl.
  rewrite decide_False by apply Hg. f_equal.
  apply (IH (g ∘ S)); [|done]. intros i. apply Hg.
Qed.

Lemma filter_index_delete {A} (arr : list (Avivator.slot A)) (g : nat -> nat)
    (target index : nat) :
  (forall i, g i = target <-> i = index) ->
  Avivator.Hole ∉ arr ->
  omap (fun d : nat * Avivator.slot A =>
          match d.2 with
          | Avivator.Hole => None
          | Avivator.Item v =>
              if decide (d.1 = target) then None else Some (Avivator.Item v)
          end)
       (imap (fun i s => (g i, s)) arr)
  = delete index arr.
Proof.
  revert g index. induction arr as [|s arr IH]; intros g index Hg; [done|].
  rewrite not_elem_of_cons. intros [Hs Harr].
  destruct s as [|v]; [done|]. simpl.
  destruct index as [|index].
  - rewrite decide_True by by apply Hg.
    apply (filter_index_none arr (g ∘ S)); [|done].
    intros i Hi. by apply Hg in Hi.
  - rewrite decide_False by (intros Hi; by apply Hg in Hi).
    change (delete (S index) (Avivator.Item v :: arr))
      with (Avivator.Item v :: delete index arr).
    f_equal. apply (IH (g ∘ S)); [|done].
    intros i. unfold compose. rewrite Hg. split; [by intros [= ->]|by intros ->].
Qed.

Lemma filter_index_dense {A} (arr : list (Avivator.slot A)) (index : nat) :
  Avivator.Hole ∉ arr -> Avivator.filter_index arr index = delete index arr.
Proof. intros Harr. by apply (filter_index_delete arr (fun i => i)). Qed.

Lemma delete_past_end {A} (l : list A) (i : nat) :
  (length l <= i)%nat -> delete i l = l.
Proof.
  intros Hi. rewrite delete_take_drop, take_ge, drop_ge by lia.
  by rewrite app_nil_r.
Qed.

Lemma full_delete {A} (n : nat) (arr : list (Avivator.slot A)) (i : nat) :
  full n arr -> (i < n)%nat -> full (n - 1) (delete i arr).
Proof.
  intros [Hlen Hdense] Hi. split.
  - rewrite length_delete, Hlen; [done|]. apply lookup_lt_is_Some. lia.
  - intros Hin%list_elem_of_delete_inv. by apply Hdense.
Qed.

Lemma at_index_delete {A} (arr : list (Avivator.slot A)) (i j : nat) :
  Avivator.at_index (delete i arr) j
  = Avivator.at_index arr (if decide (j < i)%nat then j else S j).
Proof.
  unfold Avivator.at_index. destruct (decide (j < i)%nat).
  - by rewrite list_lookup_delete_lt.
  - by rewrite list_lookup_delete_ge by lia.
Qed.

Lemma full_snoc {A} (n : nat) (arr : list (Avivator.slot A)) v :
  full n arr -> full (S n) (arr ++ [Avivator.Item v]).
Proof.
  intros [Hlen Hdense]. split.
  - rewrite length_app, Hlen. simpl. lia.
  - rewrite not_elem_of_app, not_elem_of_cons.
    split; [done|]. split; [done|]. apply not_elem_of_nil.
Qed.

Lemma snoc_no_hole {A} (arr : list (Avivator.slot A)) v :
  Avivator.Hole ∉ arr -> Avivator.Hole ∉ arr ++ [Avivator.Item v].
Proof. intros Hdense. by apply (full_snoc (length arr)). Qed.

Lemma at_index_snoc {A} (arr : list (Avivator.slot A)) v (j : nat) :
  Avivator.at_index (arr ++ [Avivator.Item v]) j
  = if decide (j = length arr) then v else Avivator.at_index arr j.
Proof.
  unfold Avivator.at_index. destruct (decide (j = length arr)) as [->|Hne].
  - by rewrite list_lookup_middle.
  - destruct (decide (j < length arr)%nat).
    + by rewrite lookup_app_l.
    + rewrite !lookup_ge_None_2; [done|lia|].
      rewrite length_app. simpl. lia.
Qed.

Ltac full_state H :=
  destruct H as ([Hl1 Hd1] & [Hl2 Hd2] & [Hl3 Hd3] & [Hl4 Hd4] & [Hl5 Hd5]
                 & [Hl6 Hd6]).

(** X23: on a state of [n] channels, an action that changes a channel in
    place ([CHANGE_CHANNEL], [CHANGE_COLOR], [CHANGE_SLIDER],
    [CHANGE_DOMAIN], [TOGGLE_ON]) with an index below [n] returns a state of
    [n] channels in which the channel at the index has the new values and
    every other channel is as before. *)
Theorem channelsReducer_update {Selection Domain Slider}
    (COLOR_PALLETE : list (list Z)) (Math_random : nat -> string) (n : nat)
    (state : Avivator.State Selection Domain Slider)
    (a : Avivator.action Selection Domain Slider) (index : nat) :
  has_channels n state ->
  action_index a = Some index ->
  (index < n)%nat ->
  exists state',
    Avivator.channelsReducer COLOR_PALLETE Math_random state a = inr state' /\
    has_channels n state' /\
    channel state' index = update_channel a (channel state index) /\
    forall j, j <> index -> channel state' j = channel state j.
Proof.
  intros Hstate Ha Hindex. pose proof Hstate as Hstate'.
  full_state Hstate.
  destruct Hstate' as (F1 & F2 & F3 & F4 & F5 & F6).
  destruct a; try discriminate; injection Ha as ->;
    eexists; (split; [reflexivity|]);
    rewrite ?spread_dense by done;
    rewrite ?assign_lt by lia;
    (split; [unfold has_channels; simpl;
             repeat (split; [first [assumption | by apply full_insert]|]);
             first [assumption | by apply full_insert]|]);
    unfold channel; simpl;
    (split; [|intros j Hj]);
    rewrite ?at_index_insert by lia;
    rewrite ?decide_True by done; rewrite ?decide_False by done; done.
Qed.

Lemma channelsReducer_update_witness :
  exists state',
    Avivator.channelsReducer (Selection := Z) (Domain := Z) (Slider := Z)
      [] (fun _ => "id")
      {| Avivator.selections := [Avivator.Item (Some 1)];
         Avivator.domains := [Avivator.Item (Some 2)];
         Avivator.colors := [Avivator.Item (Some [0; 0; 255])];
         Avivator.isOn := [Avivator.Item (Some true)];
         Avivator.sliders := [Avivator.Item (Some 3)];
         Avivator.ids := [Avivator.Item (Some "a")] |}
      (Avivator.TOGGLE_ON 0)
    = inr state' /\
    has_channels 1 state' /\
    channel_isOn (channel state' 0) = Some false.
Proof.
  destruct (channelsReducer_update (Selection := Z) (Domain := Z) (Slider := Z)
              [] (fun _ => "id") 1
              {| Avivator.selections := [Avivator.Item (Some 1)];
                 Avivator.domains := [Avivator.Item (Some 2)];
                 Avivator.colors := [Avivator.Item (Some [0; 0; 255])];
                 Avivator.isOn := [Avivator.Item (Some true)];
                 Avivator.sliders := [Avivator.Item (Some 3)];
                 Avivator.ids := [Avivator.Item (Some "a")] |}
              (Avivator.TOGGLE_ON 0) 0)
    as (state' & Heq & Hfull & Hat & _).
  - repeat split; simpl;
      intros Hin; repeat (apply elem_of_cons in Hin as [Hin|Hin]; [done|]);
      by apply elem_of_nil in Hin.
  - reflexivity.
  - lia.
  - exists state'. split; [exact Heq|]. split; [exact Hfull|].
    by rewrite Hat.
Defined.

Lemma State_eq {Selection Domain Slider}
    (s1 s2 : Avivator.State Selection Domain Slider) :
  Avivator.selections s1 = Avivator.selections s2 ->
  Avivator.domains s1 = Avivator.domains s2 ->
  Avivator.colors s1 = Avivator.colors s2 ->
  Avivator.isOn s1 = Avivator.isOn s2 ->
  Avivator.sliders s1 = Avivator.sliders s2 ->
  Avivator.ids s1 = Avivator.ids s2 ->
  s1 = s2.
Proof. destruct s1, s2. simpl. by intros -> -> -> -> -> ->. Qed.

(** X24: on a state of [n] channels, toggling twice a channel whose
    [isOn] entry is a boolean gives the state back. *)
Theorem channelsReducer_toggle_twice {Selection Domain Slider}
    (COLOR_PALLETE : list (list Z)) (Math_random : nat -> string) (n : nat)
    (state : Avivator.State Selection Domain Slider) (index : nat) (b : bool) :
  has_channels n state ->
  Avivator.at_index (Avivator.isOn state) index = Some b ->
  exists state',
    Avivator.channelsReducer COLOR_PALLETE Math_random state
      (Avivator.TOGGLE_ON index) = inr state' /\
    Avivator.at_index (Avivator.isOn state') index = Some (negb b) /\
    Avivator.channelsReducer COLOR_PALLETE Math_random state'
      (Avivator.TOGGLE_ON index) = inr state.
Proof.
  intros Hstate Hb. full_state Hstate.
  assert (Hlookup : Avivator.isOn state !! index
                    = Some (Avivator.Item (Some b))).
  { unfold Avivator.at_index in Hb.
    destruct (Avivator.isOn state !! index) as [[|v]|]; [done| |done].
    by rewrite Hb. }
  assert (index < length (Avivator.isOn state))%nat as Hlt
    by by eapply lookup_lt_Some.
  eexists. split; [reflexivity|]. simpl.
  rewrite spread_dense, assign_lt, Hb by done. simpl.
  split; [by rewrite at_index_insert, decide_True|].
  unfold Avivator.channelsReducer. simpl. f_equal.
  apply State_eq; simpl; try done.
  rewrite spread_dense.
  2: { intros (j & Hj)%list_elem_of_lookup.
       apply list_lookup_insert_Some in Hj as [(_ & ? & _)|[_ Hj]]; [done|].
       apply Hd4. by eapply list_elem_of_lookup_2. }
  rewrite assign_lt by by rewrite length_insert.
  rewrite at_index_insert, decide_True by done. simpl.
  rewrite list_insert_insert_eq, negb_involutive.
  by apply list_insert_id.
Qed.

Lemma channelsReducer_toggle_twice_witness :
  let state :=
    {| Avivator.selections := [Avivator.Item (Some 1)];
       Avivator.domains := [Avivator.Item (Some 2)];
       Avivator.colors := [Avivator.Item (Some [0; 0; 255])];
       Avivator.isOn := [Avivator.Item (Some true)];
       Avivator.sliders := [Avivator.Item (Some 3)];
       Avivator.ids := [Avivator.Item (Some "a")] |} in
  exists state',
    Avivator.channelsReducer [] (fun _ => "id") state (Avivator.TOGGLE_ON 0)
    = inr state' /\
    Avivator.at_index (Avivator.isOn state') 0 = Some (negb true) /\
    Avivator.channelsReducer [] (fun _ => "id") state' (Avivator.TOGGLE_ON 0)
    = inr state.
Proof.
  apply (channelsReducer_toggle_twice (Selection := Z) (Domain := Z)
           (Slider := Z) [] (fun _ => "id") 1).
  - repeat split; simpl;
      intros Hin; repeat (apply elem_of_cons in Hin as [Hin|Hin]; [done|]);
      by apply elem_of_nil in Hin.
  - reflexivity.
Defined.

(** X25: on a state of [n] channels, [ADD_CHANNEL] returns a state of
    [n + 1] channels: the first [n] are as before, and the new one has the
    given selection, domain and slider, the colour white, is switched on and
    carries a fresh id.  Removing the channel at index [n] from that state
    gives the first state back. *)
Theorem channelsReducer_add_remove {Selection Domain Slider}
    (COLOR_PALLETE : list (list Z)) (Math_random : nat -> string) (n : nat)
    (state : Avivator.State Selection Domain Slider)
    (selection : option Selection) (domain : option Domain)
    (slider : option Slider) :
  has_channels n state ->
  exists state',
    Avivator.channelsReducer COLOR_PALLETE Math_random state
      (Avivator.ADD_CHANNEL selection domain slider) = inr state' /\
    has_channels (S n) state' /\
    channel state' n
    = {| channel_selection := selection; channel_domain := domain;
         channel_color := Some [255; 255; 255]; channel_isOn := Some true;
         channel_slider := slider;
         channel_id := Some (Math_random 0%nat) |} /\
    (forall j, (j < n)%nat -> channel state' j = channel state j) /\
    Avivator.channelsReducer COLOR_PALLETE Math_random state'
      (Avivator.REMOVE_CHANNEL n) = inr state.
Proof.
  intros Hstate. pose proof Hstate as Hstate'. full_state Hstate.
  destruct Hstate' as (F1 & F2 & F3 & F4 & F5 & F6).
  eexists. split; [reflexivity|].
  rewrite !spread_dense by done.
  split.
  { unfold has_channels; simpl.
    do 5 (split; [by apply full_snoc|]). by apply full_snoc. }
  split.
  { unfold channel. simpl. rewrite !at_index_snoc.
    by rewrite !decide_True by done. }
  split.
  { intros j Hj. unfold channel. simpl. rewrite !at_index_snoc.
    by rewrite !decide_False by lia. }
  unfold Avivator.channelsReducer. f_equal.
  apply State_eq; simpl;
    (rewrite filter_index_dense by (by apply snoc_no_hole));
    match goal with
    | |- delete n (?arr ++ [?x]) = _ =>
        replace n with (length arr) by done;
        rewrite (delete_middle arr [] x); by rewrite app_nil_r
    end.
Qed.

Lemma channelsReducer_add_remove_witness :
  let state :=
    {| Avivator.selections := [Avivator.Item (Some 1)];
       Avivator.domains := [Avivator.Item (Some 2)];
       Avivator.colors := [Avivator.Item (Some [0; 0; 255])];
       Avivator.isOn := [Avivator.Item (Some true)];
       Avivator.sliders := [Avivator.Item (Some 3)];
       Avivator.ids := [Avivator.Item (Some "a")] |} in
  exists state',
    Avivator.channelsReducer [] (fun _ => "id") state
      (Avivator.ADD_CHANNEL (Some 4) (Some 5) (Some 6)) = inr state' /\
    has_channels 2 state' /\
    channel state' 1
    = {| channel_selection := Some 4; channel_domain := Some 5;
         channel_color := Some [255; 255; 255]; channel_isOn := Some true;
         channel_slider := Some 6; channel_id := Some "id" |} /\
    (forall j, (j < 1)%nat -> channel state' j = channel state j) /\
    Avivator.channelsReducer [] (fun _ => "id") state'
      (Avivator.REMOVE_CHANNEL 1) = inr state.
Proof.
  apply (channelsReducer_add_remove (Selection := Z) (Domain := Z)
           (Slider := Z) [] (fun _ => "id") 1).
  repeat split; simpl;
    intros Hin; repeat (apply elem_of_cons in Hin as [Hin|Hin]; [done|]);
    by apply elem_of_nil in Hin.
Defined.

(** X26: on a state of [n] channels, [REMOVE_CHANNEL] with an index below
    [n] returns a state of [n - 1] channels, in which the channels before the
    index are as before and each later channel has moved down by one; with
    an index that is not below [n] it returns the state unchanged. *)
Theorem channelsReducer_remove {Selection Domain Slider}
    (COLOR_PALLETE : list (list Z)) (Math_random : nat -> string) (n : nat)
    (state : Avivator.State Selection Domain Slider) (index : nat) :
  has_channels n state ->
  exists state',
    Avivator.channelsReducer COLOR_PALLETE Math_random state
      (Avivator.REMOVE_CHANNEL index) = inr state' /\
    ((index < n)%nat ->
     has_channels (n - 1) state' /\
     forall j,
       channel state' j
       = channel state (if decide (j < index)%nat then j else S j)) /\
    ((n <= index)%nat -> state' = state).
Proof.
  intros Hstate. pose proof Hstate as Hstate'. full_state Hstate.
  destruct Hstate' as (F1 & F2 & F3 & F4 & F5 & F6).
  eexists. split; [reflexivity|].
  rewrite !filter_index_dense by done.
  split.
  - intros Hindex. split.
    + unfold has_channels; simpl.
      do 5 (split; [by apply full_delete|]). by apply full_delete.
    + intros j. unfold channel. simpl. by rewrite !at_index_delete.
  - intros Hindex. apply State_eq; simpl; apply delete_past_end; lia.
Qed.

Lemma channelsReducer_remove_witness :
  let state :=
    {| Avivator.selections := [Avivator.Item (Some 1); Avivator.Item (Some 7)];
       Avivator.domains := [Avivator.Item (Some 2); Avivator.Item (Some 8)];
       Avivator.colors := [Avivator.Item (Some [0; 0; 255]);
                           Avivator.Item (Some [0; 255; 0])];
       Avivator.isOn := [Avivator.Item (Some true); Avivator.Item (Some false)];
       Avivator.sliders := [Avivator.Item (Some 3); Avivator.Item (Some 9)];
       Avivator.ids := [Avivator.Item (Some "a"); Avivator.Item (Some "b")] |} in
  exists state',
    Avivator.channelsReducer [] (fun _ => "id") state
      (Avivator.REMOVE_CHANNEL 0) = inr state' /\
    ((0 < 2)%nat ->
     has_channels (2 - 1) state' /\
     forall j,
       channel state' j
       = channel state (if decide (j < 0)%nat then j else S j)) /\
    ((2 <= 0)%nat -> state' = state).
Proof.
  apply (channelsReducer_remove (Selection := Z) (Domain := Z)
           (Slider := Z) [] (fun _ => "id") 2).
  repeat split; simpl;
    intros Hin; repeat (apply elem_of_cons in Hin as [Hin|Hin]; [done|]);
    by apply elem_of_nil in Hin.
Defined.

(** X27: on a state of [n] channels, [CHANGE_COLOR] with an index that is
    not below [n] writes past the end: [colors] grows to [index + 1] entries,
    with holes from [n] to the index, while the other five arrays keep their
    [n] entries, so the result is no longer a state of [m] channels for
    any [m]. *)
Theorem channelsReducer_change_past_end {Selection Domain Slider}
    (COLOR_PALLETE : list (list Z)) (Math_random : nat -> string) (n : nat)
    (state : Avivator.State Selection Domain Slider) (index : nat)
    (value : option (list Z)) :
  has_channels n state ->
  (n <= index)%nat ->
  exists state',
    Avivator.channelsReducer COLOR_PALLETE Math_random state
      (Avivator.CHANGE_COLOR index value) = inr state' /\
    length (Avivator.colors state') = S index /\
    Avivator.at_index (Avivator.colors state') index = value /\
    (forall j, (n <= j < index)%nat ->
               Avivator.colors state' !! j = Some Avivator.Hole) /\
    (forall j, (j < n)%nat ->
               Avivator.colors state' !! j = Avivator.colors state !! j) /\
    length (Avivator.selections state') = n /\
    (forall m, ~ has_channels m state').
Proof.
  intros Hstate Hindex. full_state Hstate.
  eexists. split; [reflexivity|]. simpl.
  rewrite spread_dense by done. unfold Avivator.assign.
  rewrite decide_False by lia.
  assert (Hlen : length (Avivator.colors state
                         ++ replicate (index - length (Avivator.colors state))
                              Avivator.Hole ++ [Avivator.Item value])
                 = S index).
  { rewrite !length_app, length_replicate. simpl. lia. }
  split; [done|]. split.
  { unfold Avivator.at_index.
    rewrite lookup_app_r, lookup_app_r; rewrite ?length_replicate; try lia.
    replace (index - length (Avivator.colors state)
             - (index - length (Avivator.colors state)))%nat
      with 0%nat by lia.
    done. }
  split.
  { intros j Hj. rewrite lookup_app_r by lia.
    rewrite lookup_app_l by (rewrite length_replicate; lia).
    apply lookup_replicate_2. lia. }
  split.
  { intros j Hj. by rewrite lookup_app_l by lia. }
  split; [done|].
  intros m ([Hm1 _] & _ & [Hm3 _] & _). simpl in *. lia.
Qed.

Lemma channelsReducer_change_past_end_witness :
  let state :=
    {| Avivator.selections := [Avivator.Item (Some 1)];
       Avivator.domains := [Avivator.Item (Some 2)];
       Avivator.colors := [Avivator.Item (Some [0; 0; 255])];
       Avivator.isOn := [Avivator.Item (Some true)];
       Avivator.sliders := [Avivator.Item (Some 3)];
       Avivator.ids := [Avivator.Item (Some "a")] |} in
  exists state',
    Avivator.channelsReducer [] (fun _ => "id") state
      (Avivator.CHANGE_COLOR 3 (Some [9; 9; 9])) = inr state' /\
    length (Avivator.colors state') = 4%nat /\
    Avivator.at_index (Avivator.colors state') 3 = Some [9; 9; 9] /\
    (forall j, (1 <= j < 3)%nat ->
               Avivator.colors state' !! j = Some Avivator.Hole) /\
    (forall j, (j < 1)%nat ->
               Avivator.colors state' !! j = Avivator.colors state !! j) /\
    length (Avivator.selections state') = 1%nat /\
    (forall m, ~ has_channels m state').
Proof.
  apply (channelsReducer_change_past_end (Selection := Z) (Domain := Z)
           (Slider := Z) [] (fun _ => "id") 1).
  - repeat split; simpl;
      intros Hin; repeat (apply elem_of_cons in Hin as [Hin|Hin]; [done|]);
      by apply elem_of_nil in Hin.
  - lia.
Defined.

(** X28: [RESET_CHANNELS] ignores the state it is given.  With [n]
    selections, sliders and domains and no colours and no [isOn] in the
    action, it returns a state of [n] channels holding them, in which
    channel [j] has the colour of the palette at [j] ([undefined] past the
    end of the palette), is switched on, and has an id of its own call of
    [Math.random]. *)
Theorem channelsReducer_reset {Selection Domain Slider}
    (COLOR_PALLETE : list (list Z)) (Math_random : nat -> string) (n : nat)
    (state : Avivator.State Selection Domain Slider)
    (selections : list (Avivator.slot Selection))
    (sliders : list (Avivator.slot Slider))
    (domains : list (Avivator.slot Domain)) :
  full n selections -> full n sliders -> full n domains ->
  exists state',
    Avivator.channelsReducer COLOR_PALLETE Math_random state
      (Avivator.RESET_CHANNELS selections sliders domains None None)
    = inr state' /\
    has_channels n state' /\
    forall j, (j < n)%nat ->
      channel state' j
      = {| channel_selection := Avivator.at_index selections j;
           channel_domain := Avivator.at_index domains j;
           channel_color := COLOR_PALLETE !! j;
           channel_isOn := Some true;
           channel_slider := Avivator.at_index sliders j;
           channel_id := Some (Math_random j) |}.
Proof.
  intros [Hl1 Hd1] [Hl2 Hd2] [Hl3 Hd3].
  eexists. split; [reflexivity|]. split.
  - unfold has_channels; simpl. repeat split; try done.
    + by rewrite length_imap.
    + intros (j & [|v] & Heq & Hj)%elem_of_lookup_imap; [|done].
      apply Hd1. by eapply list_elem_of_lookup_2.
    + by rewrite length_replicate.
    + by intros [? _]%elem_of_replicate.
    + by rewrite length_fmap, length_seq.
    + by intros (? & ? & _)%list_elem_of_fmap.
  - intros j Hj. unfold channel; simpl. f_equal.
    + unfold Avivator.at_index. rewrite list_lookup_imap.
      destruct (selections !! j) as [[|v]|] eqn:Hsel; simpl; [|done|].
      * exfalso. apply Hd1. by eapply list_elem_of_lookup_2.
      * apply lookup_ge_None in Hsel. lia.
    + unfold Avivator.at_index. rewrite Hl1.
      by rewrite lookup_replicate_2.
    + unfold Avivator.at_index. rewrite Hl1, list_lookup_fmap.
      by rewrite lookup_seq_lt.
Qed.

Lemma channelsReducer_reset_witness :
  exists state',
    Avivator.channelsReducer [[0; 0; 255]] (fun _ => "id")
      {| Avivator.selections := []; Avivator.domains := [];
         Avivator.colors := []; Avivator.isOn := [];
         Avivator.sliders := []; Avivator.ids := [] |}
      (Avivator.RESET_CHANNELS
         [Avivator.Item (Some 1); Avivator.Item (Some 2)]
         [Avivator.Item (Some 3); Avivator.Item (Some 4)]
         [Avivator.Item (Some 5); Avivator.Item (Some 6)] None None)
    = inr state' /\
    has_channels 2 state' /\
    forall j, (j < 2)%nat ->
      channel state' j
      = {| channel_selection :=
             Avivator.at_index
               [Avivator.Item (Some 1); Avivator.Item (Some 2)] j;
           channel_domain :=
             Avivator.at_index
               [Avivator.Item (Some 5); Avivator.Item (Some 6)] j;
           channel_color := [[0; 0; 255]] !! j;
           channel_isOn := Some true;
           channel_slider :=
             Avivator.at_index
               [Avivator.Item (Some 3); Avivator.Item (Some 4)] j;
           channel_id := Some "id" |}.
Proof.
  apply (channelsReducer_reset (Selection := Z) (Domain := Z) (Slider := Z)
           [[0; 0; 255]] (fun _ => "id") 2);
    (split; [reflexivity|]);
    intros Hin; repeat (apply elem_of_cons in Hin as [Hin|Hin]; [done|]);
    by apply elem_of_nil in Hin.
Defined.
